(** * inference/pdf_tools.py: density and highest-density-interval estimation

    A shallow embedding of the estimation core of [pdf_tools.py] and the
    verification of its specification.

    Number model.  The program computes on IEEE doubles.  The order-statistics
    layer ([sample_hdi], [dbl_interval_length], [BinaryTree], the slice map
    of [GaussianKDE]) is embedded over the rationals [Q], so that every
    definition evaluates.  The products whose value is truncated by [int] or
    decides a branch of [sample_hdi] ([fraction * n], [f1 * L], [w1 * 0.99])
    are rounded to the nearest double as the program rounds them, since the
    rounding changes the integer; sums and differences of sample values are
    exact.  The analytic layer ([binary_search], the cross-validation score,
    [UnimodalPdf.posterior]) needs [exp], [log], [sqrt] and [pi] and is
    embedded over the real numbers [R]: a division by zero yields no number
    where the program divides, and rounding, infinities and NaN are outside
    the model. *)

From Stdlib Require Import String.
From Stdlib Require Import QArith Qround Qabs Qpower ZArith List Lia Psatz Bool.
From Stdlib Require Import Sorting.Mergesort Sorting.Permutation Sorting.Sorted.
From Stdlib Require Import Reals Qreals.
Import ListNotations.

Set Implicit Arguments.

(* ================================================================== *)
(** * Part I: the embedding                                            *)
(* ================================================================== *)

(** ** The Python run-time: exceptions and warnings

    A computation carries the list of warnings it has emitted (the calls of
    [warnings.warn], in order) and ends either with an exception or with a
    value. *)
Module Py.

Inductive exn : Type :=
| ValueError (msg : string)
| IndexError
| KeyError
| TypeError
| OverflowError.

Definition M (A : Type) : Type := (list string * (exn + A))%type.

Definition ret {A} (a : A) : M A := ([], inr a).
Definition raise {A} (e : exn) : M A := ([], inl e).
Definition warn (msg : string) : M unit := ([msg], inr tt).

Definition bind {A B} (m : M A) (k : A -> M B) : M B :=
  match m with
  | (w, inl e) => (w, inl e)
  | (w, inr a) => let '(w', r) := k a in (w ++ w', r)
  end.

(** An operation that fails with [e] when the option is empty. *)
Definition orelse {A} (e : exn) (o : option A) : M A :=
  match o with
  | Some a => ret a
  | None => raise e
  end.

Definition warnings {A} (m : M A) : list string := fst m.
Definition outcome {A} (m : M A) : exn + A := snd m.

Definition raises {A} (m : M A) : Prop :=
  exists e, outcome m = inl e.

End Py.

Declare Scope py_scope.
Delimit Scope py_scope with py.
Notation "x <- m ;; k" := (Py.bind m (fun x => k))
  (at level 61, m at next level, right associativity) : py_scope.
Notation "' pat <- m ;; k" :=
  (Py.bind m (fun x => match x with pat => k end))
  (at level 61, pat pattern, m at next level, right associativity) : py_scope.
Notation "m ;;; k" := (Py.bind m (fun _ => k))
  (at level 61, right associativity) : py_scope.

(** ** Numbers and numpy arrays over [Q] *)
Module np.
Local Open Scope Q_scope.

(** [a < b] and [a <= b] on floats, as booleans. *)
Definition ltb (a b : Q) : bool := negb (Qle_bool b a).
Definition leb (a b : Q) : bool := Qle_bool a b.

(** Python's [int(x)] on a float: truncation towards zero. *)
Definition int (x : Q) : Z := Z.quot (Qnum x) (Zpos (Qden x)).

(** The integer part of the binary logarithm of a positive number. *)
Definition ilog2 (x : Q) : Z :=
  let d := (Z.log2 (Qnum x) - Z.log2 (Zpos (Qden x)))%Z in
  if Qle_bool (2 ^ d) x then d else (d - 1)%Z.

(** The nearest integer, a tie going to the even one. *)
Definition rne (t : Q) : Z :=
  let f := Qfloor t in
  match Qcompare (t - inject_Z f) (1 # 2) with
  | Lt => f
  | Gt => (f + 1)%Z
  | Eq => if Z.even f then f else (f + 1)%Z
  end.

(** The exponent of the last bit of the double nearest to a positive
    number: 52 below that of its leading bit, and not below the exponent
    of the subnormal numbers. *)
Definition fexp (x : Q) : Z := Z.max (ilog2 x - 52) (-1074).

(** The double nearest to [x] (IEEE 754 binary64, round to nearest, ties to
    even).  Overflow to an infinity is not represented; no product below
    reaches it. *)
Definition fl (x : Q) : Q :=
  if Qeq_bool x 0 then 0
  else
    let a := Qabs x in
    let e := fexp a in
    let m := inject_Z (rne (a / 2 ^ e)) * 2 ^ e in
    if Qle_bool 0 x then m else - m.

(** [a * b] on floats. *)
Definition mul (a b : Q) : Q := fl (a * b).

(** An [int] used in float arithmetic: the nearest double, the integer
    itself up to [2^53]. *)
Definition float (z : Z) : Q := fl (inject_Z z).

(** The numbers that are doubles. *)
Definition is_float (x : Q) : Prop := fl x == x.

(** [len(a)] *)
Definition len {A} (a : list A) : Z := Z.of_nat (List.length a).

(** [a[i]] for an integer [i]: negative indices count from the end,
    anything outside [-len(a) .. len(a)-1] raises [IndexError]. *)
Definition getitem {A} (a : list A) (i : Z) : option A :=
  if ((0 <=? i) && (i <? len a))%Z then nth_error a (Z.to_nat i)
  else if ((- len a <=? i) && (i <? 0))%Z then nth_error a (Z.to_nat (i + len a))
  else None.

(** The position a slice bound denotes: negative bounds count from the
    end, and the result is clipped to [0 .. len(a)]. *)
Definition clip {A} (a : list A) (i : Z) : nat :=
  let i' := if (i <? 0)%Z then (i + len a)%Z else i in
  Nat.min (Z.to_nat i') (List.length a).

(** [a[i:]] and [a[:j]] *)
Definition slice_from {A} (a : list A) (i : Z) : list A := skipn (clip a i) a.
Definition slice_to {A} (a : list A) (j : Z) : list A := firstn (clip a j) a.

(** Element-wise difference [a - b] of two arrays of the same length. *)
Fixpoint sub (a b : list Q) : list Q :=
  match a, b with
  | x :: a', y :: b' => (x - y) :: sub a' b'
  | _, _ => []
  end.

(** [a.argmin()]: the first position of the least element; an empty array
    has none ([ValueError] in numpy). *)
Fixpoint argmin_from (best : Q) (best_i i : nat) (a : list Q) : nat :=
  match a with
  | [] => best_i
  | x :: a' =>
      if ltb x best then argmin_from x i (S i) a'
      else argmin_from best best_i (S i) a'
  end.

Definition argmin (a : list Q) : option nat :=
  match a with
  | [] => None
  | x :: a' => Some (argmin_from x 0 1 a')
  end.

(** [numpy.sort] *)
Module QOrder <: Orders.TotalLeBool.
Definition t := Q.
Definition leb := Qle_bool.
Lemma leb_total : forall a b, leb a b = true \/ leb b a = true.
Proof.
  intros a b. unfold leb. rewrite !Qle_bool_iff.
  destruct (Qlt_le_dec a b) as [H | H]; [left; apply Qlt_le_weak, H | right; exact H].
Qed.
End QOrder.
Module QSort := Sort QOrder.
Definition sort (a : list Q) : list Q := QSort.sort a.

(** [numpy.linspace(start, stop, num)]: [num] evenly spaced points, the last
    one set to [stop] itself. *)
Definition linspace (start stop : Q) (num : nat) : list Q :=
  match num with
  | O => []
  | S O => [start]
  | S div =>
      let step := (stop - start) / inject_Z (Z.of_nat div) in
      map (fun i => inject_Z (Z.of_nat i) * step + start) (seq 0 div) ++ [stop]
  end.

(** Element-wise sum [a + b] of two arrays of the same length. *)
Fixpoint add (a b : list Q) : list Q :=
  match a, b with
  | x :: a', y :: b' => (x + y) :: add a' b'
  | _, _ => []
  end.

(** [c * a] and [a + c], [a - c] for a scalar [c]. *)
Definition scale (c : Q) (a : list Q) : list Q := map (Qmult c) a.
Definition shift (a : list Q) (c : Q) : list Q := map (fun x => x + c) a.

(** [numpy.searchsorted(a, v)] for a sorted array [a] (side ['left']): the
    first position [i] with [v <= a[i]], that is the number of elements
    below [v]. *)
Fixpoint searchsorted1 (a : list Q) (v : Q) : nat :=
  match a with
  | [] => O
  | x :: a' => if ltb x v then S (searchsorted1 a' v) else O
  end.

Definition searchsorted (a : list Q) (vs : list Q) : list nat :=
  map (searchsorted1 a) vs.

End np.

(** ** class dbl_interval_length *)
Module dbl_interval_length.
Local Open Scope Q_scope.
Local Open Scope py_scope.

Record t : Type := mk {
  sample : list Q;
  f : Q;
  N : Z;
  L : Z;
  space : Z;
  max_length : Q
}.

(** [__init__(self, sample, fraction)] *)
Definition init (sample0 : list Q) (fraction : Q) : Py.M t :=
  let s := np.sort sample0 in
  let n := np.len sample0 in
  let l := np.int (np.mul fraction (np.float n)) in
  hi <- Py.orelse Py.IndexError (np.getitem s (-1)) ;;
  lo <- Py.orelse Py.IndexError (np.getitem s 0) ;;
  Py.ret (mk s fraction n l (n - l)%Z (hi - lo)).

(** [get_bounds(self)] *)
Definition get_bounds (self : t) : list (Q * Q) :=
  [ (0, 1);
    (0, np.float (space self - 1));
    (0, np.float (space self - 1)) ].

(** [__call__(self, paras)] *)
Definition call (self : t) (paras : Q * Q * Q) : Py.M Q :=
  let '(f1, p1, p2) := paras in
  let start := np.int p1 in
  let gap := np.int p2 in
  if (start + gap >? space self - 1)%Z then Py.ret (max_length self)
  else
    let w1 := np.int (np.mul f1 (np.float (L self))) in
    let w2 := (L self - w1)%Z in
    let start_2 := (start + w1 + gap)%Z in
    a1 <- Py.orelse Py.IndexError (np.getitem (sample self) (start + w1)) ;;
    a0 <- Py.orelse Py.IndexError (np.getitem (sample self) start) ;;
    b1 <- Py.orelse Py.IndexError (np.getitem (sample self) (start_2 + w2)) ;;
    b0 <- Py.orelse Py.IndexError (np.getitem (sample self) start_2) ;;
    Py.ret ((a1 - a0) + (b1 - b0)).

(** [return_intervals(self, paras)] *)
Definition return_intervals (self : t) (paras : Q * Q * Q)
  : Py.M ((Q * Q) * (Q * Q)) :=
  let '(f1, p1, p2) := paras in
  let start := np.int p1 in
  let gap := np.int p2 in
  let w1 := np.int (np.mul f1 (np.float (L self))) in
  let w2 := (L self - w1)%Z in
  let start_2 := (start + w1 + gap)%Z in
  a0 <- Py.orelse Py.IndexError (np.getitem (sample self) start) ;;
  a1 <- Py.orelse Py.IndexError (np.getitem (sample self) (start + w1)) ;;
  b0 <- Py.orelse Py.IndexError (np.getitem (sample self) start_2) ;;
  b1 <- Py.orelse Py.IndexError (np.getitem (sample self) (start_2 + w2)) ;;
  Py.ret ((a0, a1), (b0, b1)).

End dbl_interval_length.

(** ** sample_hdi *)

(** What [sample_hdi] returns: one interval or a pair of intervals. *)
Inductive hdi : Type :=
| Single (r1 : Q * Q)
| Double (I1 I2 : Q * Q).

(** The global optimiser [scipy.optimize.differential_evolution] is outside
    the repository: it is a parameter, given the objective and the bounds and
    returning the optimiser's [x]. *)
Definition optimiser : Type :=
  (Q * Q * Q -> Py.M Q) -> list (Q * Q) -> Q * Q * Q.

Section SampleHdi.
Local Open Scope Q_scope.
Local Open Scope py_scope.

Variable differential_evolution : optimiser.

Definition msg_fraction : string :=
  "fraction parameter must be between 0 and 1"%string.
Definition msg_sample : string :=
  "The sample must have at least 2 elements"%string.
Definition msg_insufficient : string :=
  "The number of samples is insufficient to estimate the interval for the given fraction"%string.
Definition msg_inaccurate : string :=
  "len(sample)*(1 - fraction) is small - calculated interval may be inaccurate"%string.

(** Lines 660-663: the optimal single interval [(r1, w1)] of the sorted
    sample [s] for the window length [L]. *)
Definition single_interval (s : list Q) (n L : Z) : Py.M ((Q * Q) * Q) :=
  let widths := np.sub (np.slice_from s L) (np.slice_to s (n - L)) in
  i <- Py.orelse (Py.ValueError "attempt to get argmin of an empty sequence"%string)
         (np.argmin widths) ;;
  lo <- Py.orelse Py.IndexError (np.getitem s (Z.of_nat i)) ;;
  hi <- Py.orelse Py.IndexError (np.getitem s (Z.of_nat i + L)) ;;
  Py.ret ((lo, hi), hi - lo).

(** Lines 666-671: the best two-interval solution [(I1, I2)] and its total
    width [w2]. *)
Definition double_interval (sample : list Q) (fraction : Q)
  : Py.M ((Q * Q) * (Q * Q) * Q) :=
  minfunc <- dbl_interval_length.init sample fraction ;;
  let bounds := dbl_interval_length.get_bounds minfunc in
  let x := differential_evolution (dbl_interval_length.call minfunc) bounds in
  '(I1, I2) <- dbl_interval_length.return_intervals minfunc x ;;
  Py.ret (I1, I2, (snd I2 - fst I2) + (snd I1 - fst I1)).

Definition sample_hdi (sample : list Q) (fraction : Q) (force_single : bool)
  : Py.M hdi :=
  if negb (np.ltb 0 fraction && np.ltb fraction 1)
  then Py.raise (Py.ValueError msg_fraction)
  else if (np.len sample <? 2)%Z
  then Py.raise (Py.ValueError msg_sample)
  else
    let s := np.sort sample in
    let n := np.len s in
    let L := np.int (np.mul fraction (np.float n)) in
    if (n <=? L)%Z then
      Py.warn msg_insufficient ;;;
      lo <- Py.orelse Py.IndexError (np.getitem s 0) ;;
      hi <- Py.orelse Py.IndexError (np.getitem s (-1)) ;;
      Py.ret (Single (lo, hi))
    else
      (if (n - L <? 20)%Z then Py.warn msg_inaccurate else Py.ret tt) ;;;
      '(r1, w1) <- single_interval s n L ;;
      if force_single then Py.ret (Single r1)
      else
        '(I1, I2, w2) <- double_interval sample fraction ;;
        if np.ltb w2 (np.mul w1 (np.fl (99 # 100))) then Py.ret (Double I1 I2)
        else Py.ret (Single r1).

End SampleHdi.

(** ** Vocabulary of the specification of [sample_hdi] *)
Section HdiVocabulary.
Local Open Scope Q_scope.

(** An optimiser run that ended at the point [x]. *)
Definition answer (x : Q * Q * Q) : optimiser := fun _ _ => x.

(** The optimiser's answer is a point where the objective is not the
    penalty: [f1] in [[0, 1]], non-negative offsets, and
    [start + gap <= space - 1]. *)
Definition feasible (de : optimiser) (sample : list Q) (fraction : Q) : Prop :=
  match Py.outcome (dbl_interval_length.init sample fraction) with
  | inr minfunc =>
      let '(f1, p1, p2) :=
        de (dbl_interval_length.call minfunc)
           (dbl_interval_length.get_bounds minfunc) in
      0 <= f1 /\ f1 <= 1 /\ 0 <= p1 /\ 0 <= p2 /\
      (np.int p1 + np.int p2 <= dbl_interval_length.space minfunc - 1)%Z
  | inl _ => False
  end.

(** Inputs that pass the validation of [sample_hdi]: a float strictly
    between 0 and 1 and a sample of at least two elements. *)
Definition valid (sample : list Q) (fraction : Q) : Prop :=
  np.is_float fraction /\ 0 < fraction /\ fraction < 1 /\ (2 <= length sample)%nat.

(** [L = int(fraction * n)] *)
Definition window_length (sample : list Q) (fraction : Q) : Z :=
  np.int (np.mul fraction (np.float (np.len (np.sort sample)))).

(** The width of the window of [L+1] order statistics starting at [j]. *)
Definition window (s : list Q) (L j : nat) : Q := nth (j + L) s 0 - nth j s 0.

(** The number of sample points inside the closed interval [[lo, hi]]. *)
Definition inside (lo hi x : Q) : bool := np.leb lo x && np.leb x hi.

(** The number of sample points in the union of two closed intervals. *)
Definition count_in2 (I1 I2 : Q * Q) (l : list Q) : nat :=
  length (filter (fun x => inside (fst I1) (snd I1) x || inside (fst I2) (snd I2) x) l).

(** A point of the box [bounds], as the optimiser searches it. *)
Definition in_box (paras : Q * Q * Q) (bounds : list (Q * Q)) : Prop :=
  let '(f1, p1, p2) := paras in
  Forall2 (fun x b => fst b <= x /\ x <= snd b) [f1; p1; p2] bounds.

End HdiVocabulary.

(** ** class BinaryTree *)
Module BinaryTree.
Local Open Scope Q_scope.
Local Open Scope py_scope.

(** The tree is a nested Python list: a leaf is [[lo, hi, mid]], an inner
    node [[left, right, key]]. *)
#[warnings="-register-all"]
Inductive pyval : Type :=
| Num (x : Q)
| Lst (xs : list pyval).

(** [v[i]] for [i >= 0]. *)
Definition item (v : pyval) (i : nat) : Py.M pyval :=
  match v with
  | Lst xs => Py.orelse Py.IndexError (nth_error xs i)
  | Num _ => Py.raise Py.TypeError
  end.

(** A value used as a number. *)
Definition number (v : pyval) : Py.M Q :=
  match v with
  | Num x => Py.ret x
  | Lst _ => Py.raise Py.TypeError
  end.

Record t : Type := mk {
  n : Z;
  lims : Q * Q;
  midpoint : Q;
  mids : list Q;
  tree : pyval
}.

(** Line 597: [[ [L[i], L[i+1], 0.5*(L[i]+L[i+1])] for i in range(2**n) ]]
    for an array [L] of [2**n + 1] points. *)
Fixpoint leaves (L : list Q) : list pyval :=
  match L with
  | a :: (b :: _) as L' =>
      Lst [Num a; Num b; Num ((1 # 2) * (a + b))] :: leaves L'
  | _ => []
  end.

(** Lines 601-604: one round of pairwise merging,
    [[ [L[2*i], L[2*i+1], 0.5*(L[2*i][2] + L[2*i+1][2])]
       for i in range(len(L)//2) ]]. *)
Fixpoint merge (L : list pyval) : Py.M (list pyval) :=
  match L with
  | l :: r :: L' =>
      kl <- Py.bind (item l 2) number ;;
      kr <- Py.bind (item r 2) number ;;
      q <- merge L' ;;
      Py.ret (Lst [l; r; Num ((1 # 2) * (kl + kr))] :: q)
  | _ => Py.ret []
  end.

(** [for k in range(rounds): L = merged(L)] *)
Fixpoint merge_rounds (rounds : nat) (L : list pyval) : Py.M (list pyval) :=
  match rounds with
  | O => Py.ret L
  | S rounds' => q <- merge L ;; merge_rounds rounds' q
  end.

(** [__init__(self, layers, limits)].  A negative [layers] makes [2**layers]
    a float, which [linspace] refuses as a number of points. *)
Definition init (layers : Z) (limits : Q * Q) : Py.M t :=
  let midpoint := (1 # 2) * (fst limits + snd limits) in
  if (layers <? 0)%Z then Py.raise Py.TypeError
  else
    let L := np.linspace (fst limits) (snd limits) (2 ^ Z.to_nat layers + 1) in
    let mids := np.scale (1 # 2) (np.add (np.slice_from L 1) (np.slice_to L (-1))) in
    L <- merge_rounds (Z.to_nat (layers - 1)) (leaves L) ;;
    Py.ret (mk layers limits midpoint mids (Lst (L ++ [Num midpoint]))).

(** One step of the descent: [D = D[val > D[2]]]. *)
Definition step (val : Q) (D : pyval) : Py.M pyval :=
  key <- Py.bind (item D 2) number ;;
  item D (if np.ltb key val then 1 else 0).

Fixpoint descend (steps : nat) (val : Q) (D : pyval) : Py.M pyval :=
  match steps with
  | O => Py.ret D
  | S steps' => D' <- step val D ;; descend steps' val D'
  end.

(** [lookup(self, val)] *)
Definition lookup (self : t) (val : Q) : Py.M pyval :=
  descend (Z.to_nat (n self)) val (tree self).

End BinaryTree.

(** ** Vocabulary of the specification of [BinaryTree] *)
Section ScanVocabulary.
Import BinaryTree.
Local Open Scope Q_scope.

(** [i] as a float. *)
Definition qnat (i : nat) : Q := inject_Z (Z.of_nat i).

(** The brute-force search: the buckets in order, and the first one whose
    closed interval holds [x]. *)
Definition buckets (layers : Z) (lo hi : Q) : list pyval :=
  leaves (np.linspace lo hi (2 ^ Z.to_nat layers + 1)).

Definition contains (x : Q) (bucket : pyval) : bool :=
  match bucket with
  | Lst [Num a; Num b; _] => np.leb a x && np.leb x b
  | _ => false
  end.

Definition linear_scan (bs : list pyval) (x : Q) : option pyval :=
  find (contains x) bs.

End ScanVocabulary.

(** ** class GaussianKDE: the partition of the axis and the slice map

    The bandwidth [h] is the argument [bandwidth], or the estimate computed
    from the sample when none is given; it enters the partition only as a
    number.  The mode, found by an external scalar minimiser, is not part of
    this record. *)
Module GaussianKDE.
Local Open Scope Q_scope.
Local Open Scope py_scope.

(** A Python [slice(l, u)]. *)
Definition slice : Type := (nat * nat)%type.

(** A [dict] with float keys, in insertion order; of two bindings of one
    key the later one counts. *)
Definition dict : Type := list (Q * slice).

Fixpoint dict_get (d : dict) (k : Q) : option slice :=
  match d with
  | [] => None
  | (k', v) :: d' =>
      match dict_get d' k with
      | Some v' => Some v'
      | None => if Qeq_bool k' k then Some v else None
      end
  end.

(** [dict(zip(keys, values))] *)
Definition dict_zip (keys : list Q) (values : list slice) : dict :=
  combine keys values.

Record t : Type := mk {
  s : list Q;
  h : Q;
  cutoff : Q;
  lwr_limit : Q;
  upr_limit : Q;
  slice_map : dict;
  tree : BinaryTree.t
}.

(** [int(log(x) / log(2))]: for [x > 0] the base-2 logarithm truncated
    towards zero.  The logarithm of a negative number is NaN and [log(0)] is
    minus infinity; [int] raises on both. *)
Definition int_log2 (x : Q) : Py.M Z :=
  if np.ltb x 0 then
    Py.raise (Py.ValueError "cannot convert float NaN to integer"%string)
  else if np.leb x 0 then Py.raise Py.OverflowError
  else if np.leb 1 x then Py.ret (Z.log2 (Qfloor x))
  else Py.ret (- Z.log2 (Qfloor (/ x)))%Z.

(** Lines 370-404 of [__init__], for the bandwidth [h]. *)
Definition init (sample : list Q) (bandwidth : Q) : Py.M t :=
  let s := np.sort sample in
  let h := bandwidth in
  let cutoff := h * 4 in
  s0 <- Py.orelse Py.IndexError (np.getitem s 0) ;;
  s1 <- Py.orelse Py.IndexError (np.getitem s (-1)) ;;
  let lwr_limit := s0 - cutoff * (1 # 2) in
  let upr_limit := s1 + cutoff * (1 # 2) in
  l <- int_log2 ((s1 - s0) / h) ;;
  let n := (l + 1)%Z in
  if (n <? 0)%Z then Py.raise Py.TypeError
  else
    let mids := np.linspace s0 s1 (2 ^ Z.to_nat n + 1) in
    let mids := np.scale (1 # 2) (np.add (np.slice_from mids 1) (np.slice_to mids (-1))) in
    let lwr_inds := np.searchsorted s (np.shift mids (- cutoff)) in
    let upr_inds := np.searchsorted s (np.shift mids cutoff) in
    let slices := combine lwr_inds upr_inds in
    let slice_map := dict_zip mids slices in
    tree <- BinaryTree.init n (s0, s1) ;;
    Py.ret (mk s h cutoff lwr_limit upr_limit slice_map tree).

(** Lines 422-427 of [density]: the region of [x], its slice, and the
    samples [self.s[slc]] that enter the kernel sum. *)
Definition region_slice (self : t) (x : Q) : Py.M slice :=
  region <- BinaryTree.lookup (tree self) x ;;
  key <- Py.bind (BinaryTree.item region 2) BinaryTree.number ;;
  Py.orelse Py.KeyError (dict_get (slice_map self) key).

Definition density_samples (self : t) (x : Q) : Py.M (list Q) :=
  slc <- region_slice self x ;;
  Py.ret (firstn (snd slc - fst slc) (skipn (fst slc) (s self))).

(** [interval(self, frac)] *)
Definition interval (differential_evolution : optimiser) (self : t) (frac : Q)
  : Py.M hdi :=
  sample_hdi differential_evolution (s self) frac false.

(** Line 516 of [locate_mode]: the 10% interval whose bounds bracket the
    search for the mode; the literal [0.1] is the nearest double. *)
Definition locate_mode_bounds (differential_evolution : optimiser) (self : t)
  : Py.M hdi :=
  sample_hdi differential_evolution (s self) (np.fl (1 # 10)) true.

End GaussianKDE.

(** ** Numbers and numpy arrays over [R] *)
Module npr.
Local Open Scope R_scope.

(** [a < b] on floats, as a boolean. *)
Definition ltb (a b : R) : bool := if Rlt_dec a b then true else false.

(** [a.sum()], [mean(a)], [std(a)] *)
Definition sum (a : list R) : R := fold_right Rplus 0 a.
Definition mean (a : list R) : R := sum a / INR (length a).
Definition std (a : list R) : R :=
  sqrt (mean (map (fun x => Rabs (x - mean a) ^ 2) a)).

(** Element-wise application of a binary operation to two arrays. *)
Fixpoint zip_with (f : R -> R -> R) (a b : list R) : list R :=
  match a, b with
  | x :: a', y :: b' => f x y :: zip_with f a' b'
  | _, _ => []
  end.

(** [numpy.logaddexp(a, b) = log(exp(a) + exp(b))] *)
Definition logaddexp (a b : R) : R := ln (exp a + exp b).

(** [functools.reduce(f, seq)]: a left fold started at the first element;
    [TypeError] on an empty sequence. *)
Definition reduce {A} (f : A -> A -> A) (seq : list A) : Py.M A :=
  match seq with
  | [] => Py.raise Py.TypeError
  | x :: seq' => Py.ret (fold_left f seq' x)
  end.

(** [b ** e] for [b >= 0]: [0 ** e] is 0 for a positive exponent and 1 for
    the exponent 0 (for a negative one it is infinite, which the model does
    not represent). *)
Definition power (b e : R) : R :=
  if Req_dec_T b 0 then (if Rlt_dec 0 e then 0 else 1) else Rpower b e.

(** [argmax(a)]: the first position of the greatest element. *)
Fixpoint argmax_from (best : R) (best_i i : nat) (a : list R) : nat :=
  match a with
  | [] => best_i
  | x :: a' =>
      if ltb best x then argmax_from x i (S i) a'
      else argmax_from best best_i (S i) a'
  end.

Definition argmax (a : list R) : Py.M nat :=
  match a with
  | [] => Py.raise (Py.ValueError "attempt to get argmax of an empty sequence"%string)
  | x :: a' => Py.ret (argmax_from x 0 1 a')
  end.

(** [l.insert(i, x)] for [i >= 0] *)
Definition insert {A} (i : nat) (x : A) (l : list A) : list A :=
  firstn i l ++ x :: skipn i l.

(** [numpy.linspace(start, stop, num)] *)
Definition linspace (start stop : R) (num : nat) : list R :=
  match num with
  | O => []
  | S O => [start]
  | S div =>
      let step := (stop - start) / INR div in
      map (fun i => INR i * step + start) (seq 0 div) ++ [stop]
  end.

End npr.

(** ** class DensityEstimator: binary_search *)
Module DensityEstimator.
Local Open Scope R_scope.

(** The variables of the loop: [(x_min, x_max, x)]. *)
Definition state : Type := (R * R * R)%type.

(** Lines 170-182: one pass of the loop body. *)
Definition pass (func : R -> R) (value : R) (uphill : bool) (st : state) : state :=
  let '(x_min, x_max, x) := st in
  let f := func x in
  let '(x_min, x_max) :=
    if npr.ltb value f then
      (if uphill then (x_min, x) else (x, x_max))
    else
      (if uphill then (x, x_max) else (x_min, x)) in
  (x_min, x_max, (x_min + x_max) * 0.5).

(** Line 183: [abs((x_max - x_min)/x) < 1e-3].  With [x = 0] the quotient
    of numpy floats is infinite or NaN, and the test fails. *)
Definition converged (st : state) : bool :=
  let '(x_min, x_max, x) := st in
  if Req_dec_T x 0 then false
  else npr.ltb (Rabs ((x_max - x_min) / x)) 1e-3.

(** The [while not converged] loop, run for at most [fuel] passes: [None]
    when the loop is still running after them. *)
Fixpoint loop (fuel : nat) (func : R -> R) (value : R) (uphill : bool)
  (st : state) : option state :=
  match fuel with
  | O => None
  | S fuel' =>
      let st' := pass func value uphill st in
      if converged st' then Some st' else loop fuel' func value uphill st'
  end.

(** What a float computation yields: a number, or none.  A division by
    zero raises [ZeroDivisionError] on Python numbers and gives an infinity
    or NaN on numpy numbers; in both cases no number comes out. *)
Definition number : Type := option R.

(** Lines 186-191: the linear interpolation after the loop.  It divides by
    [df = f_max - f_min], which is zero when the function takes the same
    value at both ends of the bracket. *)
Definition polish (func : R -> R) (value : R) (st : state) : number :=
  let '(x_min, x_max, _) := st in
  let f_max := func x_max in
  let f_min := func x_min in
  let df := f_max - f_min in
  if Req_dec_T df 0 then None
  else Some (x_min * ((f_max - value) / df) + x_max * ((value - f_min) / df)).

(** [binary_search(func, value, bounds, uphill)]: [None] while the loop is
    running, and then what the polish step yields. *)
Definition binary_search (fuel : nat) (func : R -> R) (value : R)
  (bounds : R * R) (uphill : bool) : option number :=
  let '(x_min, x_max) := bounds in
  let x := (x_min + x_max) * 0.5 in
  match loop fuel func value uphill (x_min, x_max, x) with
  | None => None
  | Some st => Some (polish func value st)
  end.

(** [get_interval(self, z)] for the estimate [call = self.__call__] and the
    attributes [lwr_limit], [mode], [upr_limit].  The estimate returns
    numpy numbers, so that the second search runs whatever the first one
    yields. *)
Definition get_interval (fuel : nat) (call : R -> R) (lwr_limit mode upr_limit : R)
  (z : R) : option (number * number) :=
  match binary_search fuel call z (lwr_limit, mode) true with
  | None => None
  | Some lwr =>
      match binary_search fuel call z (mode, upr_limit) false with
      | None => None
      | Some upr => Some (lwr, upr)
      end
  end.

(** Lines 33-34 of [interval(self, frac)]: the search for the density level
    [p_conf] at which [interval_prob] equals [frac]. *)
Definition interval_level (fuel : nat) (interval_prob call : R -> R) (mode : R)
  (frac : R) : option number :=
  let p_max := call mode in
  binary_search fuel interval_prob frac (0, p_max) false.

End DensityEstimator.

(** ** class UnimodalPdf: the log-posterior *)
Module UnimodalPdf.
Local Open Scope R_scope.

(** The parameter vector [(x0, s0, v, f, k, q)]. *)
Definition paras : Type := (R * R * R * R * R * R)%type.

(** The attributes the posterior reads: the sample [x] in use, and the
    Chebyshev nodes [u] and weights [w] with their scale [sd]. *)
Record t : Type := mk {
  x : list R;
  sd : R;
  n_nodes : nat;
  u : list R;
  w : list R
}.

(** [self.n = len(self.x)] *)
Definition n (self : t) : R := INR (length (x self)).

(** Lines 213-218 of [__init__]: the quadrature nodes and weights. *)
Definition nodes (n_nodes : nat) : list R :=
  map (fun k => cos (0.5 * PI * ((2 * INR k - 1) / INR n_nodes))) (seq 1 n_nodes).

Definition chebyshev (sample : list R) : t :=
  let sd := 0.2 in
  let n_nodes := 128%nat in
  let t := nodes n_nodes in
  mk sample sd n_nodes
     (map (fun t => t / (1 - t ^ 2)) t)
     (map (fun t => (PI / INR n_nodes) * (1 + t ^ 2)
                    / (sd * npr.power (1 - t ^ 2) 1.5)) t).

(** [log_pdf_model(self, x, pvec)] at one point [x].  The quotients by
    [s0] and by [k] are those of the real numbers; where the program would
    compute [0/0] ([s0 = 0], or [k = 0] at [x = x0]) the model has no
    counterpart, and the theorems on the values of the model assume
    [s0 > 0] or the prior constraints. *)
Definition log_pdf_model (x : R) (pvec : paras) : R :=
  let '(x0, s0, v, f, k, q) := pvec in
  let v := exp v + 1 in
  let z0 := (x - x0) / s0 in
  let ds := exp (f * tanh (z0 / k)) in
  let z := z0 / ds in
  - (0.5 * (1 + v)) * ln (1 + npr.power (Rabs z) q / v).

(** [pdf_model(self, x, pvec)] *)
Definition pdf_model (x : R) (pvec : paras) : R := exp (log_pdf_model x pvec).

(** [norm(self, pvec)] *)
Definition norm (self : t) (pvec : paras) : R :=
  let '(x0, s0, v, f, k, q) := pvec in
  let vals := map (fun ui => pdf_model ui (0, sd self, v, f, k, q)) (u self) in
  npr.sum (npr.zip_with Rmult (w self) vals) * s0.

(** [posterior(self, paras)] *)
Definition posterior (self : t) (pvec : paras) : R :=
  let '(x0, s0, v, f, k, q) := pvec in
  if npr.ltb 0 s0 && (npr.ltb 0 k && npr.ltb k 20) && (npr.ltb 1 q && npr.ltb q 6)
  then npr.sum (map (fun xi => log_pdf_model xi pvec) (x self))
       - n self * ln (norm self pvec)
  else - 1e50.

(** [minfunc(self, paras)] *)
Definition minfunc (self : t) (pvec : paras) : R := - posterior self pvec.

(** [a[::k]] for a step [k >= 1]; [c] elements are passed over before the
    next one is taken. *)
Fixpoint stride_from {A} (k c : nat) (a : list A) : list A :=
  match a with
  | [] => []
  | x :: a' =>
      match c with
      | O => x :: stride_from k (k - 1) a'
      | S c' => stride_from k c' a'
      end
  end.

Definition stride {A} (k : nat) (a : list A) : list A := stride_from k 0 a.

(** Lines 222-228 of [__init__]: the step [self.skip] and the reduced sample
    [self.x = self.sample[::self.skip]] of the first fit. *)
Definition cutoff : nat := 2000.

Definition skip (sample : list R) : nat :=
  let skip := (length sample / cutoff)%nat in
  if (skip =? 0)%nat then 1%nat else skip.

Definition reduced (sample : list R) : list R := stride (skip sample) sample.

(** [sample_moments(self)], over the real numbers: [mean(x^2) - mu^2] is
    the variance itself, without the rounding residue of the doubles. *)
Definition sample_moments (self : t) : R * R * R :=
  let mu := npr.mean (x self) in
  let x2 := map (fun xi => xi ^ 2) (x self) in
  let x3 := npr.zip_with Rmult x2 (x self) in
  let sig := sqrt (npr.mean x2 - mu ^ 2) in
  let skew := (npr.mean x3 - 3 * mu * sig ^ 2 - mu ^ 3) / sig ^ 3 in
  (mu, sig, skew).

(** [itertools.product] of six lists: the tuples in lexicographic order, the
    last component running fastest. *)
Definition product (x0 s0 v f k q : list R) : list paras :=
  flat_map (fun a =>
  flat_map (fun b =>
  flat_map (fun c =>
  flat_map (fun d =>
  flat_map (fun e =>
  map (fun g => (a, b, c, d, e, g)) q) k) f) v) s0) x0.

(** [generate_guesses(self)] *)
Definition generate_guesses (self : t) : list paras :=
  let '(mu, sigma, skew) := sample_moments self in
  let x0 := [mu; mu - sigma * skew * 0.15; mu - sigma * skew * 0.3] in
  let v := [0; 5] in
  let s0 := [sigma; sigma * 2] in
  let f := [0.5 * skew; skew] in
  let k := [1; 4; 8] in
  let q := [2] in
  product x0 s0 v f k q.

(** [__call__(self, x)] at one point, for the fitted parameters [MAP]
    (the result of an external minimiser) and
    [self.map_lognorm = log(self.norm(self.MAP))]. *)
Definition call (self : t) (MAP : paras) (x : R) : R :=
  exp (log_pdf_model x MAP - ln (norm self MAP)).

(** Lines 253-255 of [__init__]: [(self.lwr_limit, self.upr_limit)]. *)
Definition limits (MAP : paras) : R * R :=
  let '(x0, s0, v, f, k, q) := MAP in
  (x0 - s0 * (4 * exp (- f) + 1), x0 + s0 * (4 * exp f + 1)).

(** [moments(self)].  The quadrature [scipy.integrate.simps(y, x=x)] is
    outside the repository and a parameter. *)
Definition moments (simps : list R -> list R -> R) (self : t) (MAP : paras)
  : R * R * R * R :=
  let '(mode, s, _, f, _, _) := MAP in
  let lwr := mode - 5 * Rmax (exp (- f)) 1 * s in
  let upr := mode + 5 * Rmax (exp f) 1 * s in
  let x := npr.linspace lwr upr 1000 in
  let p := map (call self MAP) x in
  let mu := simps (npr.zip_with Rmult p x) x in
  let var := simps (npr.zip_with Rmult p (map (fun xi => (xi - mu) ^ 2) x)) x in
  let skw := simps (npr.zip_with Rmult p (map (fun xi => (xi - mu) ^ 3) x)) x
             / var * 1.5 in
  let kur := simps (npr.zip_with Rmult p (map (fun xi => (xi - mu) ^ 4) x)) x
             / var ^ 2 - 3 in
  (mu, var, skw, kur).

End UnimodalPdf.

(** ** class GaussianKDE: bandwidth selection *)
Module Bandwidth.
Local Open Scope R_scope.
Local Open Scope py_scope.

(** [simple_bandwidth_estimator(self)] *)
Definition simple_bandwidth_estimator (s : list R) : R :=
  1.06 * npr.std s / npr.power (INR (length s)) 0.2.

(** [log_kernel(x, c, h)] at one point [x] *)
Definition log_kernel (x c h : R) : R :=
  let z := (x - c) / h in
  - 0.5 * z ^ 2 - ln h.

(** [log_evaluation(self, points, samples, width)] *)
Definition log_evaluation (points samples : list R) (width : R) : Py.M (list R) :=
  let generator :=
    map (fun s => map (fun x => log_kernel x s width) points) samples in
  r <- npr.reduce (npr.zip_with npr.logaddexp) generator ;;
  Py.ret (map (fun a => a - ln (INR (length samples) * sqrt (2 * PI))) r).

(** [cross_validation_logprob(self, samples, width, c = 0.99)] *)
Definition cross_validation_logprob (samples : list R) (width c : R) : Py.M R :=
  log_pdf <- log_evaluation samples samples width ;;
  let d := map (fun lp => ln c - ln (width * INR (length samples) * sqrt (2 * PI)) - lp)
               log_pdf in
  let loo_adjustment := map (fun di => ln (1 - exp di)) d in
  let log_probs := npr.zip_with Rplus log_pdf loo_adjustment in
  Py.ret (npr.sum log_probs).

(** The grid of the search: the parallel lists [log_h] and [log_p]. *)
Definition grid : Type := (list R * list R)%type.

Definition dh : R := 0.5.

Section CrossValidation.

(** The samples the scores are computed from (the sorted sample, or a
    random sub-sample of [max_cv_samples] elements of it). *)
Variable samples : list R.

Definition score (h : R) : Py.M R := cross_validation_logprob samples (exp h) 0.99.

(** Lines 446-448: the initial grid. *)
Definition initial_log_h (initial_h : R) : list R :=
  map (fun m => initial_h + IZR m * dh) [-2; -1; 0; 1; 2]%Z.

Fixpoint scores (log_h : list R) : Py.M (list R) :=
  match log_h with
  | [] => Py.ret []
  | h :: log_h' => p <- score h ;; ps <- scores log_h' ;; Py.ret (p :: ps)
  end.

(** Lines 452-468: the loop [for i in range(5)] that extends the grid while
    the maximum is at an edge. *)
Fixpoint extend (passes : nat) (g : grid) : Py.M grid :=
  match passes with
  | O => Py.ret g
  | S passes' =>
      let '(log_h, log_p) := g in
      max_ind <- npr.argmax log_p ;;
      if ((0 <? max_ind) && (max_ind <? length log_h - 1))%nat then Py.ret g
      else if (max_ind =? 0)%nat then
        h0 <- Py.orelse Py.IndexError (np.getitem log_h 0) ;;
        let new_h := h0 - dh in
        new_lp <- score new_h ;;
        extend passes' (npr.insert 0 new_h log_h, npr.insert 0 new_lp log_p)
      else
        h1 <- Py.orelse Py.IndexError (np.getitem log_h (-1)) ;;
        let new_h := h1 + dh in
        new_lp <- score new_h ;;
        extend passes' (log_h ++ [new_h], log_p ++ [new_lp])
  end.

(** Lines 473-485: the loop [for refine in range(6)]. *)
Fixpoint refine (passes : nat) (g : grid) : Py.M grid :=
  match passes with
  | O => Py.ret g
  | S passes' =>
      let '(log_h, log_p) := g in
      max_ind <- npr.argmax log_p ;;
      let i := Z.of_nat max_ind in
      hl <- Py.orelse Py.IndexError (np.getitem log_h (i - 1)) ;;
      hm <- Py.orelse Py.IndexError (np.getitem log_h i) ;;
      let lwr_h := 0.5 * (hl + hm) in
      hu <- Py.orelse Py.IndexError (np.getitem log_h (i + 1)) ;;
      let upr_h := 0.5 * (hm + hu) in
      lwr_lp <- score lwr_h ;;
      upr_lp <- score upr_h ;;
      let log_h := npr.insert max_ind lwr_h log_h in
      let log_p := npr.insert max_ind lwr_lp log_p in
      let log_h := npr.insert (max_ind + 2) upr_h log_h in
      let log_p := npr.insert (max_ind + 2) upr_lp log_p in
      refine passes' (log_h, log_p)
  end.

(** [cross_validation_bandwidth_estimator(self, initial_h)], after the
    choice of [samples]. *)
Definition cross_validation_bandwidth_estimator (initial_h : R) : Py.M R :=
  let log_h := initial_log_h initial_h in
  log_p <- scores log_h ;;
  g <- extend 5 (log_h, log_p) ;;
  '(log_h, log_p) <- refine 6 g ;;
  i <- npr.argmax log_p ;;
  h <- Py.orelse Py.IndexError (np.getitem log_h (Z.of_nat i)) ;;
  Py.ret (exp h).

End CrossValidation.

(** Lines 439-443: the samples used for cross-validation.  [scramble] is
    the random order [self.s[argsort(random(size=len(self.s)))]]. *)
Definition cv_samples (scramble : list R -> list R) (s : list R) (max_cvs : nat)
  : list R :=
  if (max_cvs <? length s)%nat then firstn max_cvs (scramble s) else s.

End Bandwidth.

(** ** class GaussianKDE: the density estimate

    The partition and the slice map are computed on the samples as they are;
    the kernel sum needs [exp] and is taken over the real numbers. *)
Module Estimate.
Local Open Scope R_scope.
Local Open Scope py_scope.

(** Lines 381 and 383 of [__init__]: [self.norm] and [self.q]. *)
Definition norm (self : GaussianKDE.t) : R :=
  1 / (INR (length (GaussianKDE.s self)) * sqrt (2 * PI) * Q2R (GaussianKDE.h self)).

Definition q (self : GaussianKDE.t) : R := 1 / (sqrt 2 * Q2R (GaussianKDE.h self)).

(** [density(self, x)] *)
Definition density (self : GaussianKDE.t) (x : Q) : Py.M R :=
  samples <- GaussianKDE.density_samples self x ;;
  Py.ret (norm self
          * npr.sum (map (fun si => exp (- ((Q2R x - Q2R si) * q self) ^ 2)) samples)).

(** [__call__(self, x_vals)] on a list of positions. *)
Fixpoint call (self : GaussianKDE.t) (x_vals : list Q) : Py.M (list R) :=
  match x_vals with
  | [] => Py.ret []
  | x :: x_vals' =>
      d <- density self x ;; ds <- call self x_vals' ;; Py.ret (d :: ds)
  end.

End Estimate.

(** ** class KDE2D *)
Module KDE2D.
Local Open Scope R_scope.
Local Open Scope py_scope.

(** [numpy.cov(x, y)] of two one-dimensional arrays: the 2x2 matrix of the
    covariances, normalised by [N - 1]; arrays of different lengths cannot
    be stacked. *)
Definition cov (x y : list R) : Py.M ((R * R) * (R * R)) :=
  if negb (length x =? length y)%nat then
    Py.raise (Py.ValueError "all the input array dimensions must match exactly"%string)
  else
    let fact := INR (length x) - 1 in
    let dx := map (fun v => v - npr.mean x) x in
    let dy := map (fun v => v - npr.mean y) y in
    let dot a b := npr.sum (npr.zip_with Rmult a b) in
    Py.ret ((dot dx dx / fact, dot dx dy / fact),
            (dot dy dx / fact, dot dy dy / fact)).

(** [estimate_bandwidth(self, x, y)], over the real numbers: [1 - p^2] is
    without the rounding residue of the doubles. *)
Definition estimate_bandwidth (x y : list R) : Py.M (R * R) :=
  S <- cov x y ;;
  let '((S00, S01), (_, S11)) := S in
  let p := S01 / sqrt (S00 * S11) in
  let width d := 1.06 * sqrt (d * (1 - p ^ 2)) / npr.power (INR (length x)) 0.2 in
  Py.ret (width S00, width S11).

Record t : Type := mk {
  x : list R;
  y : list R;
  q_x : R;
  q_y : R;
  norm : R
}.

(** [__init__(self, x, y)] *)
Definition init (x y : list R) : Py.M t :=
  '(s_x, s_y) <- estimate_bandwidth x y ;;
  Py.ret (mk x y
             (1 / (sqrt 2 * s_x))
             (1 / (sqrt 2 * s_y))
             (1 / (INR (length x) * sqrt (2 * PI) * s_x * s_y))).

(** [density(self, x, y)] *)
Definition density (self : t) (x0 y0 : R) : R :=
  let z_x := map (fun xi => ((xi - x0) * q_x self) ^ 2) (x self) in
  let z_y := map (fun yi => ((yi - y0) * q_y self) ^ 2) (y self) in
  npr.sum (npr.zip_with (fun a b => exp (- a - b)) z_x z_y) * norm self.

(** [__call__(self, x_vals, y_vals)] on two lists of positions. *)
Definition call (self : t) (x_vals y_vals : list R) : list R :=
  map (fun xy => density self (fst xy) (snd xy)) (combine x_vals y_vals).

End KDE2D.

(** ** Vocabulary of the specification of the analytic layer *)
Section RealVocabulary.
Local Open Scope R_scope.

(** The Gaussian kernel of the specification, [exp(-((a-b)/(sqrt(2) h))^2)]. *)
Definition kernel (h a b : R) : R := exp (- ((a - b) / (sqrt 2 * h)) ^ 2).

(** The list without its [i]-th element. *)
Definition others {A} (i : nat) (l : list A) : list A := firstn i l ++ skipn (S i) l.

(** The leave-one-out objective of the specification. *)
Definition loo_objective (s : list R) (h : R) : R :=
  npr.sum (map (fun i =>
    ln (1 / (INR (length s - 1) * sqrt (2 * PI) * h)
        * npr.sum (map (kernel h (nth i s 0)) (others i s))))
    (seq 0 (length s))).

(** The objective the program computes. *)
Definition cv_objective (s : list R) (h c : R) : R :=
  npr.sum (map (fun i =>
    ln (1 / (INR (length s) * sqrt (2 * PI) * h)
        * ((1 - c) + npr.sum (map (kernel h (nth i s 0)) (others i s)))))
    (seq 0 (length s))).

(** The prior constraints of [posterior]. *)
Definition constraints (pvec : UnimodalPdf.paras) : Prop :=
  let '(x0, s0, v, f, k, q) := pvec in
  0 < s0 /\ (0 < k /\ k < 20) /\ (1 < q /\ q < 6).

(** The normal density with mean [m] and standard deviation [s]. *)
Definition gauss (m s t : R) : R :=
  / (sqrt (2 * PI) * s) * exp (- ((t - m) ^ 2 / (2 * s ^ 2))).

(** The sum of the products of two arrays. *)
Definition dot (a b : list R) : R := npr.sum (npr.zip_with Rmult a b).

(** The deviations of an array from its mean. *)
Definition dev (l : list R) : list R := map (fun v => v - npr.mean l) l.

End RealVocabulary.

(* ================================================================== *)
(** * Part II: sample_hdi                                              *)
(* ================================================================== *)

Section NumpyFacts.
Local Open Scope Q_scope.

Lemma ltb_lt a b : np.ltb a b = true <-> a < b.
Proof.
  unfold np.ltb. rewrite negb_true_iff, <- not_true_iff_false, Qle_bool_iff.
  split; intros H; [apply Qnot_le_lt, H | apply Qlt_not_le, H].
Qed.

Lemma ltb_ge a b : np.ltb a b = false <-> b <= a.
Proof.
  unfold np.ltb. rewrite negb_false_iff. apply Qle_bool_iff.
Qed.

Lemma leb_le a b : np.leb a b = true <-> a <= b.
Proof. apply Qle_bool_iff. Qed.

Lemma int_floor x : 0 <= x -> np.int x = Qfloor x.
Proof.
  destruct x as [p q]. unfold np.int, Qfloor, Qle. simpl. intros H.
  apply Z.quot_div_nonneg; lia.
Qed.

(** ** The rounding of doubles *)

Lemma pow2_pos e : 0 < 2 ^ e.
Proof. apply Qpower_0_lt. reflexivity. Qed.

Lemma pow2_plus a b : 2 ^ (a + b) == 2 ^ a * 2 ^ b.
Proof. apply Qpower_plus. discriminate. Qed.

Lemma pow2_succ a : 2 ^ (a + 1) == 2 * 2 ^ a.
Proof. rewrite pow2_plus. change (2 ^ 1) with 2. ring. Qed.

Lemma pow2_le a b : (a <= b)%Z -> 2 ^ a <= 2 ^ b.
Proof. intros H. apply Qpower_le_compat_l; [exact H | discriminate]. Qed.

Lemma pow2_lt a b : (a < b)%Z -> 2 ^ a < 2 ^ b.
Proof. intros H. apply Qpower_lt_compat_l; [exact H | reflexivity]. Qed.

Lemma pow2_Z a : (0 <= a)%Z -> inject_Z (2 ^ a) == 2 ^ a.
Proof. intros H. apply (Zpower_Qpower 2 a H). Qed.

(** [np.ilog2 x] is the integer part of the binary logarithm. *)
Lemma ilog2_spec x : 0 < x -> 2 ^ np.ilog2 x <= x /\ x < 2 ^ (np.ilog2 x + 1).
Proof.
  intros Hx. destruct x as [p q]. unfold np.ilog2. cbn [Qnum Qden].
  assert (Hp : (0 < p)%Z) by (unfold Qlt in Hx; simpl in Hx; lia).
  set (a := Z.log2 p). set (b := Z.log2 (Z.pos q)).
  destruct (Z.log2_spec p Hp) as [Ha1 Ha2]. fold a in Ha1, Ha2.
  destruct (Z.log2_spec (Z.pos q) eq_refl) as [Hb1 Hb2]. fold b in Hb1, Hb2.
  assert (Ha0 : (0 <= a)%Z) by apply Z.log2_nonneg.
  assert (Hb0 : (0 <= b)%Z) by apply Z.log2_nonneg.
  set (x := p # q) in *.
  assert (Ex : x * inject_Z (Z.pos q) == inject_Z p).
  { unfold x, Qeq, Qmult, inject_Z. simpl. lia. }
  assert (A1 : 2 ^ a <= inject_Z p)
    by (rewrite <- (pow2_Z Ha0), <- Zle_Qle; exact Ha1).
  assert (A2 : inject_Z p < 2 * 2 ^ a).
  { rewrite <- pow2_succ, <- pow2_Z by lia. rewrite <- Zlt_Qlt.
    replace (a + 1)%Z with (Z.succ a) by lia. exact Ha2. }
  assert (B1 : 2 ^ b <= inject_Z (Z.pos q))
    by (rewrite <- (pow2_Z Hb0), <- Zle_Qle; exact Hb1).
  assert (B2 : inject_Z (Z.pos q) < 2 * 2 ^ b).
  { rewrite <- pow2_succ, <- pow2_Z by lia. rewrite <- Zlt_Qlt.
    replace (b + 1)%Z with (Z.succ b) by lia. exact Hb2. }
  assert (D : 2 ^ (a - b) * 2 ^ b == 2 ^ a).
  { rewrite <- pow2_plus. replace (a - b + b)%Z with a by lia. reflexivity. }
  pose proof (pow2_pos a) as PA. pose proof (pow2_pos b) as PB.
  pose proof (pow2_pos (a - b)) as PD.
  set (P := inject_Z p) in *. set (Qq := inject_Z (Z.pos q)) in *.
  set (A := 2 ^ a) in *. set (B := 2 ^ b) in *.
  destruct (Qle_bool (2 ^ (a - b)) x) eqn:E.
  - apply Qle_bool_iff in E. split; [exact E |].
    rewrite pow2_succ. set (Dd := 2 ^ (a - b)) in *.
    apply Qmult_lt_r with B; [exact PB |]. nra.
  - assert (E' : x < 2 ^ (a - b)).
    { apply Qnot_le_lt. intros H. apply Qle_bool_iff in H. congruence. }
    replace (a - b - 1 + 1)%Z with (a - b)%Z by lia. split; [| exact E'].
    assert (H2 : 2 * 2 ^ (a - b - 1) == 2 ^ (a - b)).
    { rewrite <- pow2_succ. replace (a - b - 1 + 1)%Z with (a - b)%Z by lia.
      reflexivity. }
    set (Dd := 2 ^ (a - b)) in *. set (Dh := 2 ^ (a - b - 1)) in *.
    apply Qmult_le_r with (2 * B); [nra |]. nra.
Qed.

(** Rounding to the nearest integer moves a number by at most one half. *)
Lemma rne_spec t :
  t - (1 # 2) <= inject_Z (np.rne t) /\ inject_Z (np.rne t) <= t + (1 # 2) /\
  (Qfloor t <= np.rne t)%Z.
Proof.
  unfold np.rne. pose proof (Qfloor_le t) as H1. pose proof (Qlt_floor t) as H2.
  rewrite inject_Z_plus in H2. change (inject_Z 1) with 1 in H2.
  set (f := Qfloor t) in *.
  destruct (Qcompare_spec (t - inject_Z f) (1 # 2)) as [E | E | E].
  - destruct (Z.even f).
    + repeat split; try lra. lia.
    + rewrite inject_Z_plus. change (inject_Z 1) with 1. repeat split; try lra. lia.
  - repeat split; try lra. lia.
  - rewrite inject_Z_plus. change (inject_Z 1) with 1. repeat split; try lra. lia.
Qed.

Lemma fl_zero x : x == 0 -> np.fl x = 0.
Proof. intros H. unfold np.fl. apply Qeq_bool_iff in H. now rewrite H. Qed.

(** The value of [np.fl] at a positive number: mantissa and exponent. *)
Lemma fl_pos x :
  0 < x ->
  let e := np.fexp x in
  np.fl x = inject_Z (np.rne (x / 2 ^ e)) * 2 ^ e.
Proof.
  intros Hx e. unfold np.fl.
  destruct (Qeq_bool x 0) eqn:E0.
  { apply Qeq_bool_iff in E0. rewrite E0 in Hx. discriminate. }
  assert (Ea : Qabs x = x).
  { destruct x as [[| p | p] q]; try reflexivity; discriminate. }
  rewrite Ea. fold e.
  assert (Hle : Qle_bool 0 x = true) by (apply Qle_bool_iff, Qlt_le_weak, Hx).
  now rewrite Hle.
Qed.

Lemma fl_nonneg x : 0 <= x -> 0 <= np.fl x.
Proof.
  intros Hx. destruct (Qlt_le_dec 0 x) as [Hp | Hz].
  - rewrite (fl_pos Hp). set (e := np.fexp x).
    pose proof (pow2_pos e) as Pe.
    apply Qmult_le_0_compat; [| lra].
    destruct (rne_spec (x / 2 ^ e)) as (_ & _ & Hf).
    assert (H0 : (0 <= Qfloor (x / 2 ^ e))%Z).
    { change 0%Z with (Qfloor 0). apply Qfloor_resp_le.
      apply Qle_shift_div_l; [exact Pe | lra]. }
    change 0 with (inject_Z 0). rewrite <- Zle_Qle. lia.
  - rewrite fl_zero by lra. apply Qle_refl.
Qed.

(** The relative error of rounding upwards is at most [2^-53], and the
    absolute one at most [2^-1075] for the smallest numbers. *)
Lemma fl_upper x :
  0 <= x -> np.fl x <= x + x * 2 ^ (-53) + 2 ^ (-1075).
Proof.
  intros Hx0. pose proof (pow2_pos (-53)) as Pu. pose proof (pow2_pos (-1075)) as Pt.
  destruct (Qlt_le_dec 0 x) as [Hx | Hz].
  2:{ rewrite fl_zero by lra. nra. }
  rewrite (fl_pos Hx). set (e := np.fexp x).
  pose proof (pow2_pos e) as Pe.
  destruct (rne_spec (x / 2 ^ e)) as (_ & Hr & _).
  assert (Hm : inject_Z (np.rne (x / 2 ^ e)) * 2 ^ e <= x + 2 ^ e * (1 # 2)).
  { apply Qle_trans with ((x / 2 ^ e + (1 # 2)) * 2 ^ e).
    - apply Qmult_le_compat_r; [exact Hr | lra].
    - rewrite Qmult_plus_distr_l. unfold Qdiv.
      rewrite <- Qmult_assoc, (Qmult_comm (/ 2 ^ e)), Qmult_inv_r by lra. lra. }
  assert (He : 2 ^ e * (1 # 2) <= x * 2 ^ (-53) + 2 ^ (-1075)).
  { destruct (ilog2_spec Hx) as [Hl _].
    destruct (Z.max_spec (np.ilog2 x - 52) (-1074)) as [[Hc E] | [Hc E]];
      fold (np.fexp x) in E; fold e in E; rewrite E.
    - pose proof (pow2_succ (-1075)) as E1. change (-1075 + 1)%Z with (-1074)%Z in E1.
      rewrite E1. assert (0 <= x * 2 ^ (-53)) by nra. lra.
    - assert (E2 : 2 ^ (np.ilog2 x - 52) * (1 # 2) == 2 ^ np.ilog2 x * 2 ^ (-53)).
      { replace (np.ilog2 x - 52)%Z with (np.ilog2 x + -52)%Z by lia.
        rewrite pow2_plus. pose proof (pow2_succ (-53)) as E3.
        change (-53 + 1)%Z with (-52)%Z in E3. rewrite E3. ring. }
      rewrite E2. nra. }
  lra.
Qed.
(** A double below 1 is at most [1 - 2^-53]. *)
Lemma float_below_one f : np.fl f == f -> 0 < f -> f < 1 -> f <= 1 - 2 ^ (-53).
Proof.
  intros Hf H0 H1. rewrite (fl_pos H0) in Hf.
  destruct (ilog2_spec H0) as [Hl Hu].
  assert (Hil : (np.ilog2 f < 0)%Z).
  { apply Qpower_lt_compat_l_inv with 2; [| reflexivity].
    change (2 ^ 0) with 1. lra. }
  set (e := np.fexp f) in *.
  set (m := np.rne (f / 2 ^ e)) in *.
  assert (He : (e <= -53)%Z) by (unfold e, np.fexp; lia).
  assert (Hfe : f < 2 ^ (e + 53)).
  { apply Qlt_le_trans with (2 ^ (np.ilog2 f + 1)); [exact Hu |].
    apply pow2_le. unfold e, np.fexp. lia. }
  pose proof (pow2_pos e) as Pe.
  rewrite pow2_plus in Hfe.
  assert (E53 : 2 ^ 53 == inject_Z (2 ^ 53)) by (symmetry; apply pow2_Z; lia).
  assert (Hm : (m < 2 ^ 53)%Z).
  { rewrite Zlt_Qlt, <- E53. apply Qmult_lt_r with (2 ^ e); [exact Pe |].
    rewrite Hf. rewrite (Qmult_comm (2 ^ 53)). exact Hfe. }
  assert (Hm' : inject_Z m + 1 <= 2 ^ 53).
  { rewrite E53. change 1 with (inject_Z 1). rewrite <- inject_Z_plus, <- Zle_Qle. lia. }
  assert (Hm0 : 0 <= inject_Z m).
  { apply Qmult_le_r with (2 ^ e); [exact Pe |]. rewrite Hf. lra. }
  pose proof (pow2_le He) as Hp.
  assert (E1 : 2 ^ 53 * 2 ^ (-53) == 1).
  { rewrite <- pow2_plus. reflexivity. }
  pose proof (pow2_pos 53) as P53. pose proof (pow2_pos (-53)) as Pu.
  rewrite <- Hf. set (M := inject_Z m) in *. set (E := 2 ^ e) in *.
  set (U := 2 ^ (-53)) in *. set (T := 2 ^ 53) in *.
  apply Qle_trans with (M * U); [nra |]. nra.
Qed.

(** Rounding does not cross an integer below [2^53]. *)
Lemma fl_ge_int k x :
  (0 <= k)%Z -> inject_Z k <= x -> x < 2 ^ 53 -> inject_Z k <= np.fl x.
Proof.
  intros Hk Hkx Hx.
  assert (Hk0 : 0 <= inject_Z k) by (change 0 with (inject_Z 0); rewrite <- Zle_Qle; exact Hk).
  destruct (Qlt_le_dec 0 x) as [Hp | Hz].
  2:{ rewrite fl_zero by lra. lra. }
  rewrite (fl_pos Hp). destruct (ilog2_spec Hp) as [Hl _].
  assert (Hil : (np.ilog2 x < 53)%Z).
  { apply Qpower_lt_compat_l_inv with 2; [lra | reflexivity]. }
  set (e := np.fexp x).
  assert (He : (e <= 0)%Z) by (unfold e, np.fexp; lia).
  pose proof (pow2_pos e) as Pe.
  assert (Einv : 2 ^ e * inject_Z (2 ^ (- e)) == 1).
  { rewrite pow2_Z by lia. rewrite <- pow2_plus.
    replace (e + - e)%Z with 0%Z by lia. reflexivity. }
  assert (Et : x / 2 ^ e == x * inject_Z (2 ^ (- e))).
  { unfold Qdiv. apply Qmult_comp; [reflexivity |].
    apply (Qmult_inj_l _ _ (2 ^ e)); [lra |].
    rewrite Qmult_inv_r by lra. rewrite Einv. reflexivity. }
  destruct (rne_spec (x / 2 ^ e)) as (_ & _ & Hf).
  assert (Hfl : (k * 2 ^ (- e) <= Qfloor (x / 2 ^ e))%Z).
  { rewrite <- (Qfloor_Z (k * 2 ^ (- e))). apply Qfloor_resp_le.
    rewrite Et, inject_Z_mult. apply Qmult_le_compat_r; [exact Hkx |].
    change 0 with (inject_Z 0). rewrite <- Zle_Qle. apply Z.pow_nonneg. lia. }
  assert (Hr : inject_Z (k * 2 ^ (- e)) <= inject_Z (np.rne (x / 2 ^ e)))
    by (rewrite <- Zle_Qle; lia).
  apply Qle_trans with (inject_Z (k * 2 ^ (- e)) * 2 ^ e).
  - rewrite inject_Z_mult, <- Qmult_assoc, (Qmult_comm (inject_Z (2 ^ (- e)))), Einv.
    rewrite Qmult_1_r. apply Qle_refl.
  - apply Qmult_le_compat_r; [exact Hr | lra].
Qed.

(** Nor an integer above. *)
Lemma fl_le_int k x :
  0 <= x -> x <= inject_Z k -> x < 2 ^ 53 -> np.fl x <= inject_Z k.
Proof.
  intros H0 Hkx Hx.
  destruct (Qlt_le_dec 0 x) as [Hp | Hz].
  2:{ rewrite fl_zero by lra. lra. }
  rewrite (fl_pos Hp). destruct (ilog2_spec Hp) as [Hl _].
  assert (Hil : (np.ilog2 x < 53)%Z).
  { apply Qpower_lt_compat_l_inv with 2; [lra | reflexivity]. }
  set (e := np.fexp x).
  assert (He : (e <= 0)%Z) by (unfold e, np.fexp; lia).
  pose proof (pow2_pos e) as Pe.
  assert (Einv : 2 ^ e * inject_Z (2 ^ (- e)) == 1).
  { rewrite pow2_Z by lia. rewrite <- pow2_plus.
    replace (e + - e)%Z with 0%Z by lia. reflexivity. }
  assert (Et : x / 2 ^ e == x * inject_Z (2 ^ (- e))).
  { unfold Qdiv. apply Qmult_comp; [reflexivity |].
    apply (Qmult_inj_l _ _ (2 ^ e)); [lra |].
    rewrite Qmult_inv_r by lra. rewrite Einv. reflexivity. }
  destruct (rne_spec (x / 2 ^ e)) as (_ & Hr & _).
  assert (Hp2 : 0 <= inject_Z (2 ^ (- e))).
  { change 0 with (inject_Z 0). rewrite <- Zle_Qle. apply Z.pow_nonneg. lia. }
  assert (Hle : (np.rne (x / 2 ^ e) <= k * 2 ^ (- e))%Z).
  { assert (H : inject_Z (np.rne (x / 2 ^ e)) < inject_Z (k * 2 ^ (- e) + 1)).
    { rewrite inject_Z_plus, inject_Z_mult. change (inject_Z 1) with 1.
      assert (Ht : x / 2 ^ e <= inject_Z k * inject_Z (2 ^ (- e)))
        by (rewrite Et; apply Qmult_le_compat_r; assumption).
      set (t := x / 2 ^ e) in *. lra. }
    rewrite <- Zlt_Qlt in H. lia. }
  apply Qle_trans with (inject_Z (k * 2 ^ (- e)) * 2 ^ e).
  - apply Qmult_le_compat_r; [rewrite <- Zle_Qle; exact Hle | lra].
  - rewrite inject_Z_mult, <- Qmult_assoc, (Qmult_comm (inject_Z (2 ^ (- e)))), Einv.
    rewrite Qmult_1_r. apply Qle_refl.
Qed.

Lemma ilog2_unique x a :
  0 < x -> 2 ^ a <= x -> x < 2 ^ (a + 1) -> np.ilog2 x = a.
Proof.
  intros Hx Ha Hb. destruct (ilog2_spec Hx) as [Hl Hu].
  assert (H1 : (a < np.ilog2 x + 1)%Z).
  { apply Qpower_lt_compat_l_inv with 2; [lra | reflexivity]. }
  assert (H2 : (np.ilog2 x < a + 1)%Z).
  { apply Qpower_lt_compat_l_inv with 2; [lra | reflexivity]. }
  lia.
Qed.

Lemma rne_comp t t' : t == t' -> np.rne t = np.rne t'.
Proof.
  intros H. unfold np.rne. rewrite (Qfloor_comp _ _ H).
  assert (E : (t - inject_Z (Qfloor t') ?= 1 # 2) = (t' - inject_Z (Qfloor t') ?= 1 # 2)).
  { apply Qcompare_comp; [rewrite H; reflexivity | reflexivity]. }
  rewrite E. reflexivity.
Qed.

(** [np.fl] does not depend on the representation of the rational. *)
Lemma fl_comp x y : x == y -> np.fl x = np.fl y.
Proof.
  intros H. unfold np.fl.
  assert (E0 : Qeq_bool x 0 = Qeq_bool y 0).
  { destruct (Qeq_bool x 0) eqn:Ex, (Qeq_bool y 0) eqn:Ey; try reflexivity.
    - apply Qeq_bool_iff in Ex. rewrite H in Ex. apply Qeq_bool_iff in Ex. congruence.
    - apply Qeq_bool_iff in Ey. rewrite <- H in Ey. apply Qeq_bool_iff in Ey. congruence. }
  rewrite <- E0. destruct (Qeq_bool x 0) eqn:Ex; [reflexivity |].
  assert (Hx : ~ x == 0) by (intros C; apply Qeq_bool_iff in C; congruence).
  assert (Ha : Qabs x == Qabs y) by (rewrite H; reflexivity).
  assert (Hp : 0 < Qabs x).
  { destruct (Qlt_le_dec 0 (Qabs x)) as [Hp | Hn]; [exact Hp |].
    exfalso. pose proof (Qabs_nonneg x) as Hnn.
    assert (Hz : Qabs x == 0) by lra.
    apply Hx. revert Hz. apply Qabs_case; intros; lra. }
  assert (Ei : np.ilog2 (Qabs y) = np.ilog2 (Qabs x)).
  { destruct (ilog2_spec Hp) as [Hl Hu].
    apply ilog2_unique; lra. }
  assert (Ef : np.fexp (Qabs y) = np.fexp (Qabs x))
    by (unfold np.fexp; now rewrite Ei).
  rewrite Ef.
  assert (Er : np.rne (Qabs x / 2 ^ np.fexp (Qabs x))
             = np.rne (Qabs y / 2 ^ np.fexp (Qabs x))).
  { apply rne_comp. unfold Qdiv. apply Qmult_comp; [exact Ha | reflexivity]. }
  rewrite Er.
  assert (El : Qle_bool 0 x = Qle_bool 0 y).
  { destruct (Qle_bool 0 x) eqn:E1, (Qle_bool 0 y) eqn:E2; try reflexivity.
    - apply Qle_bool_iff in E1. rewrite H in E1. apply Qle_bool_iff in E1. congruence.
    - apply Qle_bool_iff in E2. rewrite <- H in E2. apply Qle_bool_iff in E2. congruence. }
  rewrite El. reflexivity.
Qed.

(** An integer up to [2^53] is a double. *)
Lemma fl_int k : (0 <= k <= 2 ^ 53)%Z -> np.fl (inject_Z k) == inject_Z k.
Proof.
  intros [H0 H1]. destruct (Z.eq_dec k (2 ^ 53)) as [-> | Hne].
  - vm_compute. reflexivity.
  - assert (Hk : inject_Z k < 2 ^ 53).
    { rewrite <- pow2_Z by lia. rewrite <- Zlt_Qlt. lia. }
    assert (Hk0 : 0 <= inject_Z k).
    { change 0 with (inject_Z 0). rewrite <- Zle_Qle. exact H0. }
    apply Qle_antisym.
    + apply fl_le_int; [exact Hk0 | apply Qle_refl | exact Hk].
    + apply fl_ge_int; [exact H0 | apply Qle_refl | exact Hk].
Qed.

Lemma rne_le_int t k : t < inject_Z k + (1 # 2) -> (np.rne t <= k)%Z.
Proof.
  intros H. destruct (rne_spec t) as (_ & Hr & _).
  assert (Hlt : inject_Z (np.rne t) < inject_Z (k + 1)).
  { rewrite inject_Z_plus. change (inject_Z 1) with 1. lra. }
  rewrite <- Zlt_Qlt in Hlt. lia.
Qed.

Lemma rne_ge_int t k : inject_Z k <= t -> (k <= np.rne t)%Z.
Proof.
  intros H. destruct (rne_spec t) as (_ & _ & Hf).
  assert (Hk : (k <= Qfloor t)%Z).
  { rewrite <- (Qfloor_Z k). apply Qfloor_resp_le, H. }
  lia.
Qed.

Lemma scaled_lt x : 0 < x -> x < 2 ^ 53 * 2 ^ np.fexp x.
Proof.
  intros Hx. destruct (ilog2_spec Hx) as [_ Hu].
  rewrite <- pow2_plus. apply Qlt_le_trans with (2 ^ (np.ilog2 x + 1)); [exact Hu |].
  apply pow2_le. unfold np.fexp. lia.
Qed.

Lemma fl_value x : 0 < x -> np.fl x = inject_Z (np.rne (x / 2 ^ np.fexp x)) * 2 ^ np.fexp x.
Proof. intros Hx. apply (fl_pos Hx). Qed.

Lemma div_mul_pow x e : x / 2 ^ e * 2 ^ e == x.
Proof.
  pose proof (pow2_pos e). unfold Qdiv.
  rewrite <- Qmult_assoc, (Qmult_comm (/ 2 ^ e)), Qmult_inv_r by lra. ring.
Qed.

(** The product of a double below 1 and the double nearest to a positive
    integer rounds to a double below the integer. *)
Lemma fl_mul_lt_int f n :
  np.fl f == f -> 0 < f -> f < 1 -> (0 < n)%Z ->
  np.fl (f * np.fl (inject_Z n)) < inject_Z n.
Proof.
  intros Hf H0 H1 Hn.
  pose proof (float_below_one Hf H0 H1) as Hfu.
  set (v := inject_Z n) in *.
  assert (Hv1 : 1 <= v).
  { unfold v. change 1 with (inject_Z 1). rewrite <- Zle_Qle. lia. }
  assert (Hv0 : 0 < v) by lra.
  destruct (ilog2_spec Hv0) as [Hl Hu].
  assert (Hil : (0 <= np.ilog2 v)%Z).
  { assert (H : (0 < np.ilog2 v + 1)%Z).
    { apply Qpower_lt_compat_l_inv with 2; [| reflexivity]. change (2 ^ 0) with 1. lra. }
    lia. }
  set (e := np.fexp v).
  assert (Ee : e = (np.ilog2 v - 52)%Z) by (unfold e, np.fexp; lia).
  pose proof (pow2_pos e) as Pe.
  set (t := v / 2 ^ e). set (m := np.rne t).
  assert (EN : np.fl v = inject_Z m * 2 ^ e) by (apply fl_value, Hv0).
  assert (Et : t * 2 ^ e == v) by apply div_mul_pow.
  assert (E52 : 2 ^ 52 == inject_Z (2 ^ 52)) by (symmetry; apply pow2_Z; lia).
  assert (E53 : 2 ^ 53 == inject_Z (2 ^ 53)) by (symmetry; apply pow2_Z; lia).
  assert (Ht52 : 2 ^ 52 <= t).
  { apply Qmult_le_r with (2 ^ e); [exact Pe |]. rewrite Et, <- pow2_plus.
    replace (52 + e)%Z with (np.ilog2 v) by lia. exact Hl. }
  assert (Hm52 : (2 ^ 52 <= m)%Z) by (apply rne_ge_int; rewrite <- E52; exact Ht52).
  destruct (rne_spec t) as (Hr1 & Hr2 & _). fold m in Hr1, Hr2.
  set (M := inject_Z m) in *.
  assert (HM52 : 2 ^ 52 <= M) by (rewrite E52; unfold M; rewrite <- Zle_Qle; exact Hm52).
  (* the integer lies within half a unit in the last place of its double *)
  assert (Hvlo : M * 2 ^ e - 2 ^ e * (1 # 2) <= v) by (rewrite <- Et; nra).
  set (N := np.fl v) in *.
  assert (HN : N == M * 2 ^ e) by (rewrite EN; reflexivity).
  assert (HN0 : 0 < N) by (rewrite HN; nra).
  set (x := f * N).
  assert (Hx0 : 0 < x) by (unfold x; nra).
  assert (Hxu : x <= N - N * 2 ^ (-53)) by (unfold x; nra).
  pose proof (pow2_pos (-53)) as Pu.
  assert (U53 : 2 ^ 53 * 2 ^ (-53) == 1) by (rewrite <- pow2_plus; reflexivity).
  assert (U52 : 2 ^ 52 * 2 ^ (-53) == 1 # 2).
  { rewrite <- pow2_plus. reflexivity. }
  rewrite (fl_value Hx0). set (ex := np.fexp x).
  pose proof (pow2_pos ex) as Pex.
  pose proof (scaled_lt Hx0) as Hsx. fold ex in Hsx.
  destruct (ilog2_spec Hx0) as [Hlx Hux].
  destruct (rne_spec (x / 2 ^ ex)) as (_ & Hrx & _).
  pose proof (div_mul_pow x ex) as Etx.
  set (tx := x / 2 ^ ex) in *. set (mx := np.rne tx) in *.
  (* the rounded product is at most half a unit of its exponent above *)
  assert (Hup : inject_Z mx * 2 ^ ex <= x + 2 ^ ex * (1 # 2)) by (rewrite <- Etx; nra).
  (* exponents: x < N <= 2^53 * 2^e *)
  assert (Hm53 : M <= 2 ^ 53).
  { assert (Ht53 : t < 2 ^ 53).
    { apply Qmult_lt_r with (2 ^ e); [exact Pe |]. rewrite Et, <- pow2_plus.
      replace (53 + e)%Z with (np.ilog2 v + 1)%Z by lia. exact Hu. }
    assert (Hle : (m <= 2 ^ 53)%Z)
      by (apply rne_le_int; rewrite <- E53; lra).
    rewrite E53. unfold M. rewrite <- Zle_Qle. exact Hle. }
  assert (Hex : (ex <= e)%Z).
  { assert (Hlt : 2 ^ np.ilog2 x < 2 ^ (e + 53)).
    { apply Qle_lt_trans with x; [exact Hlx |]. rewrite pow2_plus.
      apply Qlt_le_trans with N; [unfold x; nra | rewrite HN; nra]. }
    apply Qpower_lt_compat_l_inv in Hlt; [| reflexivity].
    unfold ex, np.fexp. lia. }
  destruct (Z.eq_dec m (2 ^ 52)) as [Em | Nm].
  - (* the double of the integer is a power of two, and below the integer *)
    assert (EM : M == 2 ^ 52) by (unfold M; rewrite Em; symmetry; exact E52).
    assert (HNv : N <= v) by (rewrite HN, EM, <- Et; nra).
    assert (Hex1 : (ex <= e - 1)%Z).
    { assert (Hlt : 2 ^ np.ilog2 x < 2 ^ (e + 52)).
      { apply Qle_lt_trans with x; [exact Hlx |]. rewrite pow2_plus.
        apply Qlt_le_trans with N; [unfold x; nra | rewrite HN, EM; nra]. }
      apply Qpower_lt_compat_l_inv in Hlt; [| reflexivity].
      unfold ex, np.fexp. lia. }
    assert (Hpe : 2 ^ ex * 2 <= 2 ^ e).
    { apply Qle_trans with (2 ^ (ex + 1)); [rewrite pow2_succ; lra | apply pow2_le; lia]. }
    apply Qle_lt_trans with (x + 2 ^ ex * (1 # 2)); [exact Hup |].
    apply Qlt_le_trans with N; [| exact HNv].
    assert (HNu : N * 2 ^ (-53) == 2 ^ e * (1 # 2)).
    { rewrite HN, EM. rewrite (Qmult_comm (2 ^ 52)), <- Qmult_assoc, U52. reflexivity. }
    lra.
  - assert (HM1 : 2 ^ 52 + 1 <= M).
    { rewrite E52. change 1 with (inject_Z 1). unfold M.
      rewrite <- inject_Z_plus, <- Zle_Qle. lia. }
    assert (HNu : 2 ^ e * (1 # 2) < N * 2 ^ (-53)).
    { rewrite HN. rewrite <- U52.
      assert (2 ^ 52 * 2 ^ (-53) * 2 ^ e < M * 2 ^ (-53) * 2 ^ e); [| lra].
      apply Qmult_lt_compat_r; [exact Pe |]. apply Qmult_lt_compat_r; [exact Pu | lra]. }
    apply Qlt_le_trans with (M * 2 ^ e - 2 ^ e * (1 # 2)); [| exact Hvlo].
    destruct (Z.eq_dec ex e) as [Ex | Nx].
    + rewrite Ex in *.
      assert (Hmx : (mx <= m - 1)%Z).
      { apply rne_le_int. unfold Z.sub. rewrite inject_Z_plus, inject_Z_opp.
        change (inject_Z 1) with 1. fold M.
        apply Qmult_lt_r with (2 ^ e); [exact Pe |]. rewrite Etx. lra. }
      assert (Hq : inject_Z mx + 1 <= M).
      { unfold M. change 1 with (inject_Z 1).
        rewrite <- inject_Z_plus, <- Zle_Qle. lia. }
      apply Qle_lt_trans with ((M - 1) * 2 ^ e); [apply Qmult_le_compat_r; lra | lra].
    + assert (Hpe : 2 ^ 53 * 2 ^ ex <= 2 ^ 52 * 2 ^ e).
      { rewrite <- !pow2_plus. apply pow2_le. lia. }
      assert (Hmx : (mx <= 2 ^ 53)%Z).
      { apply rne_le_int. rewrite <- E53.
        assert (tx < 2 ^ 53); [| lra].
        apply Qmult_lt_r with (2 ^ ex); [exact Pex |]. rewrite Etx. exact Hsx. }
      assert (Hq : inject_Z mx <= 2 ^ 53) by (rewrite E53, <- Zle_Qle; exact Hmx).
      apply Qle_lt_trans with (2 ^ 53 * 2 ^ ex); [apply Qmult_le_compat_r; lra |].
      nra.
Qed.

(** A length up to [2^53] is converted exactly. *)
Lemma float_exact k : (0 <= k <= 2 ^ 53)%Z -> np.float k == inject_Z k.
Proof. apply fl_int. Qed.

(** [int(f * n)] for a double [f] in (0, 1) and a positive integer [n]. *)
Lemma int_mul_fraction f n :
  np.is_float f -> 0 < f -> f < 1 -> (0 < n)%Z ->
  (0 <= np.int (np.mul f (np.float n)) < n)%Z.
Proof.
  unfold np.is_float, np.mul, np.float. intros Hf H0 H1 Hn.
  assert (Hn0 : 0 <= inject_Z n).
  { change 0 with (inject_Z 0). rewrite <- Zle_Qle. lia. }
  pose proof (fl_nonneg Hn0) as HN.
  assert (Hx : 0 <= f * np.fl (inject_Z n)) by nra.
  pose proof (fl_nonneg Hx) as Hfl. rewrite (int_floor Hfl). split.
  - change 0%Z with (Qfloor 0). apply Qfloor_resp_le, Hfl.
  - rewrite Zlt_Qlt. apply Qle_lt_trans with (np.fl (f * np.fl (inject_Z n)));
      [apply Qfloor_le | apply fl_mul_lt_int; assumption].
Qed.

(** [int(f1 * L)] for [f1] in [0, 1] and an integer [L] below [2^53]. *)
Lemma int_mul_scale f1 L :
  0 <= f1 -> f1 <= 1 -> (0 <= L < 2 ^ 53)%Z ->
  (0 <= np.int (np.mul f1 (np.float L)) <= L)%Z.
Proof.
  unfold np.mul. intros H0 H1 [HL0 HL].
  assert (E : np.fl (f1 * np.float L) = np.fl (f1 * inject_Z L)).
  { apply fl_comp. rewrite float_exact by lia. reflexivity. }
  rewrite E.
  assert (HL' : 0 <= inject_Z L) by (change 0 with (inject_Z 0); rewrite <- Zle_Qle; lia).
  assert (Hx : 0 <= f1 * inject_Z L) by nra.
  pose proof (fl_nonneg Hx) as Hfl. rewrite (int_floor Hfl). split.
  - change 0%Z with (Qfloor 0). apply Qfloor_resp_le, Hfl.
  - rewrite <- (Qfloor_Z L) at 2. apply Qfloor_resp_le.
    apply fl_le_int; [exact Hx | nra |].
    apply Qle_lt_trans with (inject_Z L); [nra |].
    rewrite <- pow2_Z by lia. rewrite <- Zlt_Qlt. exact HL.
Qed.


Lemma getitem_nth {A} (a : list A) (i : nat) :
  (i < length a)%nat -> forall d, np.getitem a (Z.of_nat i) = Some (nth i a d).
Proof.
  intros H d. unfold np.getitem, np.len.
  replace ((0 <=? Z.of_nat i)%Z && (Z.of_nat i <? Z.of_nat (length a))%Z) with true.
  - rewrite Nat2Z.id. apply nth_error_nth', H.
  - symmetry. apply andb_true_iff. split; [apply Z.leb_le | apply Z.ltb_lt]; lia.
Qed.

Lemma clip_nat {A} (a : list A) (k : nat) :
  np.clip a (Z.of_nat k) = Nat.min k (length a).
Proof.
  unfold np.clip. destruct (Z.ltb_spec (Z.of_nat k) 0); [lia |].
  now rewrite Nat2Z.id.
Qed.

Lemma sub_length a b : length (np.sub a b) = Nat.min (length a) (length b).
Proof.
  revert b. induction a as [| x a IH]; intros [| y b]; simpl; auto.
Qed.

Lemma sub_nth a b i :
  (i < length a)%nat -> (i < length b)%nat ->
  nth i (np.sub a b) 0 = nth i a 0 - nth i b 0.
Proof.
  revert b i. induction a as [| x a IH]; intros [| y b] [| i]; simpl; intros; try lia; auto.
  apply IH; lia.
Qed.

(** [argmin] returns a position of a least element. *)
Lemma argmin_from_spec a : forall pre best bi,
  (bi < length pre)%nat ->
  nth bi pre 0 = best ->
  (forall j, (j < length pre)%nat -> best <= nth j pre 0) ->
  let r := np.argmin_from best bi (length pre) a in
  (r < length (pre ++ a))%nat /\
  forall j, (j < length (pre ++ a))%nat ->
            nth r (pre ++ a) 0 <= nth j (pre ++ a) 0.
Proof.
  induction a as [| x a IH]; intros pre best bi Hbi Hbest Hmin; simpl.
  - rewrite app_nil_r. split; [exact Hbi |]. intros j Hj. rewrite Hbest. auto.
  - assert (Hl : length (pre ++ [x]) = S (length pre))
      by (rewrite length_app; simpl; lia).
    specialize (IH (pre ++ [x])). rewrite Hl, <- app_assoc in IH. simpl in IH.
    assert (Hx : nth (length pre) (pre ++ [x]) 0 = x)
      by (rewrite app_nth2, Nat.sub_diag by lia; reflexivity).
    destruct (np.ltb x best) eqn:E.
    + apply ltb_lt in E. apply IH; [lia | exact Hx |].
      intros j Hj.
      destruct (Nat.eq_dec j (length pre)) as [-> | Hne].
      * rewrite Hx. apply Qle_refl.
      * rewrite app_nth1 by lia.
        apply Qle_trans with best; [apply Qlt_le_weak, E | apply Hmin; lia].
    + apply ltb_ge in E. apply IH; [lia | |].
      * rewrite app_nth1 by lia. exact Hbest.
      * intros j Hj.
        destruct (Nat.eq_dec j (length pre)) as [-> | Hne].
        -- rewrite Hx. exact E.
        -- rewrite app_nth1 by lia. apply Hmin; lia.
Qed.

Lemma argmin_spec a :
  a <> [] ->
  exists i, np.argmin a = Some i /\ (i < length a)%nat /\
            forall j, (j < length a)%nat -> nth i a 0 <= nth j a 0.
Proof.
  destruct a as [| x a]; [congruence | intros _].
  exists (np.argmin_from x 0 1 a). split; [reflexivity |].
  apply (@argmin_from_spec a [x] x 0%nat); simpl; auto.
  intros [| j] Hj; [apply Qle_refl | lia].
Qed.

End NumpyFacts.

Section SortedFacts.
Local Open Scope Q_scope.

Lemma sort_perm a : Permutation a (np.sort a).
Proof. apply np.QSort.Permuted_sort. Qed.

Lemma sort_length a : length (np.sort a) = length a.
Proof. symmetry. apply Permutation_length, sort_perm. Qed.

Lemma sort_sorted a : StronglySorted Qle (np.sort a).
Proof.
  assert (T : Transitive (fun x y : Q => is_true (Qle_bool x y))).
  { intros x y z. unfold is_true. rewrite !Qle_bool_iff. apply Qle_trans. }
  pose proof (np.QSort.StronglySorted_sort a T) as H.
  unfold np.sort. induction H as [| x l Hl IH Hx]; constructor; auto.
  eapply Forall_impl; [| exact Hx]. intros y Hy. apply Qle_bool_iff, Hy.
Qed.

Lemma sorted_nth s : StronglySorted Qle s ->
  forall i j, (i <= j)%nat -> (j < length s)%nat -> nth i s 0 <= nth j s 0.
Proof.
  induction 1 as [| x l Hl IH Hx]; intros i j Hij Hj; simpl in Hj; [lia |].
  destruct i as [| i], j as [| j]; simpl; try lia.
  - apply Qle_refl.
  - rewrite Forall_forall in Hx. apply Hx, nth_In. lia.
  - apply IH; lia.
Qed.









End SortedFacts.

Section MonadFacts.
Local Open Scope py_scope.

Lemma outcome_bind {A B} (m : Py.M A) (k : A -> Py.M B) :
  Py.outcome (Py.bind m k) =
  match Py.outcome m with
  | inl e => inl e
  | inr a => Py.outcome (k a)
  end.
Proof.
  destruct m as [w [e | a]]; simpl; [reflexivity |]. now destruct (k a).
Qed.

Lemma warnings_bind {A B} (m : Py.M A) (k : A -> Py.M B) :
  Py.warnings (Py.bind m k) =
  match Py.outcome m with
  | inl e => Py.warnings m
  | inr a => Py.warnings m ++ Py.warnings (k a)
  end.
Proof.
  destruct m as [w [e | a]]; simpl; [reflexivity |]. now destruct (k a).
Qed.

Lemma warnings_orelse {A} e (o : option A) : Py.warnings (Py.orelse e o) = [].
Proof. now destruct o. Qed.

Lemma bind_ret {A B} (a : A) (k : A -> Py.M B) : Py.bind (Py.ret a) k = k a.
Proof. unfold Py.bind, Py.ret. now destruct (k a). Qed.

End MonadFacts.

(** Inversion of a computation that returned. *)
Lemma bind_ret_inv {A B} (m : Py.M A) (k : A -> Py.M B) b :
  Py.bind m k = Py.ret b -> exists a, m = Py.ret a /\ k a = Py.ret b.
Proof.
  destruct m as [w [e | a]]; simpl; [discriminate |].
  destruct (k a) as [w' r] eqn:E. unfold Py.ret. intros H.
  injection H as Hw ->. apply app_eq_nil in Hw. destruct Hw as [-> ->].
  exists a. auto.
Qed.

Lemma orelse_ret_inv {A} e (o : option A) a :
  Py.orelse e o = Py.ret a -> o = Some a.
Proof. destruct o; simpl; [| discriminate]. unfold Py.ret. congruence. Qed.

(** [bind_inv H as x Hx]: from [H : (x <- m ;; k x) = Py.ret b] to
    [Hx : m = Py.ret x] and [H : k x = Py.ret b]. *)
Tactic Notation "bind_inv" hyp(H) "as" ident(x) ident(Hx) :=
  apply bind_ret_inv in H; destruct H as (x & Hx & H).

Section HdiFacts.
Local Open Scope Q_scope.
Local Open Scope py_scope.

Variable de : optimiser.

Lemma widths_spec s (L : nat) :
  (L < length s)%nat ->
  let widths := np.sub (np.slice_from s (Z.of_nat L))
                       (np.slice_to s (np.len s - Z.of_nat L)) in
  length widths = (length s - L)%nat /\
  forall j, (j + L < length s)%nat -> nth j widths 0 = window s L j.
Proof.
  intros HL widths. subst widths. unfold np.slice_from, np.slice_to, np.len.
  rewrite <- Nat2Z.inj_sub by lia. rewrite !clip_nat.
  rewrite (Nat.min_l L) by lia. rewrite (Nat.min_l (length s - L)) by lia.
  split.
  - rewrite sub_length, length_skipn, length_firstn. lia.
  - intros j Hj. rewrite sub_nth.
    + rewrite nth_skipn, nth_firstn.
      destruct (Nat.ltb_spec j (length s - L)); [| lia].
      unfold window. now rewrite (Nat.add_comm L j).
    + rewrite length_skipn. lia.
    + rewrite length_firstn. lia.
Qed.

Lemma single_interval_spec s (L : nat) :
  (L < length s)%nat ->
  exists i,
    (i + L < length s)%nat /\
    (forall j, (j + L < length s)%nat -> window s L i <= window s L j) /\
    single_interval s (np.len s) (Z.of_nat L) =
    Py.ret ((nth i s 0, nth (i + L) s 0), window s L i).
Proof.
  intros HL. unfold single_interval.
  destruct (widths_spec s HL) as [Hlen Hnth].
  set (widths := np.sub _ _) in *.
  destruct (@argmin_spec widths) as (i & Hi & Hlt & Hmin).
  { intros E. rewrite E in Hlen. simpl in Hlen. lia. }
  exists i. rewrite Hlen in Hlt, Hmin.
  split; [lia | split].
  - intros j Hj. rewrite <- !Hnth by lia. apply Hmin. lia.
  - rewrite Hi. simpl Py.orelse. rewrite bind_ret.
    rewrite (getitem_nth s (i := i)) with (d := 0) by lia.
    simpl Py.orelse. rewrite bind_ret.
    rewrite <- Nat2Z.inj_add.
    rewrite (getitem_nth s (i := (i + L)%nat)) with (d := 0) by lia.
    simpl Py.orelse. rewrite bind_ret. reflexivity.
Qed.

Lemma window_length_bounds sample fraction :
  valid sample fraction ->
  (0 <= window_length sample fraction < np.len sample)%Z.
Proof.
  intros (Hfl & H0 & H1 & Hn). unfold window_length, np.len. rewrite sort_length.
  apply int_mul_fraction; auto. lia.
Qed.

(** After validation [sample_hdi] is the single-interval search followed by
    the choice between one and two intervals. *)
Lemma sample_hdi_valid sample fraction force_single :
  valid sample fraction ->
  let s := np.sort sample in
  let n := np.len s in
  let L := window_length sample fraction in
  sample_hdi de sample fraction force_single =
    (if (n - L <? 20)%Z then Py.warn msg_inaccurate else Py.ret tt) ;;;
    '(r1, w1) <- single_interval s n L ;;
    if force_single then Py.ret (Single r1)
    else
      '(I1, I2, w2) <- double_interval de sample fraction ;;
      if np.ltb w2 (np.mul w1 (np.fl (99 # 100))) then Py.ret (Double I1 I2)
      else Py.ret (Single r1).
Proof.
  intros Hv s n L. pose proof (window_length_bounds Hv) as HL.
  destruct Hv as (_ & H0 & H1 & Hn). unfold sample_hdi.
  apply ltb_lt in H0, H1. rewrite H0, H1. simpl negb. cbv iota.
  destruct (Z.ltb_spec (np.len sample) 2) as [Hlt | _];
    [unfold np.len in Hlt; lia |].
  change (np.int (np.mul fraction (np.float (np.len (np.sort sample))))) with L.
  change (np.len (np.sort sample)) with n.
  destruct (Z.leb_spec n L) as [Hle | _]; [| reflexivity].
  subst n s. unfold np.len in *. rewrite sort_length in Hle. lia.
Qed.

Lemma double_interval_silent sample fraction :
  Py.warnings (double_interval de sample fraction) = [].
Proof.
  unfold double_interval, dbl_interval_length.init,
    dbl_interval_length.return_intervals.
  destruct (np.getitem (np.sort sample) (-1)) as [hi |]; [| reflexivity].
  destruct (np.getitem (np.sort sample) 0) as [lo |]; [| reflexivity].
  simpl Py.orelse. rewrite !bind_ret.
  destruct (de _ _) as [[f1 p1] p2]. cbv zeta.
  repeat match goal with
  | |- context [Py.orelse _ ?o] => destruct o; simpl Py.orelse; rewrite ?bind_ret
  end; reflexivity.
Qed.

Lemma double_interval_raises sample fraction e :
  Py.outcome (double_interval de sample fraction) = inl e -> e = Py.IndexError.
Proof.
  unfold double_interval, dbl_interval_length.init,
    dbl_interval_length.return_intervals.
  destruct (np.getitem (np.sort sample) (-1)) as [hi |];
    [| simpl; congruence].
  destruct (np.getitem (np.sort sample) 0) as [lo |]; [| simpl; congruence].
  simpl Py.orelse. rewrite !bind_ret.
  destruct (de _ _) as [[f1 p1] p2]. cbv zeta.
  repeat match goal with
  | |- context [Py.orelse _ ?o] => destruct o; simpl Py.orelse; rewrite ?bind_ret
  end; simpl; congruence.
Qed.

Lemma int_nonneg x : 0 <= x -> (0 <= np.int x)%Z.
Proof.
  intros H. rewrite int_floor by exact H.
  change 0%Z with (Qfloor 0). apply Qfloor_resp_le, H.
Qed.

Lemma getitem_in_range {A} (a : list A) (i : Z) :
  (- np.len a <= i < np.len a)%Z -> exists x, np.getitem a i = Some x.
Proof.
  intros Hi. unfold np.getitem. unfold np.len in *.
  destruct (Z.leb_spec 0 i) as [H0 | H0]; simpl.
  - destruct (Z.ltb_spec i (Z.of_nat (length a))) as [H1 | H1]; [| lia].
    destruct (nth_error a (Z.to_nat i)) as [x |] eqn:E; [eauto |].
    apply nth_error_None in E. lia.
  - destruct (Z.leb_spec (- Z.of_nat (length a)) i) as [H1 | H1]; [| lia].
    destruct (Z.ltb_spec i 0) as [_ | H2]; [| lia]. simpl.
    destruct (nth_error a (Z.to_nat (i + Z.of_nat (length a)))) as [x |] eqn:E;
      [eauto |].
    apply nth_error_None in E. lia.
Qed.

(** A feasible answer yields the two intervals. *)
Lemma double_interval_feasible sample fraction :
  valid sample fraction -> (np.len sample <= 2 ^ 53)%Z ->
  feasible de sample fraction ->
  exists I1 I2 w2,
    Py.outcome (double_interval de sample fraction) = inr (I1, I2, w2).
Proof.
  intros Hv Hsmall Hf. pose proof (window_length_bounds Hv) as HL.
  unfold window_length in HL. unfold np.len at 1 in HL. rewrite sort_length in HL.
  fold (np.len sample) in HL.
  assert (Hlen : np.len (np.sort sample) = np.len sample)
    by (unfold np.len; now rewrite sort_length).
  assert (HN : (2 <= np.len sample)%Z)
    by (destruct Hv as (_ & _ & _ & Hn); unfold np.len; lia).
  unfold feasible in Hf. unfold double_interval.
  unfold dbl_interval_length.init in *.
  destruct (@getitem_in_range _ (np.sort sample) (-1)) as [hi Ehi];
    [rewrite Hlen; lia |].
  destruct (@getitem_in_range _ (np.sort sample) 0) as [lo Elo];
    [rewrite Hlen; lia |].
  rewrite Ehi, Elo in *. simpl Py.orelse in *. rewrite !bind_ret in *.
  cbn [Py.outcome Py.ret snd] in Hf.
  set (minfunc := dbl_interval_length.mk _ _ _ _ _ _) in *.
  destruct (de _ _) as [[f1 p1] p2].
  destruct Hf as (Hf0 & Hf1 & Hp1 & Hp2 & Hsum).
  cbn [dbl_interval_length.space minfunc] in Hsum.
  unfold dbl_interval_length.return_intervals.
  cbn [dbl_interval_length.L dbl_interval_length.sample minfunc].
  set (L := np.int (np.mul fraction (np.float (np.len sample)))) in *.
  pose proof (int_nonneg Hp1) as Hs. pose proof (int_nonneg Hp2) as Hg.
  pose proof (@int_mul_scale f1 L Hf0 Hf1 ltac:(lia)) as Hw.
  set (start := np.int p1) in *. set (gap := np.int p2) in *.
  set (w1 := np.int (np.mul f1 (np.float L))) in *.
  destruct (@getitem_in_range _ (np.sort sample) start) as [a0 E0];
    [rewrite Hlen; lia |].
  destruct (@getitem_in_range _ (np.sort sample) (start + w1)) as [a1 E1];
    [rewrite Hlen; lia |].
  destruct (@getitem_in_range _ (np.sort sample) (start + w1 + gap)) as [b0 E2];
    [rewrite Hlen; lia |].
  destruct (@getitem_in_range _ (np.sort sample) (start + w1 + gap + (L - w1)))
    as [b1 E3]; [rewrite Hlen; lia |].
  rewrite E0, E1, E2, E3. simpl Py.orelse. rewrite !bind_ret.
  do 3 eexists. reflexivity.
Qed.

End HdiFacts.

Section HdiTheorems.
Local Open Scope Q_scope.
Local Open Scope py_scope.

Variable de : optimiser.



(** The outcome of [sample_hdi] on validated inputs, in terms of the
    single-interval solution and of the optimiser's two intervals. *)
Lemma sample_hdi_outcome sample fraction :
  valid sample fraction ->
  exists r1,
    Py.outcome (single_interval (np.sort sample) (np.len (np.sort sample))
                  (window_length sample fraction))
      = inr (r1, snd r1 - fst r1) /\
    forall fs,
      Py.outcome (sample_hdi de sample fraction fs) =
      if fs then inr (Single r1)
      else match Py.outcome (double_interval de sample fraction) with
           | inl e => inl e
           | inr (I1, I2, w2) =>
               inr (if np.ltb w2 (np.mul (snd r1 - fst r1) (np.fl (99 # 100)))
                    then Double I1 I2 else Single r1)
           end.
Proof.
  intros Hv. pose proof (window_length_bounds Hv) as HL.
  set (s := np.sort sample). set (L := Z.to_nat (window_length sample fraction)).
  assert (HLn : (L < length s)%nat).
  { subst L s. rewrite sort_length. unfold np.len in HL. lia. }
  assert (HLz : window_length sample fraction = Z.of_nat L).
  { subst L. rewrite Z2Nat.id; lia. }
  destruct (single_interval_spec s HLn) as (i & Hi & Hmin & Hsi).
  exists (nth i s 0, nth (i + L) s 0). rewrite HLz, Hsi. split; [reflexivity |].
  intros fs. rewrite (sample_hdi_valid de fs Hv). fold s. rewrite HLz, Hsi.
  rewrite outcome_bind.
  replace (Py.outcome (if (np.len s - Z.of_nat L <? 20)%Z
                       then Py.warn msg_inaccurate else Py.ret tt))
    with (@inr Py.exn unit tt) by (destruct (_ <? _)%Z; reflexivity).
  rewrite bind_ret. destruct fs; [reflexivity |].
  rewrite outcome_bind.
  destruct (Py.outcome (double_interval de sample fraction))
    as [e | [[I1 I2] w2]]; [reflexivity |].
  unfold window. simpl fst. simpl snd.
  destruct (np.ltb w2 _); reflexivity.
Qed.

Lemma double_interval_width sample fraction I1 I2 w2 :
  Py.outcome (double_interval de sample fraction) = inr (I1, I2, w2) ->
  w2 = (snd I2 - fst I2) + (snd I1 - fst I1).
Proof.
  unfold double_interval. rewrite outcome_bind.
  destruct (Py.outcome (dbl_interval_length.init sample fraction))
    as [e | minfunc]; [discriminate |].
  rewrite outcome_bind.
  destruct (Py.outcome (dbl_interval_length.return_intervals _ _))
    as [e | [J1 J2]]; [discriminate |].
  simpl. intros H. injection H as <- <- <-. reflexivity.
Qed.

(** C2.  On validated inputs with [force_single] false, with [r1] of width
    [w1] the best single interval.  When [return_intervals] yields the two
    intervals [I1], [I2] of total width [w2], [sample_hdi] returns them if
    and only if [w2 < w1 * 0.99] (the product as the program rounds it),
    and returns [r1] if and only if not.  When [return_intervals] raises,
    which it does with [IndexError], [sample_hdi] raises it too and returns
    neither solution.  An answer of the optimiser that is feasible yields
    the two intervals. *)
Theorem sample_hdi_double_iff sample fraction :
  valid sample fraction ->
  exists r1 w1,
    Py.outcome (single_interval (np.sort sample) (np.len (np.sort sample))
                  (window_length sample fraction))
      = inr (r1, w1) /\
    w1 = snd r1 - fst r1 /\
    match Py.outcome (double_interval de sample fraction) with
    | inr (I1, I2, w2) =>
        w2 = (snd I2 - fst I2) + (snd I1 - fst I1) /\
        (Py.outcome (sample_hdi de sample fraction false) = inr (Double I1 I2)
         <-> w2 < np.mul w1 (np.fl (99 # 100))) /\
        (Py.outcome (sample_hdi de sample fraction false) = inr (Single r1)
         <-> ~ w2 < np.mul w1 (np.fl (99 # 100)))
    | inl e =>
        e = Py.IndexError /\
        Py.outcome (sample_hdi de sample fraction false) = inl Py.IndexError
    end /\
    ((np.len sample <= 2 ^ 53)%Z -> feasible de sample fraction ->
     exists I1 I2 w2,
       Py.outcome (double_interval de sample fraction) = inr (I1, I2, w2)).
Proof.
  intros Hv. destruct (sample_hdi_outcome Hv) as (r1 & Hs & Hgen).
  exists r1, (snd r1 - fst r1).
  split; [exact Hs | split; [reflexivity |]].
  split; [| intros Hsmall Hf; exact (@double_interval_feasible de _ _ Hv Hsmall Hf)].
  rewrite (Hgen false).
  destruct (Py.outcome (double_interval de sample fraction))
    as [e | [[I1 I2] w2]] eqn:Hd.
  - pose proof (double_interval_raises _ _ _ Hd) as ->. split; reflexivity.
  - split; [apply (double_interval_width _ _ Hd) |].
    destruct (np.ltb w2 _) eqn:E.
    + apply ltb_lt in E. split; split; intros H; try reflexivity; try assumption.
      * discriminate.
      * contradiction.
    + apply ltb_ge in E. split; split; intros H; try reflexivity.
      * discriminate.
      * lra.
      * lra.
Qed.

(** C8.  For a float [fraction], [sample_hdi] raises [ValueError] exactly
    when the fraction is not strictly between 0 and 1 or the sample has
    fewer than 2 elements.  The two checks come first: the run then
    consists of the exception alone (no warning has been emitted, the
    optimiser's answer plays no part), with the fraction checked before the
    sample; in particular the fractions 0 and 1 and a sample of length 1
    raise.  On validated inputs there is one more exception: [sample_hdi]
    raises exactly when [force_single] is false and [return_intervals]
    raises [IndexError], which it lacks the guard of [__call__] against;
    with [force_single], or with an answer of the optimiser that is
    feasible, nothing is raised. *)
Theorem sample_hdi_raises_iff sample fraction force_single :
  np.is_float fraction ->
  ((exists msg, Py.outcome (sample_hdi de sample fraction force_single)
                = inl (Py.ValueError msg))
   <-> ~ (0 < fraction /\ fraction < 1) \/ (length sample < 2)%nat) /\
  (~ (0 < fraction /\ fraction < 1) ->
   sample_hdi de sample fraction force_single
   = ([], inl (Py.ValueError msg_fraction))) /\
  (0 < fraction /\ fraction < 1 -> (length sample < 2)%nat ->
   sample_hdi de sample fraction force_single
   = ([], inl (Py.ValueError msg_sample))) /\
  (fraction == 0 \/ fraction == 1 \/ length sample = 1%nat ->
   Py.raises (sample_hdi de sample fraction force_single)) /\
  (valid sample fraction ->
   (Py.raises (sample_hdi de sample fraction force_single) <->
    force_single = false /\
    Py.outcome (double_interval de sample fraction) = inl Py.IndexError) /\
   (Py.raises (sample_hdi de sample fraction force_single) ->
    Py.outcome (sample_hdi de sample fraction force_single) = inl Py.IndexError)) /\
  (valid sample fraction -> (np.len sample <= 2 ^ 53)%Z ->
   force_single = true \/ feasible de sample fraction ->
   ~ Py.raises (sample_hdi de sample fraction force_single)).
Proof.
  intros Hfloat.
  assert (Hfrac : ~ (0 < fraction /\ fraction < 1) ->
                  sample_hdi de sample fraction force_single
                  = ([], inl (Py.ValueError msg_fraction))).
  { intros Hn. unfold sample_hdi.
    destruct (np.ltb 0 fraction && np.ltb fraction 1) eqn:E; [| reflexivity].
    apply andb_true_iff in E. rewrite !ltb_lt in E. contradiction. }
  assert (Hlen : 0 < fraction /\ fraction < 1 -> (length sample < 2)%nat ->
                 sample_hdi de sample fraction force_single
                 = ([], inl (Py.ValueError msg_sample))).
  { intros [H0 H1] Hn. unfold sample_hdi.
    apply ltb_lt in H0, H1. rewrite H0, H1. simpl negb. cbv iota.
    destruct (Z.ltb_spec (np.len sample) 2) as [_ | Hge]; [reflexivity |].
    unfold np.len in Hge. lia. }
  assert (Hval : valid sample fraction ->
                 forall e, Py.outcome (sample_hdi de sample fraction force_single) = inl e ->
                 force_single = false /\ e = Py.IndexError /\
                 Py.outcome (double_interval de sample fraction) = inl Py.IndexError).
  { intros Hv e He. destruct (sample_hdi_outcome Hv) as (r1 & _ & Hgen).
    rewrite Hgen in He. destruct force_single; [discriminate |].
    destruct (Py.outcome (double_interval de sample fraction))
      as [e' | [[I1 I2] w2]] eqn:Hd; [| destruct (np.ltb w2 _); discriminate].
    injection He as ->. pose proof (double_interval_raises _ _ _ Hd) as ->.
    auto. }
  assert (Hinv : ~ (0 < fraction /\ fraction < 1) \/ (length sample < 2)%nat ->
                 exists msg, Py.outcome (sample_hdi de sample fraction force_single)
                             = inl (Py.ValueError msg)).
  { intros [Hn | Hn].
    - exists msg_fraction. now rewrite Hfrac.
    - destruct (Qlt_le_dec 0 fraction) as [H0 | H0];
        [| exists msg_fraction; rewrite Hfrac; [reflexivity | intros [H _]; lra]].
      destruct (Qlt_le_dec fraction 1) as [H1 | H1];
        [| exists msg_fraction; rewrite Hfrac; [reflexivity | intros [_ H]; lra]].
      exists msg_sample. now rewrite Hlen. }
  assert (Hcases : valid sample fraction \/
                   (~ (0 < fraction /\ fraction < 1) \/ (length sample < 2)%nat)).
  { destruct (Qlt_le_dec 0 fraction) as [H0 | H0];
      [| right; left; intros [H _]; lra].
    destruct (Qlt_le_dec fraction 1) as [H1 | H1];
      [| right; left; intros [_ H]; lra].
    destruct (Nat.lt_ge_cases (length sample) 2) as [Hn | Hn];
      [right; right; exact Hn | left; repeat split; assumption]. }
  split; [| split; [exact Hfrac | split; [exact Hlen | split; [| split]]]].
  - split; [| exact Hinv].
    intros [msg Hm]. destruct Hcases as [Hv | Hi]; [exfalso | exact Hi].
    destruct (Hval Hv _ Hm) as (_ & Habs & _). discriminate.
  - intros Hedge. destruct (Hinv) as [msg Hm]; [| eexists; exact Hm].
    destruct Hedge as [E | [E | E]].
    + left. intros [H _]. rewrite E in H. apply (Qlt_irrefl 0), H.
    + left. intros [_ H]. rewrite E in H. apply (Qlt_irrefl 1), H.
    + right. lia.
  - intros Hv. split; [split |].
    + intros [e He]. destruct (Hval Hv e He) as (Hf & _ & Hd). auto.
    + intros [-> Hd]. destruct (sample_hdi_outcome Hv) as (r1 & _ & Hgen).
      exists Py.IndexError. rewrite Hgen, Hd. reflexivity.
    + intros [e He]. destruct (Hval Hv e He) as (_ & -> & _). exact He.
  - intros Hv Hsmall Hok [e He].
    destruct (Hval Hv e He) as (Hfs & _ & Hd).
    destruct Hok as [Hfs' | Hfeas]; [congruence |].
    destruct (@double_interval_feasible de _ _ Hv Hsmall Hfeas) as (I1 & I2 & w2 & Hd').
    congruence.
Qed.

Lemma sample_hdi_warnings sample fraction force_single :
  valid sample fraction ->
  Py.warnings (sample_hdi de sample fraction force_single) =
  if (np.len (np.sort sample) - window_length sample fraction <? 20)%Z
  then [msg_inaccurate] else [].
Proof.
  intros Hv. pose proof (window_length_bounds Hv) as HL.
  set (s := np.sort sample). set (L := Z.to_nat (window_length sample fraction)).
  assert (HLn : (L < length s)%nat).
  { subst L s. rewrite sort_length. unfold np.len in HL. lia. }
  assert (HLz : window_length sample fraction = Z.of_nat L).
  { subst L. rewrite Z2Nat.id; lia. }
  destruct (single_interval_spec s HLn) as (i & Hi & Hmin & Hsi).
  rewrite (sample_hdi_valid de force_single Hv). fold s. rewrite HLz, Hsi.
  rewrite warnings_bind, bind_ret.
  assert (Hrest : Py.warnings
            (if force_single then Py.ret (Single (nth i s 0, nth (i + L) s 0))
             else ' (I1, I2, w2) <- double_interval de sample fraction;;
                  (if np.ltb w2 (np.mul (window s L i) (np.fl (99 # 100)))
                   then Py.ret (Double I1 I2)
                   else Py.ret (Single (nth i s 0, nth (i + L) s 0)))) = []).
  { destruct force_single; [reflexivity |].
    rewrite warnings_bind, double_interval_silent.
    destruct (Py.outcome (double_interval de sample fraction))
      as [e | [[I1 I2] w2]]; [reflexivity |].
    destruct (np.ltb w2 _); reflexivity. }
  rewrite Hrest. destruct (_ <? _)%Z; reflexivity.
Qed.

(** C10.  On validated inputs [L = int(fraction * n)], the product rounded
    as the program rounds it, satisfies [0 <= L < n]: the test [n <= L]
    fails, the warning of insufficient
    samples is never emitted, the array of widths is not empty, and the
    indices [i] and [i + L] of the single-interval minimisation are inside
    the sorted sample, so that the minimisation returns its interval. *)
Theorem sample_hdi_window_in_bounds sample fraction force_single :
  valid sample fraction ->
  let s := np.sort sample in
  let n := np.len s in
  let L := np.int (np.mul fraction (np.float n)) in
  let widths := np.sub (np.slice_from s L) (np.slice_to s (n - L)) in
  (0 <= L < n)%Z /\
  (n <=? L)%Z = false /\
  ~ In msg_insufficient (Py.warnings (sample_hdi de sample fraction force_single)) /\
  (1 <= np.len widths)%Z /\
  exists i lo hi,
    np.argmin widths = Some i /\
    (0 <= Z.of_nat i)%Z /\ (Z.of_nat i + L < n)%Z /\
    np.getitem s (Z.of_nat i) = Some lo /\
    np.getitem s (Z.of_nat i + L) = Some hi /\
    single_interval s n L = Py.ret ((lo, hi), hi - lo).
Proof.
  intros Hv s n L widths. pose proof (window_length_bounds Hv) as HL.
  change (window_length sample fraction) with L in HL.
  assert (Hn : n = np.len sample) by (unfold n, s, np.len; now rewrite sort_length).
  rewrite <- Hn in HL.
  split; [exact HL |]. split; [apply Z.leb_gt; lia |].
  set (l := Z.to_nat L).
  assert (HLz : L = Z.of_nat l) by (subst l; rewrite Z2Nat.id; lia).
  assert (HLn : (l < length s)%nat) by (unfold n, np.len in HL; lia).
  split; [| split].
  - rewrite (sample_hdi_warnings force_single Hv).
    destruct (_ <? _)%Z; simpl; [| tauto].
    intros [H | []]. unfold msg_inaccurate, msg_insufficient in H. discriminate H.
  - destruct (widths_spec s HLn) as [Hlen _].
    fold n in Hlen. rewrite <- HLz in Hlen. fold widths in Hlen.
    unfold np.len. rewrite Hlen. lia.
  - destruct (widths_spec s HLn) as [Hlen Hnth].
    fold n in Hlen, Hnth. rewrite <- HLz in Hlen, Hnth. fold widths in Hlen, Hnth.
    destruct (@argmin_spec widths) as (i & Hi & Hlt & Hmin).
    { intros E. rewrite E in Hlen. simpl in Hlen. lia. }
    rewrite Hlen in Hlt.
    exists i, (nth i s 0), (nth (i + l) s 0).
    split; [exact Hi |]. split; [lia |]. split; [unfold n, np.len; lia |].
    split; [apply getitem_nth; lia |].
    split; [rewrite HLz, <- Nat2Z.inj_add; apply getitem_nth; lia |].
    unfold single_interval. fold widths. rewrite Hi.
    simpl Py.orelse. rewrite bind_ret.
    rewrite (getitem_nth s (i := i)) with (d := 0) by lia.
    simpl Py.orelse. rewrite bind_ret.
    rewrite HLz, <- Nat2Z.inj_add.
    rewrite (getitem_nth s (i := (i + l)%nat)) with (d := 0) by lia.
    simpl Py.orelse. rewrite bind_ret. reflexivity.
Qed.

End HdiTheorems.

Section HdiExamples.
Local Open Scope Q_scope.

Lemma valid_013 : valid [0; 1; 3] (1 # 2).
Proof. unfold valid, np.is_float. repeat split; simpl; lia. Qed.

(** The fraction [2/3] of a program is the double nearest to it. *)
Lemma valid_two_clusters : valid [3; 0; 1; 10; 11; 12] (np.fl (2 # 3)).
Proof.
  unfold valid, np.is_float.
  split; [vm_compute; reflexivity |].
  split; [vm_compute; reflexivity |].
  split; [vm_compute; reflexivity | simpl; lia].
Qed.

Lemma valid_constant : valid [1; 1; 1; 1; 1; 1; 1; 1] (1 # 2).
Proof. unfold valid, np.is_float. repeat split; simpl; lia. Qed.

Example sample_hdi_013 :
  sample_hdi (answer (1 # 2, 0, 0)) [0; 1; 3] (1 # 2) true
  = ([msg_inaccurate], inr (Single (0, 1))).
Proof. vm_compute. reflexivity. Qed.

Example sample_hdi_two_clusters :
  sample_hdi (answer (1 # 2, 0, 1)) [3; 0; 1; 10; 11; 12] (np.fl (2 # 3)) false
  = ([msg_inaccurate], inr (Double (0, 3) (10, 12))).
Proof. vm_compute. reflexivity. Qed.

(** The rounding of the product decides the window: [(2/3) * 6] is
    [3.9999999999999996] exactly and [4.0] as a double, [0.95 * 20] rounds
    up to [19.0], and [0.29 * 100] stays below 29. *)
Example window_length_rounding :
  window_length [3; 0; 1; 10; 11; 12] (np.fl (2 # 3)) = 4%Z /\
  Qfloor (np.fl (2 # 3) * 6) = 3%Z /\
  sample_hdi (answer (1 # 2, 0, 1)) [3; 0; 1; 10; 11; 12] (np.fl (2 # 3)) true
  = ([msg_inaccurate], inr (Single (0, 11))) /\
  np.int (np.mul (np.fl (95 # 100)) (np.float 20)) = 19%Z /\
  np.int (np.mul (np.fl (29 # 100)) (np.float 100)) = 28%Z.
Proof. repeat split; vm_compute; reflexivity. Qed.

End HdiExamples.



(** On the constant sample [[1] * 8] with the fraction [0.5] the objective
    is 0 everywhere; with the point [(0.5, 2.5, 2.5)] of the search box as
    the optimiser's answer, [return_intervals] reads [sample[8]]. *)
Lemma sample_hdi_double_iff_witness :
  valid [1; 1; 1; 1; 1; 1; 1; 1]%Q (1 # 2) /\
  let de := answer (1 # 2, 5 # 2, 5 # 2)%Q in
  let sample := [1; 1; 1; 1; 1; 1; 1; 1]%Q in
  exists r1 w1,
    Py.outcome (single_interval (np.sort sample) (np.len (np.sort sample))
                  (window_length sample (1 # 2)))
      = inr (r1, w1) /\
    w1 = (snd r1 - fst r1)%Q /\
    (Py.IndexError = Py.IndexError /\
     Py.outcome (sample_hdi de sample (1 # 2) false) = inl Py.IndexError) /\
    ((np.len sample <= 2 ^ 53)%Z -> feasible de sample (1 # 2) ->
     exists I1 I2 w2,
       Py.outcome (double_interval de sample (1 # 2)) = inr (I1, I2, w2)).
Proof.
  split; [exact valid_constant |].
  exact (sample_hdi_double_iff (answer (1 # 2, 5 # 2, 5 # 2)%Q) valid_constant).
Defined.

Lemma sample_hdi_raises_iff_witness :
  np.is_float (1 # 2) /\
  let de := answer (1 # 2, 5 # 2, 5 # 2)%Q in
  let sample := [1; 1; 1; 1; 1; 1; 1; 1]%Q in
  let fraction := (1 # 2)%Q in
  ((exists msg, Py.outcome (sample_hdi de sample fraction false)
                = inl (Py.ValueError msg))
   <-> ~ (0 < fraction /\ fraction < 1)%Q \/ (length sample < 2)%nat) /\
  (~ (0 < fraction /\ fraction < 1)%Q ->
   sample_hdi de sample fraction false
   = ([], inl (Py.ValueError msg_fraction))) /\
  ((0 < fraction /\ fraction < 1)%Q -> (length sample < 2)%nat ->
   sample_hdi de sample fraction false
   = ([], inl (Py.ValueError msg_sample))) /\
  ((fraction == 0)%Q \/ (fraction == 1)%Q \/ length sample = 1%nat ->
   Py.raises (sample_hdi de sample fraction false)) /\
  (valid sample fraction ->
   (Py.raises (sample_hdi de sample fraction false) <->
    false = false /\
    Py.outcome (double_interval de sample fraction) = inl Py.IndexError) /\
   (Py.raises (sample_hdi de sample fraction false) ->
    Py.outcome (sample_hdi de sample fraction false) = inl Py.IndexError)) /\
  (valid sample fraction -> (np.len sample <= 2 ^ 53)%Z ->
   false = true \/ feasible de sample fraction ->
   ~ Py.raises (sample_hdi de sample fraction false)).
Proof.
  assert (H : np.is_float (1 # 2)) by (vm_compute; reflexivity).
  split; [exact H |].
  exact (@sample_hdi_raises_iff (answer (1 # 2, 5 # 2, 5 # 2)%Q)
           [1; 1; 1; 1; 1; 1; 1; 1]%Q (1 # 2) false H).
Defined.

Lemma sample_hdi_window_in_bounds_witness :
  valid [0; 1; 3]%Q (1 # 2) /\
  let sample := [0; 1; 3]%Q in
  let s := np.sort sample in
  let n := np.len s in
  let L := np.int (np.mul (1 # 2) (np.float n)) in
  let widths := np.sub (np.slice_from s L) (np.slice_to s (n - L)) in
  (0 <= L < n)%Z /\
  (n <=? L)%Z = false /\
  ~ In msg_insufficient
      (Py.warnings (sample_hdi (answer (1 # 2, 0, 0)%Q) sample (1 # 2) false)) /\
  (1 <= np.len widths)%Z /\
  exists i lo hi,
    np.argmin widths = Some i /\
    (0 <= Z.of_nat i)%Z /\ (Z.of_nat i + L < n)%Z /\
    np.getitem s (Z.of_nat i) = Some lo /\
    np.getitem s (Z.of_nat i + L) = Some hi /\
    single_interval s n L = Py.ret ((lo, hi), (hi - lo)%Q).
Proof.
  split; [exact valid_013 |].
  exact (sample_hdi_window_in_bounds (answer (1 # 2, 0, 0)%Q) false valid_013).
Defined.

(* ================================================================== *)
(** * Part III: BinaryTree                                             *)
(* ================================================================== *)

(** ** The grid of [linspace] *)
Section Linspace.
Local Open Scope Q_scope.

Lemma qnat_add a b : qnat (a + b) == qnat a + qnat b.
Proof. unfold qnat. rewrite Nat2Z.inj_add, inject_Z_plus. reflexivity. Qed.

Lemma qnat_pos i : (0 < i)%nat -> 0 < qnat i.
Proof.
  intros H. unfold qnat. change 0 with (inject_Z 0). rewrite <- Zlt_Qlt. lia.
Qed.

Lemma qnat_lt i j : (i < j)%nat -> qnat i < qnat j.
Proof. intros H. unfold qnat. rewrite <- Zlt_Qlt. lia. Qed.

Lemma linspace_length lo hi num : length (np.linspace lo hi num) = num.
Proof.
  destruct num as [| [| div]]; [reflexivity | reflexivity |].
  unfold np.linspace. rewrite length_app, length_map, length_seq. simpl. lia.
Qed.

(** The [i]-th point is [lo + i * (hi - lo) / N]. *)
Lemma nth_map_seq {A} (f : nat -> A) N i d :
  (i < N)%nat -> nth i (map f (seq 0 N)) d = f i.
Proof.
  intros H. rewrite (nth_indep _ d (f 0%nat)) by (rewrite length_map, length_seq; lia).
  rewrite map_nth, seq_nth by lia. reflexivity.
Qed.

Lemma linspace_unfold lo hi N :
  (1 <= N)%nat ->
  np.linspace lo hi (N + 1) =
  map (fun i => qnat i * ((hi - lo) / qnat N) + lo) (seq 0 N) ++ [hi].
Proof.
  intros HN. replace (N + 1)%nat with (S N) by lia.
  destruct N as [| N']; [lia | reflexivity].
Qed.

Lemma linspace_nth lo hi N i :
  (1 <= N)%nat -> (i <= N)%nat ->
  nth i (np.linspace lo hi (N + 1)) 0 == lo + qnat i * ((hi - lo) / qnat N).
Proof.
  intros HN Hi. pose proof (qnat_pos HN) as HN'.
  rewrite linspace_unfold by exact HN.
  destruct (Nat.eq_dec i N) as [-> | Hne].
  - rewrite app_nth2 by (rewrite length_map, length_seq; lia).
    rewrite length_map, length_seq, Nat.sub_diag. simpl nth.
    field. intros E. rewrite E in HN'. apply (Qlt_irrefl 0), HN'.
  - rewrite app_nth1 by (rewrite length_map, length_seq; lia).
    rewrite nth_map_seq by lia. ring.
Qed.

Lemma linspace_last lo hi N :
  (1 <= N)%nat -> nth N (np.linspace lo hi (N + 1)) 0 = hi.
Proof.
  intros HN. rewrite linspace_unfold by exact HN.
  rewrite app_nth2 by (rewrite length_map, length_seq; lia).
  rewrite length_map, length_seq, Nat.sub_diag. reflexivity.
Qed.

Lemma linspace_mid lo hi N a d :
  (1 <= N)%nat -> (a + 2 * d < length (np.linspace lo hi (N + 1)))%nat ->
  nth a (np.linspace lo hi (N + 1)) 0 + nth (a + 2 * d) (np.linspace lo hi (N + 1)) 0
  == 2 * nth (a + d) (np.linspace lo hi (N + 1)) 0.
Proof.
  intros HN H. rewrite linspace_length in H.
  rewrite !linspace_nth by lia.
  replace (a + 2 * d)%nat with (a + d + d)%nat by lia.
  rewrite !qnat_add. ring.
Qed.

Lemma linspace_increasing lo hi N i j :
  lo < hi -> (1 <= N)%nat -> (i < j)%nat -> (j <= N)%nat ->
  nth i (np.linspace lo hi (N + 1)) 0 < nth j (np.linspace lo hi (N + 1)) 0.
Proof.
  intros Hlh HN Hij Hj. rewrite !linspace_nth by lia.
  pose proof (qnat_pos HN) as HN'. pose proof (qnat_lt Hij) as Hq.
  assert (Hstep : 0 < (hi - lo) / qnat N).
  { apply Qlt_shift_div_l; [exact HN' | lra]. }
  nra.
Qed.

End Linspace.

(** ** BinaryTree over an evenly spaced grid *)
Section GridTree.
Import BinaryTree.
Local Open Scope Q_scope.
Local Open Scope py_scope.

(** The grid [P] of bucket boundaries and what the proof needs of it: equal
    spacing. *)
Variable P : list Q.

Definition grid (i : nat) : Q := nth i P 0.

Hypothesis grid_mid : forall a d,
  (a + 2 * d < length P)%nat -> grid a + grid (a + 2 * d) == 2 * grid (a + d).

(** The leaf of bucket [i]. *)
Definition leaf (i : nat) : pyval :=
  Lst [Num (grid i); Num (grid (i + 1)); Num ((1 # 2) * (grid i + grid (i + 1)))].

(** [perfect k a v]: [v] is the complete tree of depth [k] over the buckets
    [a .. a + 2^k - 1], each inner node keyed by the boundary between its
    two halves. *)
Fixpoint perfect (k a : nat) (v : pyval) : Prop :=
  match k with
  | O => v = leaf a /\ (a + 1 < length P)%nat
  | S k' =>
      exists l r key,
        v = Lst [l; r; Num key] /\
        perfect k' a l /\ perfect k' (a + 2 ^ k') r /\
        key == (1 # 2) * (grid a + grid (a + 2 ^ k))
  end.

Lemma perfect_bound k : forall a v,
  perfect k a v -> (a + 2 ^ k < length P)%nat.
Proof.
  induction k as [| k IH]; intros a v H; simpl in *.
  - destruct H as [_ H]. lia.
  - destruct H as (l & r & key & _ & _ & Hr & _). apply IH in Hr. lia.
Qed.

Lemma perfect_key k a v :
  perfect k a v ->
  exists key, Py.bind (item v 2) number = Py.ret key /\
              key == (1 # 2) * (grid a + grid (a + 2 ^ k)).
Proof.
  destruct k as [| k]; simpl.
  - intros [-> _]. eexists. split; [reflexivity |]. rewrite Nat.add_comm. reflexivity.
  - intros (l & r & key & -> & _ & _ & Hk). exists key. split; [reflexivity | exact Hk].
Qed.

(** The key of an inner node is the boundary between its halves. *)
Lemma perfect_split k a l r key :
  perfect (S k) a (Lst [l; r; Num key]) ->
  perfect k a l /\ perfect k (a + 2 ^ k) r /\ key == grid (a + 2 ^ k).
Proof.
  intros H. pose proof (perfect_bound _ _ _ H) as Hb.
  simpl in H. destruct H as (l' & r' & key' & E & Hl & Hr & Hk).
  injection E as <- <- <-. split; [exact Hl | split; [exact Hr |]].
  rewrite Hk. simpl in Hb.
  pose proof (grid_mid a (2 ^ k)) as Hm.
  replace (a + 2 * 2 ^ k)%nat with (a + 2 ^ S k)%nat in Hm by (simpl; lia).
  rewrite Hm by (simpl; lia). field.
Qed.

(** A row of the merge loop: consecutive complete trees of depth [k]. *)
Fixpoint row (k a : nat) (T : list pyval) : Prop :=
  match T with
  | [] => True
  | v :: T' => perfect k a v /\ row k (a + 2 ^ k) T'
  end.

Lemma pair_induction {A} (Q : list A -> Prop) :
  Q [] -> (forall x, Q [x]) -> (forall x y l, Q l -> Q (x :: y :: l)) ->
  forall l, Q l.
Proof.
  intros H0 H1 H2 l.
  assert (H : Q l /\ forall x, Q (x :: l)).
  { induction l as [| y l [IH1 IH2]]; split; auto. }
  exact (proj1 H).
Qed.

Lemma merge_row k T : forall a,
  row k a T ->
  exists T', merge T = Py.ret T' /\
             length T' = (length T / 2)%nat /\ row (S k) a T'.
Proof.
  induction T as [| x | x y T IH] using pair_induction; intros a HT.
  - exists []. repeat split.
  - exists []. repeat split.
  - destruct HT as (Hx & Hy & HT).
    destruct (perfect_key _ _ _ Hx) as (kx & Ex & Hkx).
    destruct (perfect_key _ _ _ Hy) as (ky & Ey & Hky).
    replace (a + 2 ^ k + 2 ^ k)%nat with (a + 2 ^ S k)%nat in * by (simpl; lia).
    destruct (IH _ HT) as (T' & ET & HlenT & HrowT).
    exists (Lst [x; y; Num ((1 # 2) * (kx + ky))] :: T').
    split; [| split].
    + cbn [merge]. rewrite Ex, bind_ret, Ey, bind_ret, ET, bind_ret. reflexivity.
    + cbn [length]. rewrite HlenT.
      change (S (S (length T))) with (2 + length T)%nat.
      replace (2 + length T)%nat with (length T + 1 * 2)%nat by lia.
      rewrite Nat.div_add by lia. lia.
    + split; [| exact HrowT].
      cbn [perfect]. exists x, y, ((1 # 2) * (kx + ky)).
      split; [reflexivity |]. split; [exact Hx |]. split; [exact Hy |].
      rewrite Hkx, Hky.
      pose proof (perfect_bound _ _ _ Hy) as Hb.
      pose proof (grid_mid a (2 ^ k)) as Hm.
      replace (a + 2 * 2 ^ k)%nat with (a + 2 ^ S k)%nat in Hm by (simpl; lia).
      assert (Hm' : grid (a + 2 ^ k) == (1 # 2) * (grid a + grid (a + 2 ^ S k))).
      { rewrite Hm by (simpl in *; lia). field. }
      replace (a + 2 ^ k + 2 ^ k)%nat with (a + 2 ^ S k)%nat by (simpl; lia).
      rewrite Hm'. field.
Qed.

Lemma merge_rounds_row r : forall k T a,
  row k a T ->
  exists T', merge_rounds r T = Py.ret T' /\
             length T' = (length T / 2 ^ r)%nat /\ row (r + k) a T'.
Proof.
  induction r as [| r IH]; intros k T a HT.
  - exists T. split; [reflexivity | split; [| exact HT]].
    change (2 ^ 0)%nat with 1%nat. now rewrite Nat.div_1_r.
  - destruct (merge_row _ _ _ HT) as (T1 & E1 & Hlen1 & Hrow1).
    destruct (IH _ _ _ Hrow1) as (T2 & E2 & Hlen2 & Hrow2).
    exists T2. split; [| split].
    + cbn [merge_rounds]. rewrite E1, bind_ret. exact E2.
    + rewrite Hlen2, Hlen1. rewrite Nat.Div0.div_div. simpl. reflexivity.
    + replace (S r + k)%nat with (r + S k)%nat by lia. exact Hrow2.
Qed.

Lemma leaves_row : forall L a,
  skipn a P = L -> row 0 a (leaves L).
Proof.
  induction L as [| x L IH]; intros a HL; [exact I |].
  destruct L as [| y L]; [exact I |].
  cbn [leaves row].
  assert (Hlen : (a + 1 < length P)%nat).
  { apply (f_equal (@length Q)) in HL. rewrite length_skipn in HL. simpl in HL. lia. }
  assert (Hx : grid a = x).
  { unfold grid. rewrite <- (Nat.add_0_r a), <- nth_skipn, HL. reflexivity. }
  assert (Hy : grid (a + 1) = y).
  { unfold grid. rewrite <- nth_skipn, HL. reflexivity. }
  split.
  - split; [| exact Hlen]. unfold leaf. rewrite Hx, Hy. reflexivity.
  - apply IH. simpl. replace (a + 1)%nat with (S a) by lia.
    rewrite <- (skipn_skipn 1 a P) at 1. simpl. rewrite HL. reflexivity.
Qed.

(** The descent ends in the leaf [c] with [grid c < x <= grid (c+1)], cut
    off at the two ends of the tree's range. *)
Lemma descend_perfect x k : forall a v,
  perfect k a v ->
  exists c, (a <= c < a + 2 ^ k)%nat /\
            descend k x v = Py.ret (leaf c) /\
            ((a < c)%nat -> grid c < x) /\
            ((c + 1 < a + 2 ^ k)%nat -> x <= grid (c + 1)).
Proof.
  induction k as [| k IH]; intros a v Hv.
  - destruct Hv as [-> _]. exists a. simpl. repeat split; lia.
  - pose proof Hv as Hv'. simpl in Hv'. destruct Hv' as (l & r & key & -> & _).
    destruct (perfect_split Hv) as (Hl & Hr & Hkey).
    cbn [descend]. unfold step.
    change (Py.bind (item (Lst [l; r; Num key]) 2) number) with (Py.ret key).
    rewrite bind_ret.
    destruct (np.ltb key x) eqn:E.
    + apply ltb_lt in E. destruct (IH _ _ Hr) as (c & Hc & Ed & Hlo & Hhi).
      exists c. split; [simpl; lia |]. split; [| split].
      * change (item (Lst [l; r; Num key]) 1) with (Py.ret r).
        rewrite bind_ret. exact Ed.
      * intros Hac. destruct (Nat.eq_dec c (a + 2 ^ k)) as [-> | Hne].
        -- rewrite <- Hkey. exact E.
        -- apply Hlo. lia.
      * intros Hc1. apply Hhi. simpl in Hc1. lia.
    + apply ltb_ge in E. destruct (IH _ _ Hl) as (c & Hc & Ed & Hlo & Hhi).
      exists c. split; [simpl; lia |]. split; [| split].
      * change (item (Lst [l; r; Num key]) 0) with (Py.ret l).
        rewrite bind_ret. exact Ed.
      * exact Hlo.
      * intros Hc1. destruct (Nat.eq_dec (c + 1) (a + 2 ^ k)) as [-> | Hne].
        -- rewrite <- Hkey. exact E.
        -- apply Hhi. lia.
Qed.

End GridTree.

Section LookupFacts.
Import BinaryTree.
Local Open Scope Q_scope.
Local Open Scope py_scope.

Lemma leaves_length L : length (leaves L) = (length L - 1)%nat.
Proof.
  induction L as [| x L IH]; [reflexivity |].
  destruct L as [| y L]; [reflexivity |].
  cbn [leaves length] in *. lia.
Qed.

Lemma leaves_nth L : forall i,
  (i + 1 < length L)%nat ->
  nth_error (leaves L) i = Some (leaf L i).
Proof.
  induction L as [| x L IH]; intros i Hi; [simpl in Hi; lia |].
  destruct L as [| y L]; [simpl in Hi; lia |].
  destruct i as [| i].
  - reflexivity.
  - cbn [leaves nth_error]. rewrite IH by (simpl in *; lia). reflexivity.
Qed.

Lemma find_first {A} (f : A -> bool) d : forall l c,
  (c < length l)%nat ->
  (forall j, (j < c)%nat -> f (nth j l d) = false) ->
  f (nth c l d) = true ->
  find f l = Some (nth c l d).
Proof.
  induction l as [| y l IH]; intros c Hc Hbefore Hat; [simpl in Hc; lia |].
  destruct c as [| c]; simpl in *.
  - now rewrite Hat.
  - rewrite (Hbefore 0%nat) by lia. apply IH; [lia | | exact Hat].
    intros j Hj. apply (Hbefore (S j)). lia.
Qed.

(** The tree built for [layers >= 1] and where its descent ends. *)
Lemma init_descend layers lo hi x :
  (1 <= layers)%Z -> lo < hi ->
  let N := (2 ^ Z.to_nat layers)%nat in
  let P := np.linspace lo hi (N + 1) in
  exists self c,
    init layers (lo, hi) = Py.ret self /\
    (c < N)%nat /\
    lookup self x = Py.ret (leaf P c) /\
    ((0 < c)%nat -> grid P c < x) /\
    ((c + 1 < N)%nat -> x <= grid P (c + 1)).
Proof.
  intros Hl Hlh N P.
  set (n := Z.to_nat layers). assert (Hn : (1 <= n)%nat) by lia.
  assert (HN : (1 <= N)%nat).
  { unfold N. fold n. pose proof (Nat.pow_nonzero 2 n). lia. }
  assert (Hmid : forall a d, (a + 2 * d < length P)%nat ->
                 grid P a + grid P (a + 2 * d) == 2 * grid P (a + d)).
  { intros a d H. apply linspace_mid; assumption. }
  assert (Hrow0 : row P 0 0 (leaves P)) by (apply leaves_row; reflexivity).
  destruct (@merge_rounds_row P Hmid (n - 1) 0 (leaves P) 0 Hrow0)
    as (T & ET & HlenT & HrowT).
  rewrite leaves_length in HlenT. unfold P in HlenT at 1.
  rewrite linspace_length in HlenT.
  assert (HN2 : N = (2 * 2 ^ (n - 1))%nat).
  { unfold N. fold n. replace n with (S (n - 1)) at 1 by lia. reflexivity. }
  replace (N + 1 - 1)%nat with (2 * 2 ^ (n - 1))%nat in HlenT by lia.
  rewrite Nat.div_mul in HlenT by (apply Nat.pow_nonzero; lia).
  destruct T as [| l [| r [| ? ?]]]; try discriminate HlenT.
  rewrite Nat.add_0_r in HrowT. destruct HrowT as (Hpl & Hpr & _).
  set (midpoint := (1 # 2) * (lo + hi)).
  assert (Hroot : perfect P n 0 (Lst [l; r; Num midpoint])).
  { replace n with (S (n - 1)) by lia. cbn [perfect].
    exists l, r, midpoint. split; [reflexivity |].
    split; [exact Hpl | split; [exact Hpr |]].
    replace (S (n - 1)) with n by lia. simpl Nat.add. fold N.
    unfold grid, P. rewrite linspace_last by exact HN.
    rewrite linspace_nth by lia. unfold midpoint, qnat. simpl. field.
    pose proof (qnat_pos HN) as HN'. unfold qnat in HN'.
    intros E. rewrite E in HN'. apply (Qlt_irrefl 0), HN'. }
  destruct (@descend_perfect P Hmid x n 0 _ Hroot) as (c & Hc & Ed & Hlo & Hhi).
  eexists. exists c. split; [| split; [| split; [| split]]].
  - unfold init. destruct (Z.ltb_spec layers 0) as [? | _]; [lia |].
    cbn [fst snd]. change (np.linspace lo hi (2 ^ Z.to_nat layers + 1)) with P.
    replace (Z.to_nat (layers - 1)) with (n - 1)%nat by lia.
    rewrite ET, bind_ret. reflexivity.
  - simpl in Hc. unfold N. fold n. lia.
  - unfold lookup. cbn [BinaryTree.n tree]. fold n. exact Ed.
  - exact Hlo.
  - intros H. apply Hhi. simpl. unfold N in H. fold n in H. exact H.
Qed.

Lemma contains_leaf P x c :
  contains x (leaf P c) = true <-> grid P c <= x /\ x <= grid P (c + 1).
Proof.
  unfold contains, leaf. rewrite andb_true_iff, !leb_le. reflexivity.
Qed.

(** For [layers >= 1] and [lo < hi]: construction succeeds, there are
    [2^layers] buckets, [lookup(x)] returns the bucket a linear scan finds
    (the first whose closed interval holds [x]) when [lo <= x <= hi], the
    first bucket when [x < lo] and the last one when [hi < x].  This is a
    fact of the exact arithmetic of the model, in which the split keys
    [0.5 * (lo + hi)] are the grid points of [linspace]. *)
Theorem lookup_linear_scan layers lo hi x :
  (1 <= layers)%Z -> lo < hi ->
  let B := buckets layers lo hi in
  exists self,
    init layers (lo, hi) = Py.ret self /\
    length B = (2 ^ Z.to_nat layers)%nat /\
    (lo <= x /\ x <= hi ->
     exists b, linear_scan B x = Some b /\ lookup self x = Py.ret b) /\
    (x < lo ->
     exists b, nth_error B 0 = Some b /\ lookup self x = Py.ret b) /\
    (hi < x ->
     exists b, nth_error B (length B - 1) = Some b /\ lookup self x = Py.ret b).
Proof.
  intros Hl Hlh B.
  destruct (init_descend x Hl Hlh) as (self & c & Ei & Hc & El & Hlo & Hhi).
  set (N := (2 ^ Z.to_nat layers)%nat) in *.
  set (P := np.linspace lo hi (N + 1)) in *.
  assert (HN : (1 <= N)%nat) by lia.
  assert (HlenP : length P = (N + 1)%nat) by apply linspace_length.
  assert (HlenB : length B = N).
  { unfold B, buckets. fold N. fold P. rewrite leaves_length. lia. }
  assert (Hnth : forall j, (j < N)%nat -> nth_error B j = Some (leaf P j)).
  { intros j Hj. apply leaves_nth. lia. }
  assert (Hinc : forall i j, (i < j)%nat -> (j <= N)%nat -> grid P i < grid P j).
  { intros i j Hij Hj. apply linspace_increasing; assumption. }
  assert (H0 : grid P 0 == lo).
  { unfold grid, P. rewrite linspace_nth by lia. unfold qnat. simpl. ring. }
  assert (HNhi : grid P N = hi) by (apply linspace_last; exact HN).
  exists self. split; [exact Ei |]. split; [exact HlenB |].
  split; [| split].
  - intros [Hx0 Hx1]. exists (leaf P c). split; [| exact El].
    unfold linear_scan.
    rewrite <- (nth_error_nth B c (Num 0) (Hnth c Hc)).
    apply find_first.
    + lia.
    + intros j Hj. rewrite (nth_error_nth B j (Num 0) (Hnth j ltac:(lia))).
      apply not_true_iff_false. rewrite contains_leaf. intros [_ Hle].
      assert (grid P (j + 1) <= grid P c).
      { destruct (Nat.eq_dec (j + 1) c) as [-> | Hne]; [apply Qle_refl |].
        apply Qlt_le_weak, Hinc; lia. }
      specialize (Hlo ltac:(lia)). lra.
    + rewrite (nth_error_nth B c (Num 0) (Hnth c Hc)). apply contains_leaf. split.
      * destruct c as [| c']; [lra |]. apply Qlt_le_weak, Hlo. lia.
      * destruct (Nat.eq_dec (c + 1) N) as [E | Hne].
        -- rewrite E, HNhi. exact Hx1.
        -- apply Hhi. lia.
  - intros Hx. exists (leaf P c).
    assert (c = 0%nat) as ->.
    { destruct c as [| c']; [reflexivity | exfalso].
      specialize (Hlo ltac:(lia)).
      pose proof (Hinc 0%nat (S c') ltac:(lia) ltac:(lia)). lra. }
    split; [apply Hnth; lia | exact El].
  - intros Hx. exists (leaf P c).
    assert (c = (N - 1)%nat) as ->.
    { destruct (Nat.eq_dec c (N - 1)) as [E | Hne]; [exact E | exfalso].
      specialize (Hhi ltac:(lia)).
      assert (grid P (c + 1) <= grid P N).
      { destruct (Nat.eq_dec (c + 1) N) as [-> | Hne']; [apply Qle_refl |].
        apply Qlt_le_weak, Hinc; lia. }
      rewrite HNhi in *. lra. }
    rewrite HlenB. split; [apply Hnth; lia | exact El].
Qed.

(** The buckets are the [2^layers] equal parts of [[lo, hi]]. *)
Lemma buckets_equal_width layers lo hi i :
  (0 <= layers)%Z -> (i < 2 ^ Z.to_nat layers)%nat ->
  let w := (hi - lo) / qnat (2 ^ Z.to_nat layers) in
  exists a b m,
    nth_error (buckets layers lo hi) i = Some (Lst [Num a; Num b; Num m]) /\
    a == lo + qnat i * w /\ b == lo + qnat (i + 1) * w /\
    m == (a + b) / 2.
Proof.
  intros Hl Hi w. set (N := (2 ^ Z.to_nat layers)%nat) in *.
  assert (HN : (1 <= N)%nat) by lia.
  set (P := np.linspace lo hi (N + 1)).
  exists (grid P i), (grid P (i + 1)), ((1 # 2) * (grid P i + grid P (i + 1))).
  split; [| split; [| split]].
  - unfold buckets. fold N. fold P. apply leaves_nth.
    unfold P. rewrite linspace_length. lia.
  - unfold grid, P. rewrite linspace_nth by lia. reflexivity.
  - unfold grid, P. rewrite linspace_nth by lia. reflexivity.
  - field.
Qed.

End LookupFacts.

Lemma lookup_linear_scan_witness :
  (1 <= 2)%Z /\ (0 < 1)%Q /\
  let B := buckets 2 0 1 in
  exists self,
    BinaryTree.init 2 (0, 1)%Q = Py.ret self /\
    length B = (2 ^ Z.to_nat 2)%nat /\
    ((0 <= 3 # 5 /\ 3 # 5 <= 1)%Q ->
     exists b, linear_scan B (3 # 5) = Some b /\
               BinaryTree.lookup self (3 # 5) = Py.ret b) /\
    ((3 # 5 < 0)%Q ->
     exists b, nth_error B 0 = Some b /\ BinaryTree.lookup self (3 # 5) = Py.ret b) /\
    ((1 < 3 # 5)%Q ->
     exists b, nth_error B (length B - 1) = Some b /\
               BinaryTree.lookup self (3 # 5) = Py.ret b).
Proof.
  split; [lia |]. split; [reflexivity |].
  apply (@lookup_linear_scan 2 0 1 (3 # 5)); [lia | reflexivity].
Defined.

(* ================================================================== *)
(** * Part IV: the slice map of GaussianKDE                            *)
(* ================================================================== *)

Section KdeFacts.
Import BinaryTree.
Local Open Scope Q_scope.
Local Open Scope py_scope.

(** [searchsorted] on a sorted array counts the elements below [v]. *)
Lemma searchsorted1_spec s v : StronglySorted Qle s ->
  forall j, (j < length s)%nat ->
            ((j < np.searchsorted1 s v)%nat <-> nth j s 0 < v).
Proof.
  induction 1 as [| x l Hl IH Hx]; intros j Hj; simpl in Hj; [lia |].
  cbn [np.searchsorted1]. destruct (np.ltb x v) eqn:E.
  - apply ltb_lt in E. destruct j as [| j]; simpl.
    + split; [intros _; exact E | lia].
    + rewrite <- IH by lia. lia.
  - apply ltb_ge in E. split; [lia |]. intros Hlt. exfalso.
    destruct j as [| j]; simpl in Hlt; [lra |].
    rewrite Forall_forall in Hx.
    assert (x <= nth j l 0) by (apply Hx, nth_In; lia). lra.
Qed.

Lemma searchsorted1_le s v : (np.searchsorted1 s v <= length s)%nat.
Proof.
  induction s as [| x s IH]; simpl; [lia |]. destruct (np.ltb x v); simpl; lia.
Qed.

(** A dictionary zipped from increasing keys returns the value paired with
    the key asked for. *)
Lemma dict_get_none keys vals k :
  Forall (fun k' => ~ k' == k) keys ->
  GaussianKDE.dict_get (GaussianKDE.dict_zip keys vals) k = None.
Proof.
  unfold GaussianKDE.dict_zip. revert vals.
  induction keys as [| k' keys IH]; intros vals Hne; [reflexivity |].
  destruct vals as [| v vals]; [reflexivity |].
  inversion Hne as [| ? ? Hk Hrest]; subst. cbn [combine GaussianKDE.dict_get].
  rewrite IH by exact Hrest.
  destruct (Qeq_bool k' k) eqn:E; [| reflexivity].
  apply Qeq_bool_iff in E. contradiction.
Qed.

Lemma dict_get_zip keys : forall vals i k v,
  StronglySorted Qlt keys ->
  nth_error keys i = Some k -> nth_error vals i = Some v ->
  forall k', k' == k ->
  GaussianKDE.dict_get (GaussianKDE.dict_zip keys vals) k' = Some v.
Proof.
  induction keys as [| k0 keys IH]; intros vals i k v Hs Hk Hv k' Hk';
    [destruct i; discriminate |].
  destruct vals as [| v0 vals]; [destruct i; discriminate |].
  inversion Hs as [| ? ? Hs' Hlt]; subst.
  unfold GaussianKDE.dict_zip in *. cbn [combine GaussianKDE.dict_get].
  destruct i as [| i]; simpl in Hk, Hv.
  - injection Hk as ->. injection Hv as ->.
    fold (GaussianKDE.dict_zip keys vals).
    rewrite dict_get_none.
    + assert (E : Qeq_bool k k' = true) by (apply Qeq_bool_iff; symmetry; exact Hk').
      now rewrite E.
    + eapply Forall_impl; [| exact Hlt]. intros a Ha Habs. rewrite Hk' in Habs.
      rewrite Habs in Ha. apply (Qlt_irrefl k), Ha.
  - rewrite (IH vals i k v Hs' Hk Hv k' Hk'). reflexivity.
Qed.

(** The midpoints [0.5*(L[1:] + L[:-1])] of a grid [L]. *)
Lemma midpoints_nth L i :
  (i + 1 < length L)%nat ->
  nth_error (np.scale (1 # 2) (np.add (np.slice_from L 1) (np.slice_to L (-1)))) i
  = Some ((1 # 2) * (nth (i + 1) L 0 + nth i L 0)).
Proof.
  intros Hi. unfold np.scale, np.slice_from, np.slice_to.
  change 1%Z with (Z.of_nat 1). rewrite clip_nat.
  assert (Hclip : np.clip L (-1) = (length L - 1)%nat).
  { unfold np.clip, np.len. change (-1 <? 0)%Z with true. cbv iota zeta. lia. }
  rewrite Hclip, Nat.min_l by lia.
  apply map_nth_error.
  assert (Hgen : forall a b j, (j < length a)%nat -> (j < length b)%nat ->
            nth_error (np.add a b) j = Some (nth j a 0 + nth j b 0)).
  { induction a as [| x a IH]; intros [| y b] [| j]; simpl; intros; try lia; auto.
    apply IH; lia. }
  rewrite Hgen.
  - rewrite nth_skipn, nth_firstn.
    destruct (Nat.ltb_spec i (length L - 1)); [| lia].
    now rewrite (Nat.add_comm 1 i).
  - rewrite length_skipn. lia.
  - rewrite length_firstn. lia.
Qed.

Lemma add_length a b : length (np.add a b) = Nat.min (length a) (length b).
Proof.
  revert b. induction a as [| x a IH]; intros [| y b]; simpl; auto.
Qed.

Lemma midpoints_length L :
  length (np.scale (1 # 2) (np.add (np.slice_from L 1) (np.slice_to L (-1))))
  = (length L - 1)%nat.
Proof.
  unfold np.scale, np.slice_from, np.slice_to.
  rewrite length_map, add_length, length_skipn, length_firstn.
  change 1%Z with (Z.of_nat 1). rewrite clip_nat.
  assert (Hclip : np.clip L (-1) = (length L - 1)%nat).
  { unfold np.clip, np.len. change (-1 <? 0)%Z with true. cbv iota zeta. lia. }
  rewrite Hclip. lia.
Qed.

Lemma sorted_of_nth l :
  (forall i j, (i < j)%nat -> (j < length l)%nat -> nth i l 0 < nth j l 0) ->
  StronglySorted Qlt l.
Proof.
  induction l as [| x l IH]; intros H; constructor.
  - apply IH. intros i j Hij Hj. apply (H (S i) (S j)); simpl; lia.
  - apply Forall_nth. intros j d Hj. rewrite (nth_indep _ d 0) by exact Hj.
    apply (H 0%nat (S j)); simpl; lia.
Qed.

(** [2 ** (int(log2 x) + 1)] exceeds [x]. *)
Lemma int_log2_spec x l :
  GaussianKDE.int_log2 x = Py.ret l -> (0 <= l + 1)%Z ->
  0 < x /\ x < qnat (2 ^ Z.to_nat (l + 1)).
Proof.
  unfold GaussianKDE.int_log2. intros H Hl.
  destruct (np.ltb x 0); [discriminate |].
  destruct (np.leb x 0) eqn:E0; [discriminate |].
  apply not_true_iff_false in E0. rewrite leb_le in E0.
  assert (Hx : 0 < x) by lra. split; [exact Hx |].
  assert (Hq : qnat (2 ^ Z.to_nat (l + 1)) = inject_Z (2 ^ (l + 1))).
  { unfold qnat. rewrite Nat2Z.inj_pow, Z2Nat.id by lia. reflexivity. }
  rewrite Hq.
  destruct (np.leb 1 x) eqn:E1.
  - apply leb_le in E1. unfold Py.ret in H. injection H as <-.
    assert (Hf : (1 <= Qfloor x)%Z).
    { change 1%Z with (Qfloor 1). apply Qfloor_resp_le, E1. }
    pose proof (Z.log2_spec (Qfloor x) ltac:(lia)) as [_ Hup].
    apply Qlt_le_trans with (inject_Z (Qfloor x + 1)); [apply Qlt_floor |].
    rewrite <- Zle_Qle. unfold Z.succ in Hup. lia.
  - apply not_true_iff_false in E1. rewrite leb_le in E1.
    apply Qlt_le_trans with 1; [lra |].
    change 1 with (inject_Z 1). rewrite <- Zle_Qle.
    pose proof (Z.pow_pos_nonneg 2 (l + 1) ltac:(lia) Hl). lia.
Qed.

Lemma combine_nth_error {A B} (a : list A) : forall (b : list B) i x y,
  nth_error a i = Some x -> nth_error b i = Some y ->
  nth_error (combine a b) i = Some (x, y).
Proof.
  induction a as [| x0 a IH]; intros [| y0 b] [| i] x y Ha Hb;
    simpl in *; try discriminate.
  - congruence.
  - apply IH; assumption.
Qed.

(** C4 (amended).  After construction, for every bucket [[lo, hi]] of the
    partition with midpoint [mid], the slice [(l, u)] stored in [slice_map]
    under [mid] holds exactly the indices [j] of the sorted sample with
    [mid - cutoff <= s[j] < mid + cutoff], where [cutoff = 4 h]: the samples
    within [cutoff] of the midpoint.  The bucket is narrower than the
    bandwidth, and for every point [x] of the bucket every sample closer to
    [x] than [cutoff - (hi - lo)/2] is in the slice, so the kernel sum over
    the slice leaves out only samples farther from [x] than that. *)
Theorem slice_map_invariant sample h self i :
  0 < h ->
  GaussianKDE.init sample h = Py.ret self ->
  let layers := BinaryTree.n (GaussianKDE.tree self) in
  let lims := BinaryTree.lims (GaussianKDE.tree self) in
  let s := GaussianKDE.s self in
  let cutoff := GaussianKDE.cutoff self in
  (i < 2 ^ Z.to_nat layers)%nat ->
  exists lo hi mid l u,
    nth_error (buckets layers (fst lims) (snd lims)) i
      = Some (Lst [Num lo; Num hi; Num mid]) /\
    GaussianKDE.dict_get (GaussianKDE.slice_map self) mid = Some (l, u) /\
    s = np.sort sample /\ cutoff = h * 4 /\
    (forall j, (j < length s)%nat ->
       ((l <= j < u)%nat <-> mid - cutoff <= nth j s 0 /\ nth j s 0 < mid + cutoff)) /\
    mid == (lo + hi) / 2 /\ hi - lo < h /\
    (forall x j, lo <= x /\ x <= hi -> (j < length s)%nat ->
       x - (cutoff - (hi - lo) / 2) < nth j s 0 /\
       nth j s 0 < x + (cutoff - (hi - lo) / 2) ->
       (l <= j < u)%nat).
Proof.
  intros Hh Hinit layers lims s cutoff Hi.
  unfold GaussianKDE.init in Hinit.
  bind_inv Hinit as s0 Hs0. bind_inv Hinit as s1 Hs1. bind_inv Hinit as lg Hlg.
  destruct (Z.ltb_spec (lg + 1) 0) as [? | Hn]; [discriminate |].
  bind_inv Hinit as tree Htree.
  unfold Py.ret in Hinit. injection Hinit as <-.
  assert (Htn : BinaryTree.n tree = (lg + 1)%Z /\ BinaryTree.lims tree = (s0, s1)).
  { unfold BinaryTree.init in Htree.
    destruct (Z.ltb_spec (lg + 1) 0) as [? | _]; [lia |].
    bind_inv Htree as T HT'. rename Htree into HT.
    unfold Py.ret in HT. injection HT as <-. split; reflexivity. }
  destruct Htn as [Hn' Hlims].
  subst layers lims s cutoff. cbn [GaussianKDE.tree GaussianKDE.s GaussianKDE.cutoff
                                    GaussianKDE.slice_map] in *.
  rewrite Hn' in *. rewrite Hlims. cbn [fst snd].
  set (N := (2 ^ Z.to_nat (lg + 1))%nat) in *.
  assert (HN : (1 <= N)%nat) by lia.
  set (P := np.linspace s0 s1 (N + 1)).
  destruct (int_log2_spec _ Hlg Hn) as [Hq0 HqN]. fold N in HqN.
  pose proof (qnat_pos HN) as HNpos.
  assert (Hr : s0 < s1).
  { assert (0 < (s1 - s0) / h * h) by nra.
    assert (E : (s1 - s0) / h * h == s1 - s0) by (field; lra).
    rewrite E in H. lra. }
  assert (HlenP : length P = (N + 1)%nat) by apply linspace_length.
  set (mids := np.scale (1 # 2) (np.add (np.slice_from P 1) (np.slice_to P (-1)))).
  assert (Hmid : forall j, (j < N)%nat ->
            nth_error mids j = Some ((1 # 2) * (grid P (j + 1) + grid P j))).
  { intros j Hj. apply midpoints_nth. lia. }
  assert (Hinc : forall a b, (a < b)%nat -> (b <= N)%nat -> grid P a < grid P b).
  { intros a b Hab Hb. apply linspace_increasing; assumption. }
  assert (Hlenm : length mids = N) by (unfold mids; rewrite midpoints_length; lia).
  assert (Hsorted : StronglySorted Qlt mids).
  { apply sorted_of_nth. intros a b Hab Hb. rewrite Hlenm in Hb.
    rewrite (nth_error_nth mids a 0 (Hmid a ltac:(lia))).
    rewrite (nth_error_nth mids b 0 (Hmid b Hb)).
    pose proof (Hinc a b Hab ltac:(lia)).
    pose proof (Hinc (a + 1)%nat (b + 1)%nat ltac:(lia) ltac:(lia)). lra. }
  set (mid := (1 # 2) * (grid P i + grid P (i + 1))).
  set (midk := (1 # 2) * (grid P (i + 1) + grid P i)).
  assert (Emid : mid == midk) by (unfold mid, midk; ring).
  set (l := np.searchsorted1 (np.sort sample) (midk + - (h * 4))).
  set (u := np.searchsorted1 (np.sort sample) (midk + h * 4)).
  assert (Hmid' : nth_error mids i = Some ((1 # 2) * (grid P (i + 1) + grid P i)))
    by (apply Hmid; exact Hi).
  exists (grid P i), (grid P (i + 1)), mid, l, u.
  assert (Hw : grid P (i + 1) - grid P i < h).
  { unfold grid, P. rewrite !linspace_nth by lia. rewrite qnat_add.
    change (qnat 1) with 1.
    assert (E : (s1 - s0) / h * h == s1 - s0) by (field; lra).
    assert (Hlt : s1 - s0 < qnat N * h) by nra.
    assert (E' : (s1 - s0) / qnat N * qnat N == s1 - s0) by (field; lra).
    assert ((s1 - s0) / qnat N < h) by nra. lra. }
  assert (Hslice : forall j, (j < length (np.sort sample))%nat ->
            ((l <= j < u)%nat <->
             mid - h * 4 <= nth j (np.sort sample) 0 /\
             nth j (np.sort sample) 0 < mid + h * 4)).
  { intros j Hj. unfold l, u.
    pose proof (searchsorted1_spec (midk + - (h * 4)) (sort_sorted sample) Hj) as H1.
    pose proof (searchsorted1_spec (midk + h * 4) (sort_sorted sample) Hj) as H2.
    split.
    - intros [Hl Hu]. apply H2 in Hu. split; [| lra].
      destruct (Qlt_le_dec (nth j (np.sort sample) 0) (midk + - (h * 4))) as [Hlt | Hge];
        [apply H1 in Hlt; lia | lra].
    - intros [Hl Hu]. split; [| apply H2; lra].
      destruct (Nat.lt_ge_cases j (np.searchsorted1 (np.sort sample) (midk + - (h * 4))))
        as [Hlt | Hge]; [apply H1 in Hlt; lra | exact Hge]. }
  split; [| split; [| split; [reflexivity | split; [reflexivity | split;
    [exact Hslice | split; [unfold mid; field | split; [exact Hw |]]]]]]].
  - unfold buckets. fold N. fold P. apply leaves_nth. lia.
  - apply dict_get_zip with (i := i) (k := (1 # 2) * (grid P (i + 1) + grid P i)).
    + exact Hsorted.
    + exact Hmid'.
    + apply combine_nth_error.
      * unfold l, np.searchsorted, np.shift.
        apply (map_nth_error (np.searchsorted1 (np.sort sample))).
        apply (map_nth_error (fun x => x + - (h * 4))). exact Hmid'.
      * unfold u, np.searchsorted, np.shift.
        apply (map_nth_error (np.searchsorted1 (np.sort sample))).
        apply (map_nth_error (fun x => x + h * 4)). exact Hmid'.
    + exact Emid.
  - intros x j [Hx0 Hx1] Hj [Ha Hb]. apply Hslice; [exact Hj |].
    set (w2 := (grid P (i + 1) - grid P i) / 2) in *.
    assert (Ew : w2 == (1 # 2) * (grid P (i + 1) - grid P i)) by (unfold w2; field).
    unfold mid. split; lra.
Qed.

End KdeFacts.

Section TreeExamples.
Import BinaryTree.
Local Open Scope Q_scope.

(** C3.  With [layers = 0] the tree is the two-element list
    [[leaf, midpoint]] around the only bucket, and [lookup], which descends
    no step, returns that list and not the bucket a linear scan finds. *)
Theorem lookup_zero_layers lo hi x :
  exists self leaf,
    init 0 (lo, hi) = Py.ret self /\
    buckets 0 lo hi = [leaf] /\
    linear_scan (buckets 0 lo hi) x =
      (if contains x leaf then Some leaf else None) /\
    lookup self x = Py.ret (Lst [leaf; Num ((1 # 2) * (lo + hi))]) /\
    lookup self x <> Py.ret leaf.
Proof.
  eexists. eexists. split; [reflexivity |]. split; [reflexivity |].
  split; [reflexivity |]. split; [reflexivity |].
  unfold lookup, Py.ret. simpl. intros H. injection H as H. discriminate H.
Qed.

Example lookup_zero_layers_unit :
  Py.bind (init 0 (0, 1)) (fun self => lookup self (1 # 2))
  = Py.ret (Lst [Lst [Num 0; Num 1; Num (1 # 2)]; Num (1 # 2)]) /\
  linear_scan (buckets 0 0 1) (1 # 2) = Some (Lst [Num 0; Num 1; Num (1 # 2)]).
Proof. split; reflexivity. Qed.

(** A bandwidth between twice and four times the range of the sample gives
    a tree of zero layers, and the density cannot be evaluated. *)
Example density_zero_layers :
  exists self,
    GaussianKDE.init [0; 8] 20 = Py.ret self /\
    BinaryTree.n (GaussianKDE.tree self) = 0%Z /\
    GaussianKDE.density_samples self 4 = Py.raise Py.IndexError.
Proof. eexists. repeat split. Qed.

End TreeExamples.

Lemma slice_map_invariant_witness :
  exists self,
    (0 < 1)%Q /\
    GaussianKDE.init [0; 41 # 10; 44 # 10; 8]%Q 1 = Py.ret self /\
    let layers := BinaryTree.n (GaussianKDE.tree self) in
    let lims := BinaryTree.lims (GaussianKDE.tree self) in
    let s := GaussianKDE.s self in
    let cutoff := GaussianKDE.cutoff self in
    (0 < 2 ^ Z.to_nat layers)%nat /\
    exists lo hi mid l u,
      nth_error (buckets layers (fst lims) (snd lims)) 0
        = Some (BinaryTree.Lst [BinaryTree.Num lo; BinaryTree.Num hi; BinaryTree.Num mid]) /\
      GaussianKDE.dict_get (GaussianKDE.slice_map self) mid = Some (l, u) /\
      s = np.sort [0; 41 # 10; 44 # 10; 8]%Q /\ cutoff = (1 * 4)%Q /\
      (forall j, (j < length s)%nat ->
         ((l <= j < u)%nat <->
          (mid - cutoff <= nth j s 0 /\ nth j s 0 < mid + cutoff)%Q)) /\
      (mid == (lo + hi) / 2)%Q /\ (hi - lo < 1)%Q /\
      (forall x j, (lo <= x /\ x <= hi)%Q -> (j < length s)%nat ->
         (x - (cutoff - (hi - lo) / 2) < nth j s 0 /\
          nth j s 0 < x + (cutoff - (hi - lo) / 2))%Q ->
         (l <= j < u)%nat).
Proof.
  eexists. split; [reflexivity |]. split; [reflexivity |].
  cbv zeta. split; [vm_compute; lia |].
  refine (@slice_map_invariant [0; 41 # 10; 44 # 10; 8]%Q 1 _ 0 eq_refl eq_refl _).
  vm_compute. lia.
Defined.

(** For the sample [0, 4.1, 4.4, 8] and bandwidth 1 the points 0 and 1/2
    lie in one bucket, whose slice is [0:2].  The sample 4.4 is within
    [cutoff = 4] of the bucket's point 1/2 and is not in the slice; the
    sample 4.1 is in the slice and farther than [cutoff] from the bucket's
    point 0. *)
Lemma slice_map_not_bucket_neighbourhood :
  exists self,
    GaussianKDE.init [0; 41 # 10; 44 # 10; 8]%Q 1 = Py.ret self /\
    (GaussianKDE.cutoff self == 4)%Q /\
    GaussianKDE.s self = [0; 41 # 10; 44 # 10; 8]%Q /\
    GaussianKDE.region_slice self 0 = Py.ret (0, 2)%nat /\
    GaussianKDE.region_slice self (1 # 2) = Py.ret (0, 2)%nat /\
    (Qabs ((44 # 10) - (1 # 2)) <= 4)%Q /\ ~ (0 <= 2 < 2)%nat /\
    (4 < Qabs ((41 # 10) - 0))%Q /\ (0 <= 1 < 2)%nat.
Proof.
  eexists. split; [reflexivity |]. split; [reflexivity |]. split; [reflexivity |].
  split; [reflexivity |]. split; [reflexivity |].
  split; [vm_compute; discriminate |]. split; [lia |].
  split; [reflexivity | lia].
Qed.

(* ================================================================== *)
(** * Part V: binary_search, the posterior and the bandwidth search     *)
(* ================================================================== *)

Section BinarySearch.
Import DensityEstimator.
Local Open Scope R_scope.

Variable func : R -> R.
Variable value : R.
Variable uphill : bool.

Lemma ltb_true a b : npr.ltb a b = true <-> a < b.
Proof. unfold npr.ltb. destruct (Rlt_dec a b); split; auto; discriminate. Qed.

Lemma ltb_false a b : npr.ltb a b = false <-> b <= a.
Proof.
  unfold npr.ltb. destruct (Rlt_dec a b); split; try discriminate; auto; lra.
Qed.

(** The state after [k] passes. *)
Fixpoint iterate (k : nat) (st : state) : state :=
  match k with
  | O => st
  | S k' => iterate k' (pass func value uphill st)
  end.

Lemma iterate_S k st : iterate (S k) st = pass func value uphill (iterate k st).
Proof. revert st. induction k as [| k IH]; intros st; [reflexivity |]. simpl. now rewrite <- IH. Qed.

(** A bracket [x_min < x_max] with [x] its midpoint. *)
Definition bracket (st : state) : Prop :=
  let '(x_min, x_max, x) := st in x_min < x_max /\ x = (x_min + x_max) * 0.5.

Definition width (st : state) : R := let '(x_min, x_max, _) := st in x_max - x_min.
Definition lower (st : state) : R := let '(x_min, _, _) := st in x_min.
Definition upper (st : state) : R := let '(_, x_max, _) := st in x_max.

(** A pass halves the bracket and keeps it inside the old one. *)
Lemma pass_bracket st :
  bracket st ->
  let st' := pass func value uphill st in
  bracket st' /\ width st' = width st / 2 /\
  lower st <= lower st' /\ upper st' <= upper st.
Proof.
  destruct st as [[x_min x_max] x]. intros [Hlt Hx]. subst x. unfold pass.
  destruct (npr.ltb value (func ((x_min + x_max) * 0.5))), uphill;
    simpl; repeat split; lra.
Qed.

Lemma iterate_bracket k : forall st,
  bracket st ->
  bracket (iterate k st) /\ width (iterate k st) = width st / 2 ^ k /\
  lower st <= lower (iterate k st) /\ upper (iterate k st) <= upper st.
Proof.
  induction k as [| k IH]; intros st Hb.
  - simpl. repeat split; auto; lra.
  - destruct (pass_bracket st Hb) as (Hb' & Hw & Hl & Hu).
    destruct (IH _ Hb') as (Hb'' & Hw' & Hl' & Hu').
    cbn [iterate]. split; [exact Hb'' |]. split; [| split; lra].
    rewrite Hw', Hw. simpl. field. apply pow_nonzero. lra.
Qed.

(** The loop returns the first state, after at least one pass, that meets
    the convergence test. *)
Lemma loop_first k : forall st,
  converged (iterate (S k) st) = true ->
  (forall j, (1 <= j <= k)%nat -> converged (iterate j st) = false) ->
  forall fuel, (S k <= fuel)%nat ->
  loop fuel func value uphill st = Some (iterate (S k) st).
Proof.
  induction k as [| k IH]; intros st Hc Hn fuel Hf.
  - destruct fuel as [| fuel]; [lia |]. simpl in *. now rewrite Hc.
  - destruct fuel as [| fuel]; [lia |]. cbn [loop].
    assert (H1 : converged (pass func value uphill st) = false)
      by (apply (Hn 1%nat); lia).
    rewrite H1. apply IH; [exact Hc | | lia].
    intros j Hj. apply (Hn (S j)). lia.
Qed.

Lemma loop_none fuel : forall st,
  (forall j, (1 <= j <= fuel)%nat -> converged (iterate j st) = false) ->
  loop fuel func value uphill st = None.
Proof.
  induction fuel as [| fuel IH]; intros st Hn; [reflexivity |].
  cbn [loop].
  assert (H1 : converged (pass func value uphill st) = false)
    by (apply (Hn 1%nat); lia).
  rewrite H1. apply IH. intros j Hj. apply (Hn (S j)). lia.
Qed.

(** Some state meets the test, hence a first one does. *)
Lemma first_or_none st K :
  (exists k, (k <= K)%nat /\ converged (iterate (S k) st) = true /\
             forall j, (1 <= j <= k)%nat -> converged (iterate j st) = false) \/
  (forall j, (1 <= j <= S K)%nat -> converged (iterate j st) = false).
Proof.
  induction K as [| K [(k & Hk & Hc & Hn) | Hnone]].
  - destruct (converged (iterate 1 st)) eqn:E.
    + left. exists 0%nat. split; [lia |]. split; [exact E |]. intros j Hj. lia.
    + right. intros j Hj. replace j with 1%nat by lia. exact E.
  - left. exists k. split; [lia | auto].
  - destruct (converged (iterate (S (S K)) st)) eqn:E.
    + left. exists (S K). split; [lia |]. split; [exact E | exact Hnone].
    + right. intros j Hj.
      destruct (Nat.eq_dec j (S (S K))) as [-> | Hne]; [exact E |].
      apply Hnone. lia.
Qed.

Lemma first_converged st K :
  converged (iterate (S K) st) = true ->
  exists k, (k <= K)%nat /\ converged (iterate (S k) st) = true /\
            forall j, (1 <= j <= k)%nat -> converged (iterate j st) = false.
Proof.
  intros Hc. destruct (first_or_none st K) as [H | Hnone]; [exact H |].
  rewrite Hnone in Hc by lia. discriminate.
Qed.

(** Far enough, a bracket that stays away from zero meets the test. *)
Lemma converged_eventually st :
  bracket st -> 0 < lower st \/ upper st < 0 ->
  exists K, converged (iterate (S K) st) = true.
Proof.
  intros Hb Hsign.
  set (m := Rmin (Rabs (lower st)) (Rabs (upper st))).
  assert (Hm : 0 < m).
  { unfold m. apply Rmin_glb_lt; apply Rabs_pos_lt;
      destruct st as [[a b] x]; simpl in *; destruct Hb; lra. }
  assert (Hw0 : 0 < width st).
  { destruct st as [[a b] x]. simpl in *. destruct Hb. lra. }
  destruct (Pow_x_infinity 2 ltac:(rewrite Rabs_right; lra) (1000 * width st / m + 1))
    as [N HN].
  exists N. specialize (HN (S N) ltac:(lia)).
  rewrite Rabs_right in HN by (apply Rle_ge, pow_le; lra).
  destruct (iterate_bracket (S N) st Hb) as (Hb' & Hw & Hl & Hu).
  destruct (iterate (S N) st) as [[a b] x] eqn:E.
  simpl in Hb', Hw, Hl, Hu. destruct Hb' as [Hab Hx].
  assert (Hp : 0 < 2 ^ S N) by (apply pow_lt; lra).
  assert (Hxm : m <= Rabs x).
  { unfold m. destruct Hsign as [Hpos | Hneg].
    - apply Rle_trans with (Rabs (lower st)); [apply Rmin_l |].
      rewrite !Rabs_right by lra. lra.
    - apply Rle_trans with (Rabs (upper st)); [apply Rmin_r |].
      rewrite !Rabs_left by lra. lra. }
  unfold converged.
  destruct (Req_dec_T x 0) as [E0 | Hx0].
  { rewrite E0, Rabs_R0 in Hxm. lra. }
  apply ltb_true. unfold Rdiv. rewrite Rabs_mult, Rabs_inv.
  rewrite (Rabs_right (b - a)) by lra.
  assert (Hax : 0 < Rabs x) by lra.
  apply Rmult_lt_reg_r with (Rabs x); [exact Hax |].
  rewrite Rmult_assoc, Rinv_l, Rmult_1_r by lra.
  rewrite Hw.
  assert (Hbig : 1000 * width st / m < 2 ^ S N) by lra.
  apply Rmult_lt_reg_r with (2 ^ S N); [exact Hp |].
  unfold Rdiv. rewrite Rmult_assoc, Rinv_l, Rmult_1_r by lra.
  assert (Hbig' : 1000 * width st < 2 ^ S N * m).
  { apply Rmult_lt_reg_r with (/ m); [apply Rinv_0_lt_compat, Hm |].
    rewrite (Rmult_assoc (2 ^ S N)), Rinv_r, Rmult_1_r by lra. exact Hbig. }
  nra.
Qed.

(** C9 (amended).  For every function and every bracket [x_min < x_max]
    that keeps clear of zero ([0 < x_min] or [x_max < 0]), the loop of
    [binary_search] ends: there is a number of passes after which, and not
    before, the relative width [|(x_max - x_min)/x|] of the bracket is below
    [1e-3]; with that much fuel or more the loop returns the state reached
    then, and [binary_search] ends with the polish step on it.  The polish
    step yields the linear interpolation between the two ends when the
    function takes different values there, and no number when it takes the
    same value: it divides by their difference. *)
Theorem binary_search_terminates x_min x_max :
  x_min < x_max -> 0 < x_min \/ x_max < 0 ->
  let st0 := (x_min, x_max, (x_min + x_max) * 0.5) in
  exists passes st,
    (1 <= passes)%nat /\ st = iterate passes st0 /\
    (forall fuel, (fuel < passes)%nat -> loop fuel func value uphill st0 = None) /\
    (forall fuel, (passes <= fuel)%nat ->
       loop fuel func value uphill st0 = Some st /\
       binary_search fuel func value (x_min, x_max) uphill
       = Some (polish func value st)) /\
    (let '(a, b, x) := st in
     x <> 0 /\ Rabs ((b - a) / x) < 1e-3 /\
     (func b <> func a ->
      polish func value st =
      Some (a * ((func b - value) / (func b - func a))
            + b * ((value - func a) / (func b - func a)))) /\
     (func b = func a -> polish func value st = None)) /\
    (forall j, (1 <= j < passes)%nat -> converged (iterate j st0) = false).
Proof.
  intros Hlt Hsign st0.
  assert (Hb : bracket st0) by (unfold st0; simpl; auto).
  destruct (@converged_eventually st0 Hb Hsign) as [K HK].
  destruct (@first_converged st0 K HK) as (k & _ & Hc & Hn).
  exists (S k), (iterate (S k) st0).
  split; [lia |]. split; [reflexivity |].
  split; [| split; [| split]].
  - intros fuel Hf. apply loop_none. intros j Hj. apply Hn. lia.
  - intros fuel Hf. pose proof (@loop_first k st0 Hc Hn fuel Hf) as Hloop.
    split; [exact Hloop |]. unfold binary_search. fold st0. now rewrite Hloop.
  - destruct (iterate (S k) st0) as [[a b] x]. unfold converged in Hc.
    destruct (Req_dec_T x 0) as [? | Hx]; [discriminate |].
    split; [exact Hx |]. split; [apply ltb_true, Hc |].
    unfold polish. split; intros Hdf.
    + destruct (Req_dec_T (func b - func a) 0) as [E | _]; [lra | reflexivity].
    + destruct (Req_dec_T (func b - func a) 0) as [_ | E]; [reflexivity | lra].
  - intros j Hj. apply Hn. lia.
Qed.

End BinarySearch.

Section BinarySearchExamples.
Import DensityEstimator.
Local Open Scope R_scope.

(** Below a function that stays above the value, an uphill search from a
    bracket [[0, b]] halves the bracket towards 0 for ever: the midpoint is
    always half the width. *)
Lemma loop_towards_zero fuel : forall b,
  0 < b -> loop fuel (fun _ => 1) 0 true (0, b, (0 + b) * 0.5) = None.
Proof.
  induction fuel as [| fuel IH]; intros b Hb; [reflexivity |].
  cbn [loop]. unfold pass.
  assert (E : npr.ltb 0 1 = true) by (apply ltb_true; lra).
  rewrite E.
  assert (Hc : converged (0, (0 + b) * 0.5, (0 + (0 + b) * 0.5) * 0.5) = false).
  { unfold converged. destruct (Req_dec_T _ 0) as [? | Hx]; [reflexivity |].
    apply ltb_false.
    replace ((0 + (0 + b) * 0.5) * 0.5) with (b / 4) by lra.
    replace ((0 + b) * 0.5 - 0) with (b / 2) by lra.
    replace (b / 2 / (b / 4)) with 2 by (field; lra).
    rewrite Rabs_right; lra. }
  rewrite Hc. apply IH. lra.
Qed.

(** The bracket [[0, 1]] satisfies [x_min < x_max], and with a function that
    stays above the value the uphill search never leaves its loop. *)
Lemma binary_search_runs_forever :
  0 < 1 /\
  forall fuel, binary_search fuel (fun _ => 1) 0 (0, 1) true = None.
Proof.
  split; [lra |]. intros fuel. unfold binary_search.
  rewrite loop_towards_zero by lra. reflexivity.
Qed.

(** Under a function that takes the same value everywhere the loop ends,
    on a bracket clear of zero, and the polish step divides by zero. *)
Example binary_search_flat :
  exists passes, forall fuel, (passes <= fuel)%nat ->
    binary_search fuel (fun _ => 1) 1.5 (1, 2) true = Some None.
Proof.
  set (func := fun _ : R => 1). set (st0 := (1, 2, (1 + 2) * 0.5)).
  assert (Hb : bracket st0) by (unfold st0; simpl; split; lra).
  assert (Hs : 0 < lower st0 \/ upper st0 < 0) by (left; simpl; lra).
  destruct (@converged_eventually func 1.5 true st0 Hb Hs) as [K HK].
  destruct (@first_converged func 1.5 true st0 K HK) as (k & _ & Hc & Hn).
  exists (S k). intros fuel Hf. unfold binary_search. fold st0.
  rewrite (@loop_first func 1.5 true k st0 Hc Hn fuel Hf).
  destruct (iterate func 1.5 true (S k) st0) as [[a b] x].
  unfold polish, func.
  destruct (Req_dec_T (1 - 1) 0) as [_ | E]; [reflexivity | lra].
Qed.

End BinarySearchExamples.

Section PosteriorFacts.
Import UnimodalPdf.
Local Open Scope R_scope.

(** C7.  For every parameter vector [(x0, s0, v, f, k, q)], [posterior] is
    the sentinel [-1e50] when the constraints [s0 > 0], [0 < k < 20],
    [1 < q < 6] do not all hold, and otherwise the sum over the sample of
    the log-densities [-0.5 (1 + v') log(1 + |z|^q / v')] minus [n] times the
    logarithm of the normaliser.  It is a total function: no case raises. *)
Theorem posterior_sentinel self pvec :
  (~ constraints pvec -> posterior self pvec = - 1e50) /\
  (constraints pvec ->
   posterior self pvec =
   npr.sum (map (fun xi => log_pdf_model xi pvec) (x self))
   - INR (length (x self)) * ln (norm self pvec)) /\
  (forall xi,
     let '(x0, s0, v, f, k, q) := pvec in
     let z := (xi - x0) / s0 / exp (f * tanh ((xi - x0) / s0 / k)) in
     log_pdf_model xi pvec
     = - (0.5 * (1 + (exp v + 1))) * ln (1 + npr.power (Rabs z) q / (exp v + 1))).
Proof.
  destruct pvec as [[[[[x0 s0] v] f] k] q]. unfold constraints, posterior.
  split; [| split].
  - intros Hn.
    destruct (npr.ltb 0 s0 && (npr.ltb 0 k && npr.ltb k 20)
              && (npr.ltb 1 q && npr.ltb q 6)) eqn:E; [| reflexivity].
    exfalso. apply Hn. rewrite !andb_true_iff, !ltb_true in E. tauto.
  - intros (H0 & [Hk0 Hk1] & [Hq0 Hq1]).
    apply ltb_true in H0, Hk0, Hk1, Hq0, Hq1.
    rewrite H0, Hk0, Hk1, Hq0, Hq1. reflexivity.
  - intros xi. reflexivity.
Qed.

End PosteriorFacts.

Section BandwidthFacts.
Import Bandwidth.
Local Open Scope R_scope.
Local Open Scope py_scope.

Variable samples : list R.

Lemma ln_lt_self h : 0 < h -> ln h < h.
Proof.
  intros Hh. pose proof (exp_ineq1_le (ln h)) as H.
  rewrite exp_ln in H by exact Hh. lra.
Qed.

(** C5.  The grid the search starts from holds the five points
    [initial_h + m * 0.5], [m = -2 .. 2], and the scores are taken at the
    bandwidths [exp] of them; the grid is centred at the rule-of-thumb
    bandwidth itself and not at its logarithm, which is smaller, so it
    differs from the grid [log(initial_h) + m * 0.5]. *)
Theorem cv_grid_centred_at_bandwidth initial_h :
  0 < initial_h ->
  initial_log_h initial_h
  = [initial_h + -2 * 0.5; initial_h + -1 * 0.5; initial_h + 0 * 0.5;
     initial_h + 1 * 0.5; initial_h + 2 * 0.5] /\
  cross_validation_bandwidth_estimator samples initial_h =
    (log_p <- scores samples (initial_log_h initial_h) ;;
     g <- extend samples 5 (initial_log_h initial_h, log_p) ;;
     '(log_h, log_p) <- refine samples 6 g ;;
     i <- npr.argmax log_p ;;
     h <- Py.orelse Py.IndexError (np.getitem log_h (Z.of_nat i)) ;;
     Py.ret (exp h)) /\
  (forall h, score samples h = cross_validation_logprob samples (exp h) 0.99) /\
  ln initial_h < nth 2 (initial_log_h initial_h) 0 /\
  (forall m, ln initial_h + IZR m * 0.5 < initial_h + IZR m * 0.5) /\
  initial_log_h initial_h <>
  map (fun m => ln initial_h + IZR m * 0.5) [-2; -1; 0; 1; 2]%Z.
Proof.
  intros Hh. pose proof (ln_lt_self Hh) as Hln.
  split; [reflexivity |]. split; [reflexivity |]. split; [reflexivity |].
  split; [| split].
  - simpl. unfold dh. lra.
  - intros m. lra.
  - unfold initial_log_h, dh. simpl. intros H. injection H as H _. lra.
Qed.

End BandwidthFacts.

Section CvFacts.
Import Bandwidth.
Local Open Scope R_scope.

Lemma sum_app a b : npr.sum (a ++ b) = npr.sum a + npr.sum b.
Proof. induction a as [| x a IH]; simpl; [lra |]. rewrite IH. lra. Qed.

Lemma sum_pos a : Forall (fun x => 0 < x) a -> a <> [] -> 0 < npr.sum a.
Proof.
  induction 1 as [| x a Hx Ha IH]; intros Hne; [congruence |].
  simpl. destruct a as [| y a]; [simpl; lra |].
  assert (0 < npr.sum (y :: a)) by (apply IH; discriminate). lra.
Qed.

Lemma sum_nonneg a : Forall (fun x => 0 < x) a -> 0 <= npr.sum a.
Proof. induction 1 as [| x a Hx Ha IH]; simpl; lra. Qed.

(** The sum over a list is the [i]-th term plus the sum over the others. *)
Lemma sum_others (f : R -> R) l i :
  (i < length l)%nat ->
  npr.sum (map f l) = f (nth i l 0) + npr.sum (map f (others i l)).
Proof.
  intros Hi. unfold others.
  rewrite <- (firstn_skipn i l) at 1.
  assert (E : skipn i l = nth i l 0 :: skipn (S i) l).
  { revert i Hi. induction l as [| x l IH]; intros [| i] Hi; simpl in *; try lia; auto.
    apply IH. lia. }
  rewrite E, !map_app, !sum_app. simpl. lra.
Qed.

Lemma zip_with_map {A} (f : R -> R -> R) (g g' : A -> R) l :
  npr.zip_with f (map g l) (map g' l) = map (fun x => f (g x) (g' x)) l.
Proof. induction l as [| x l IH]; simpl; [reflexivity | now rewrite IH]. Qed.

(** The element-wise reduction is the reduction at each point. *)
Lemma fold_zip_with {A} (f : R -> R -> R) (k : R -> A -> R) (pts : list A) rest :
  forall g : A -> R,
  fold_left (npr.zip_with f) (map (fun s => map (k s) pts) rest) (map g pts)
  = map (fun x => fold_left f (map (fun s => k s x) rest) (g x)) pts.
Proof.
  induction rest as [| s rest IH]; intros g; simpl; [reflexivity |].
  rewrite zip_with_map. apply IH.
Qed.

(** Log-sum-exp: folding [logaddexp] gives the logarithm of the sum of the
    exponentials. *)
Lemma fold_logaddexp l : forall a,
  fold_left npr.logaddexp l a = ln (exp a + npr.sum (map exp l)).
Proof.
  induction l as [| x l IH]; intros a; simpl.
  - rewrite Rplus_0_r, ln_exp. reflexivity.
  - rewrite IH. unfold npr.logaddexp. rewrite exp_ln.
    + f_equal. lra.
    + pose proof (exp_pos a). pose proof (exp_pos x). lra.
Qed.

Lemma sqrt2_sq : sqrt 2 * sqrt 2 = 2.
Proof. apply sqrt_sqrt. lra. Qed.

Lemma kernel_exponent x c h :
  0 < h -> - 0.5 * ((x - c) / h) ^ 2 = - ((x - c) / (sqrt 2 * h)) ^ 2.
Proof.
  intros Hh. pose proof Rlt_sqrt2_0 as H2. pose proof sqrt2_sq as Hs.
  assert (E : (x - c) / (sqrt 2 * h) = (x - c) / h * / sqrt 2) by (field; lra).
  assert (Hi : / sqrt 2 * / sqrt 2 = / 2) by (rewrite <- Rinv_mult, Hs; reflexivity).
  rewrite E. simpl.
  replace ((x - c) / h * / sqrt 2 * ((x - c) / h * / sqrt 2 * 1))
    with ((x - c) / h * ((x - c) / h) * (/ sqrt 2 * / sqrt 2)) by ring.
  rewrite Hi. lra.
Qed.

Lemma exp_log_kernel x c h : 0 < h -> exp (log_kernel x c h) = kernel h x c / h.
Proof.
  intros Hh. unfold log_kernel, kernel. cbv zeta.
  rewrite (kernel_exponent x c Hh).
  set (e := - ((x - c) / (sqrt 2 * h)) ^ 2).
  replace (e - ln h) with (e + - ln h) by lra.
  rewrite exp_plus, exp_Ropp, exp_ln by exact Hh.
  reflexivity.
Qed.

Lemma kernel_pos h a b : 0 < kernel h a b.
Proof. apply exp_pos. Qed.

Lemma kernel_self h a : kernel h a a = 1.
Proof.
  unfold kernel. replace ((a - a) / (sqrt 2 * h)) with 0
    by (unfold Rdiv; rewrite Rminus_diag, Rmult_0_l; reflexivity).
  replace (- 0 ^ 2) with 0 by (simpl; lra). apply exp_0.
Qed.

Lemma sum_scale {A} (f : A -> R) h l :
  npr.sum (map (fun y => f y / h) l) = npr.sum (map f l) / h.
Proof. induction l as [| y l IH]; simpl; [lra |]. rewrite IH. lra. Qed.

Lemma ln_div a b : 0 < a -> 0 < b -> ln (a / b) = ln a - ln b.
Proof.
  intros Ha Hb. unfold Rdiv.
  rewrite ln_mult, ln_Rinv by auto using Rinv_0_lt_compat. reflexivity.
Qed.

(** The kernel sum at [x]: it counts the sample equal to [x] itself. *)
Definition kernel_sum (s : list R) (h x : R) : R := npr.sum (map (kernel h x) s).

Lemma kernel_sum_pos s h x : s <> [] -> 0 < kernel_sum s h x.
Proof.
  intros Hs. apply sum_pos.
  - apply Forall_forall. intros y Hy. apply in_map_iff in Hy.
    destruct Hy as (z & <- & _). apply kernel_pos.
  - destruct s; [congruence | discriminate].
Qed.

Lemma log_evaluation_value s h :
  s <> [] -> 0 < h ->
  log_evaluation s s h =
  Py.ret (map (fun x => ln (kernel_sum s h x / h)
                        - ln (INR (length s) * sqrt (2 * PI))) s).
Proof.
  intros Hs Hh. unfold log_evaluation.
  destruct s as [| s0 rest]; [congruence |].
  set (s := s0 :: rest) in *.
  change (map (fun sj => map (fun x => log_kernel x sj h) s) s)
    with (map (fun x => log_kernel x s0 h) s
          :: map (fun sj => map (fun x => log_kernel x sj h) s) rest).
  cbn [npr.reduce]. rewrite bind_ret.
  rewrite (fold_zip_with npr.logaddexp (fun sj x => log_kernel x sj h) s rest
             (fun x => log_kernel x s0 h)).
  rewrite map_map. f_equal. apply map_ext. intros x.
  f_equal. rewrite fold_logaddexp. f_equal.
  unfold kernel_sum. rewrite <- sum_scale. unfold s. cbn [map].
  change (npr.sum (kernel h x s0 / h :: map (fun y => kernel h x y / h) rest))
    with (kernel h x s0 / h + npr.sum (map (fun y => kernel h x y / h) rest)).
  rewrite exp_log_kernel by exact Hh. f_equal.
  rewrite map_map. f_equal. apply map_ext. intros y.
  apply exp_log_kernel, Hh.
Qed.

(** The term of one sample in the score. *)
Lemma log_prob_term K h c n :
  0 < h -> 0 < c -> c < K -> 0 < n ->
  let log_pdf := ln (K / h) - ln (n * sqrt (2 * PI)) in
  log_pdf + ln (1 - exp (ln c - ln (h * n * sqrt (2 * PI)) - log_pdf))
  = ln (1 / (n * sqrt (2 * PI) * h) * (K - c)).
Proof.
  intros Hh Hc HK Hn log_pdf.
  assert (Hpi : 0 < sqrt (2 * PI)) by (apply sqrt_lt_R0; pose proof PI_RGT_0; lra).
  assert (HA : 0 < n * sqrt (2 * PI)) by (apply Rmult_lt_0_compat; assumption).
  assert (HK0 : 0 < K) by lra.
  assert (Hd : ln c - ln (h * n * sqrt (2 * PI)) - log_pdf = ln (c / K)).
  { unfold log_pdf. rewrite Rmult_assoc, (ln_mult h) by assumption.
    rewrite !ln_div by assumption. lra. }
  rewrite Hd, exp_ln by (apply Rdiv_lt_0_compat; assumption).
  assert (E1 : 1 - c / K = (K - c) / K) by (field; lra).
  rewrite E1, ln_div by lra.
  assert (E2 : 1 / (n * sqrt (2 * PI) * h) * (K - c) = (K - c) / (n * sqrt (2 * PI) * h))
    by (field; split; lra).
  rewrite E2, ln_div by (try apply Rmult_lt_0_compat; lra).
  rewrite (ln_mult (n * sqrt (2 * PI)) h) by assumption.
  unfold log_pdf. rewrite ln_div by assumption. lra.
Qed.

Lemma map_nth_seq (G : R -> R) s :
  map G s = map (fun i => G (nth i s 0)) (seq 0 (length s)).
Proof.
  rewrite <- (map_map (fun i => nth i s 0) G). f_equal.
  symmetry. apply (nth_ext _ _ 0 0).
  - now rewrite length_map, length_seq.
  - intros i Hi. rewrite length_map, length_seq in Hi.
    rewrite (nth_indep _ 0 (nth 0 s 0)) by (rewrite length_map, length_seq; lia).
    rewrite (map_nth (fun i => nth i s 0)), seq_nth by lia. reflexivity.
Qed.

(** The value of the score, by sample value. *)
Lemma cross_validation_logprob_value s h c :
  s <> [] -> 0 < h -> 0 < c < 1 ->
  cross_validation_logprob s h c =
  Py.ret (npr.sum (map (fun x =>
            ln (1 / (INR (length s) * sqrt (2 * PI) * h) * (kernel_sum s h x - c))) s)).
Proof.
  intros Hs Hh [Hc0 Hc1]. unfold cross_validation_logprob.
  rewrite (log_evaluation_value Hs Hh), bind_ret.
  rewrite !map_map, zip_with_map. unfold Py.ret. do 3 f_equal.
  apply map_ext_in. intros x Hx.
  assert (Hn : 0 < INR (length s)).
  { apply lt_0_INR. destruct s; [congruence | simpl; lia]. }
  assert (HK : c < kernel_sum s h x).
  { apply In_nth with (d := 0) in Hx. destruct Hx as (i & Hi & <-).
    unfold kernel_sum. rewrite (sum_others (kernel h (nth i s 0)) s Hi), kernel_self.
    assert (0 <= npr.sum (map (kernel h (nth i s 0)) (others i s))).
    { apply sum_nonneg, Forall_forall. intros y Hy. apply in_map_iff in Hy.
      destruct Hy as (z & <- & _). apply kernel_pos. }
    lra. }
  apply (log_prob_term Hh Hc0 HK Hn).
Qed.

(** C6 (amended).  For every non-empty sample [s] of length [n], bandwidth
    [h > 0] and [0 < c < 1] (the program uses [c = 0.99]),
    [cross_validation_logprob(s, h)] is the sum over [i] of
    [log((1/(n sqrt(2 pi) h)) ((1 - c) + sum over j <> i of
    exp(-((s_i - s_j)/(sqrt(2) h))^2)))]: the kernel sum over all samples
    with [c] of the sample's own unit term removed, normalised by [n]. *)
Theorem cross_validation_logprob_objective s h c :
  s <> [] -> 0 < h -> 0 < c < 1 ->
  cross_validation_logprob s h c = Py.ret (cv_objective s h c) /\
  cv_objective s h c =
  npr.sum (map (fun i =>
    ln (1 / (INR (length s) * sqrt (2 * PI) * h)
        * (npr.sum (map (kernel h (nth i s 0)) s) - c)))
    (seq 0 (length s))).
Proof.
  intros Hs Hh Hc.
  assert (E : forall i, In i (seq 0 (length s)) ->
            (1 - c) + npr.sum (map (kernel h (nth i s 0)) (others i s))
            = npr.sum (map (kernel h (nth i s 0)) s) - c).
  { intros i Hi. apply in_seq in Hi.
    rewrite (sum_others (kernel h (nth i s 0)) s (i := i)) by lia.
    rewrite kernel_self. lra. }
  split.
  - rewrite (cross_validation_logprob_value Hs Hh Hc). unfold Py.ret, cv_objective.
    do 3 f_equal.
    rewrite (map_nth_seq (fun x => ln (1 / (INR (length s) * sqrt (2 * PI) * h)
                                        * (kernel_sum s h x - c))) s).
    apply map_ext_in. intros i Hi. unfold kernel_sum. now rewrite E.
  - unfold cv_objective. f_equal. apply map_ext_in. intros i Hi. now rewrite E.
Qed.

End CvFacts.

Section CvExamples.
Import Bandwidth.
Local Open Scope R_scope.

Lemma kernel_unit_apart a b : Rabs (a - b) = 1 -> kernel 1 a b = exp (- / 2).
Proof.
  intros H. unfold kernel. f_equal. f_equal.
  pose proof Rlt_sqrt2_0 as H2. pose proof sqrt2_sq as Hs.
  assert (Hsq : (a - b) * (a - b) = 1).
  { unfold Rabs in H. destruct (Rcase_abs (a - b)); nra. }
  assert (Hi : / sqrt 2 * / sqrt 2 = / 2) by (rewrite <- Rinv_mult, Hs; reflexivity).
  replace ((a - b) / (sqrt 2 * 1)) with ((a - b) * / sqrt 2) by (field; lra).
  simpl. replace ((a - b) * / sqrt 2 * ((a - b) * / sqrt 2 * 1))
    with ((a - b) * (a - b) * (/ sqrt 2 * / sqrt 2)) by ring.
  rewrite Hsq, Hi. lra.
Qed.

(** For the sample [0, 1] and bandwidth 1 the score is below the
    leave-one-out objective of the specification. *)
Lemma cross_validation_logprob_not_leave_one_out :
  exists v,
    cross_validation_logprob [0; 1] 1 0.99 = Py.ret v /\
    v < loo_objective [0; 1] 1.
Proof.
  eexists. split.
  - apply cross_validation_logprob_value; [discriminate | lra | lra].
  - unfold loo_objective, kernel_sum, others. cbn [length seq map nth firstn skipn app].
    unfold npr.sum. cbn [map fold_right Nat.sub].
    rewrite !kernel_self.
    rewrite (kernel_unit_apart 0 1) by (rewrite Rabs_left; lra).
    rewrite (kernel_unit_apart 1 0) by (rewrite Rabs_right; lra).
    set (E := exp (- / 2)).
    assert (HE : / 2 <= E).
    { unfold E. pose proof (exp_ineq1_le (- / 2)). lra. }
    assert (Hpi : 0 < sqrt (2 * PI)) by (apply sqrt_lt_R0; pose proof PI_RGT_0; lra).
    set (P := sqrt (2 * PI)) in *.
    assert (Hlt : ln (1 / (INR 2 * P * 1) * (1 + (E + 0) - 0.99))
                  < ln (1 / (INR 1 * P * 1) * (E + 0))).
    { apply ln_increasing.
      - apply Rmult_lt_0_compat; [| lra]. apply Rdiv_lt_0_compat; [lra |]. simpl. lra.
      - simpl INR. set (q := 1 + (E + 0) - 0.99).
        replace (1 / ((1 + 1) * P * 1) * q) with (q / 2 * / P) by (field; lra).
        replace (1 / (1 * P * 1) * (E + 0)) with (E * / P) by (field; lra).
        apply Rmult_lt_compat_r; [apply Rinv_0_lt_compat, Hpi | unfold q; lra]. }
    assert (Hlt' : ln (1 / (INR 2 * P * 1) * (E + (1 + 0) - 0.99))
                   < ln (1 / (INR 1 * P * 1) * (E + 0))).
    { replace (E + (1 + 0) - 0.99) with (1 + (E + 0) - 0.99) by lra. exact Hlt. }
    lra.
Qed.

End CvExamples.

Section GridGrowth.
Import Bandwidth.
Local Open Scope R_scope.
Local Open Scope py_scope.

Variable samples : list R.

Lemma insert_length {A} i (x : A) l : length (npr.insert i x l) = S (length l).
Proof.
  unfold npr.insert. rewrite length_app. cbn [length].
  rewrite length_firstn, length_skipn. lia.
Qed.

Lemma scores_length log_h : forall log_p,
  scores samples log_h = Py.ret log_p -> length log_p = length log_h.
Proof.
  induction log_h as [| h log_h IH]; intros log_p H; cbn [scores] in H.
  - unfold Py.ret in H. injection H as <-. reflexivity.
  - bind_inv H as p Hp. bind_inv H as ps Hps.
    unfold Py.ret in H. injection H as <-. simpl. f_equal. apply IH, Hps.
Qed.

(** The extension loop adds at most one point per pass. *)
Lemma extend_length passes : forall g g',
  extend samples passes g = Py.ret g' ->
  length (snd g) = length (fst g) ->
  (length (fst g) <= length (fst g') <= length (fst g) + passes)%nat /\
  length (snd g') = length (fst g').
Proof.
  induction passes as [| passes IH]; intros [log_h log_p] g' H Hlen; cbn [extend] in H.
  - unfold Py.ret in H. injection H as <-. simpl in *. lia.
  - bind_inv H as max_ind Hmax.
    destruct ((0 <? max_ind) && (max_ind <? length log_h - 1))%nat.
    + unfold Py.ret in H. injection H as <-. simpl in *. lia.
    + destruct (max_ind =? 0)%nat.
      * bind_inv H as h0 Hh0. bind_inv H as new_lp Hlp.
        apply IH in H; cbn [fst snd] in *; rewrite ?insert_length in *; lia.
      * bind_inv H as h1 Hh1. bind_inv H as new_lp Hlp.
        apply IH in H; cbn [fst snd] in *; rewrite ?length_app in *;
          cbn [length] in *; lia.
Qed.

(** Each refinement pass inserts two points. *)
Lemma refine_length passes : forall g g',
  refine samples passes g = Py.ret g' ->
  length (snd g) = length (fst g) ->
  length (fst g') = (length (fst g) + 2 * passes)%nat /\
  length (snd g') = length (fst g').
Proof.
  induction passes as [| passes IH]; intros [log_h log_p] g' H Hlen; cbn [refine] in H.
  - unfold Py.ret in H. injection H as <-. simpl in *. lia.
  - bind_inv H as max_ind Hmax. bind_inv H as hl Hhl. bind_inv H as hm Hhm.
    bind_inv H as hu Hhu. bind_inv H as lwr_lp Hlwr. bind_inv H as upr_lp Hupr.
    apply IH in H; cbn [fst snd] in *; rewrite ?insert_length in *; lia.
Qed.

(** The search evaluates five initial points, extends the grid by at most
    five more and refines it with twelve. *)
Theorem cv_search_grid initial_h h_estimate :
  cross_validation_bandwidth_estimator samples initial_h = Py.ret h_estimate ->
  exists log_p g1 g2,
    scores samples (initial_log_h initial_h) = Py.ret log_p /\
    extend samples 5 (initial_log_h initial_h, log_p) = Py.ret g1 /\
    refine samples 6 g1 = Py.ret g2 /\
    length (initial_log_h initial_h) = 5%nat /\
    (5 <= length (fst g1) <= 10)%nat /\
    length (fst g2) = (length (fst g1) + 12)%nat /\
    exists h, In h (fst g2) /\ h_estimate = exp h.
Proof.
  unfold cross_validation_bandwidth_estimator. intros H.
  bind_inv H as log_p Hs. bind_inv H as g1 He. bind_inv H as g2 Hr.
  destruct g2 as [log_h2 log_p2].
  bind_inv H as i Hi. bind_inv H as h Hh.
  unfold Py.ret in H. injection H as <-.
  pose proof (scores_length _ Hs) as Hl0.
  destruct (extend_length _ _ He) as [Hl1 Hl1']; [exact Hl0 |].
  destruct (refine_length _ _ Hr) as [Hl2 _]; [exact Hl1' |].
  exists log_p, g1, (log_h2, log_p2). cbn [fst snd] in *.
  repeat (split; [first [assumption | reflexivity | simpl in *; lia] |]).
  exists h. split; [| reflexivity].
  apply orelse_ret_inv in Hh. unfold np.getitem in Hh.
  destruct ((0 <=? Z.of_nat i)%Z && (Z.of_nat i <? np.len log_h2)%Z).
  - eapply nth_error_In, Hh.
  - destruct ((- np.len log_h2 <=? Z.of_nat i)%Z && (Z.of_nat i <? 0)%Z);
      [eapply nth_error_In, Hh | discriminate].
Qed.

(** The rule-of-thumb bandwidth [1.06 sigma n^(-0.2)]. *)
Lemma simple_bandwidth_rule s :
  s <> [] ->
  simple_bandwidth_estimator s
  = 1.06 * npr.std s * Rpower (INR (length s)) (Ropp 0.2).
Proof.
  intros Hs. unfold simple_bandwidth_estimator, npr.power.
  assert (Hn : 0 < INR (length s)).
  { apply lt_0_INR. destruct s; [congruence | simpl; lia]. }
  destruct (Req_dec_T (INR (length s)) 0) as [E | _]; [lra |].
  rewrite Rpower_Ropp. reflexivity.
Qed.

End GridGrowth.

Section RealWitnesses.
Local Open Scope R_scope.

Lemma binary_search_terminates_witness :
  1 < 2 /\ (0 < 1 \/ 2 < 0) /\
  let func := fun x : R => x in
  let value := 1.5 in
  let uphill := true in
  let st0 := (1, 2, (1 + 2) * 0.5) in
  exists passes st,
    (1 <= passes)%nat /\ st = iterate func value uphill passes st0 /\
    (forall fuel, (fuel < passes)%nat ->
       DensityEstimator.loop fuel func value uphill st0 = None) /\
    (forall fuel, (passes <= fuel)%nat ->
       DensityEstimator.loop fuel func value uphill st0 = Some st /\
       DensityEstimator.binary_search fuel func value (1, 2) uphill
       = Some (DensityEstimator.polish func value st)) /\
    (let '(a, b, x) := st in
     x <> 0 /\ Rabs ((b - a) / x) < 1e-3 /\
     (func b <> func a ->
      DensityEstimator.polish func value st =
      Some (a * ((func b - value) / (func b - func a))
            + b * ((value - func a) / (func b - func a)))) /\
     (func b = func a -> DensityEstimator.polish func value st = None)) /\
    (forall j, (1 <= j < passes)%nat ->
       DensityEstimator.converged (iterate func value uphill j st0) = false).
Proof.
  split; [lra |]. split; [left; lra |].
  apply (@binary_search_terminates (fun x : R => x) 1.5 true 1 2); [lra | left; lra].
Defined.

Lemma cross_validation_logprob_objective_witness :
  [0; 1] <> [] /\ 0 < 1 /\ 0 < 0.99 < 1 /\
  Bandwidth.cross_validation_logprob [0; 1] 1 0.99
    = Py.ret (cv_objective [0; 1] 1 0.99) /\
  cv_objective [0; 1] 1 0.99 =
  npr.sum (map (fun i =>
    ln (1 / (INR (length [0; 1]) * sqrt (2 * PI) * 1)
        * (npr.sum (map (kernel 1 (nth i [0; 1] 0)) [0; 1]) - 0.99)))
    (seq 0 (length [0; 1]))).
Proof.
  split; [discriminate |]. split; [lra |]. split; [lra |].
  apply (@cross_validation_logprob_objective [0; 1] 1 0.99);
    [discriminate | lra | lra].
Defined.

Lemma simple_bandwidth_rule_witness :
  [0; 1] <> [] /\
  Bandwidth.simple_bandwidth_estimator [0; 1]
  = 1.06 * npr.std [0; 1] * Rpower (INR (length [0; 1])) (Ropp 0.2).
Proof.
  split; [discriminate |].
  apply (@simple_bandwidth_rule [0; 1]). discriminate.
Defined.

Lemma cv_grid_centred_at_bandwidth_witness :
  0 < 1 /\
  Bandwidth.initial_log_h 1
  = [1 + -2 * 0.5; 1 + -1 * 0.5; 1 + 0 * 0.5; 1 + 1 * 0.5; 1 + 2 * 0.5] /\
  Bandwidth.cross_validation_bandwidth_estimator [0; 1] 1 =
    (log_p <- Bandwidth.scores [0; 1] (Bandwidth.initial_log_h 1) ;;
     g <- Bandwidth.extend [0; 1] 5 (Bandwidth.initial_log_h 1, log_p) ;;
     '(log_h, log_p) <- Bandwidth.refine [0; 1] 6 g ;;
     i <- npr.argmax log_p ;;
     h <- Py.orelse Py.IndexError (np.getitem log_h (Z.of_nat i)) ;;
     Py.ret (exp h))%py /\
  (forall h, Bandwidth.score [0; 1] h
             = Bandwidth.cross_validation_logprob [0; 1] (exp h) 0.99) /\
  ln 1 < nth 2 (Bandwidth.initial_log_h 1) 0 /\
  (forall m, ln 1 + IZR m * 0.5 < 1 + IZR m * 0.5) /\
  Bandwidth.initial_log_h 1 <>
  map (fun m => ln 1 + IZR m * 0.5) [-2; -1; 0; 1; 2]%Z.
Proof.
  split; [lra |].
  apply (@cv_grid_centred_at_bandwidth [0; 1] 1). lra.
Defined.

End RealWitnesses.

(* ================================================================== *)
(** * Part VI: the two-interval search                                 *)
(* ================================================================== *)

Section ObjectiveFacts.
Local Open Scope Q_scope.
Local Open Scope py_scope.

Lemma count_perm {A} (p : A -> bool) a b :
  Permutation a b -> length (filter p a) = length (filter p b).
Proof.
  induction 1 as [| x a b _ IH | x y a | a b c _ IH1 _ IH2]; simpl.
  - reflexivity.
  - destruct (p x); simpl; congruence.
  - destruct (p x), (p y); reflexivity.
  - congruence.
Qed.

(** A run of consecutive positions that all pass a test is counted. *)
Lemma count_run {A} (p : A -> bool) (d : A) l i k :
  (i + k <= length l)%nat ->
  (forall j, (i <= j < i + k)%nat -> p (nth j l d) = true) ->
  (k <= length (filter p l))%nat.
Proof.
  intros Hik Hp.
  rewrite <- (firstn_skipn i l), filter_app, length_app.
  rewrite <- (firstn_skipn k (skipn i l)), filter_app, length_app.
  assert (E : filter p (firstn k (skipn i l)) = firstn k (skipn i l)).
  { apply forallb_filter_id. apply forallb_forall. intros x Hx.
    apply (In_nth _ _ d) in Hx. destruct Hx as (j & Hj & <-).
    rewrite length_firstn, length_skipn in Hj.
    rewrite nth_firstn. destruct (Nat.ltb_spec j k); [| lia].
    rewrite nth_skipn. apply Hp. lia. }
  rewrite E, length_firstn, length_skipn. lia.
Qed.

Lemma int_le_of_le x m : 0 <= x -> x <= inject_Z m -> (np.int x <= m)%Z.
Proof.
  intros H0 Hm. rewrite int_floor by exact H0.
  rewrite <- (Qfloor_Z m). apply Qfloor_resp_le, Hm.
Qed.

Variable de : optimiser.

(** What [dbl_interval_length(sample, fraction)] holds after construction. *)
Lemma init_fields sample fraction :
  valid sample fraction ->
  exists lo hi,
    np.getitem (np.sort sample) 0 = Some lo /\
    np.getitem (np.sort sample) (-1) = Some hi /\
    lo = nth 0 (np.sort sample) 0 /\
    hi = nth (length sample - 1) (np.sort sample) 0 /\
    dbl_interval_length.init sample fraction =
    Py.ret (dbl_interval_length.mk (np.sort sample) fraction (np.len sample)
              (window_length sample fraction)
              (np.len sample - window_length sample fraction)%Z (hi - lo)).
Proof.
  intros Hv. destruct Hv as (_ & _ & _ & Hn).
  assert (Hlen : length (np.sort sample) = length sample) by apply sort_length.
  exists (nth 0 (np.sort sample) 0), (nth (length sample - 1) (np.sort sample) 0).
  assert (E0 : np.getitem (np.sort sample) 0 = Some (nth 0 (np.sort sample) 0)).
  { apply (@getitem_nth _ (np.sort sample) 0%nat). lia. }
  assert (E1 : np.getitem (np.sort sample) (-1)
               = Some (nth (length sample - 1) (np.sort sample) 0)).
  { unfold np.getitem, np.len. rewrite Hlen.
    destruct (Z.ltb_spec (-1) (Z.of_nat (length sample))); [| lia].
    simpl andb. destruct (Z.leb_spec (- Z.of_nat (length sample)) (-1)); [| lia].
    simpl andb.
    replace (Z.to_nat (-1 + Z.of_nat (length sample))) with (length sample - 1)%nat by lia.
    apply nth_error_nth'. lia. }
  repeat split; try assumption.
  unfold dbl_interval_length.init. rewrite E0, E1. simpl Py.orelse.
  rewrite !bind_ret. unfold window_length, np.len. rewrite Hlen. reflexivity.
Qed.

Lemma objective_range sample fraction paras :
  valid sample fraction -> (np.len sample <= 2 ^ 53)%Z ->
  exists self,
    dbl_interval_length.init sample fraction = Py.ret self /\
    (in_box paras (dbl_interval_length.get_bounds self) ->
     exists w,
       dbl_interval_length.call self paras = Py.ret w /\
       0 <= w /\ w <= dbl_interval_length.max_length self).
Proof.
  intros Hv Hsmall. destruct (init_fields Hv) as (lo & hi & _ & _ & Elo & Ehi & Ei).
  subst lo hi. eexists. split; [exact Ei |].
  pose proof (window_length_bounds Hv) as HL.
  set (L := window_length sample fraction) in *.
  assert (Hlen : length (np.sort sample) = length sample) by apply sort_length.
  pose proof (sort_sorted sample) as Hs.
  set (s := np.sort sample) in *.
  destruct paras as [[f1 p1] p2]. unfold in_box, dbl_interval_length.get_bounds.
  cbn [dbl_interval_length.space dbl_interval_length.max_length].
  intros Hb.
  inversion Hb as [| ? ? ? ? [Hf0 Hf1] Hb1]; subst.
  inversion Hb1 as [| ? ? ? ? [Hp0 Hp1] Hb2]; subst.
  inversion Hb2 as [| ? ? ? ? [Hg0 Hg1] _]; subst.
  cbn [fst snd] in *.
  rewrite float_exact in Hp1, Hg1 by (unfold np.len in *; lia).
  pose proof (int_nonneg Hp0) as Hs0. pose proof (int_le_of_le Hp0 Hp1) as Hs1.
  pose proof (int_nonneg Hg0) as Hgp0.
  pose proof (@int_mul_scale f1 L Hf0 Hf1 ltac:(lia)) as Hw.
  unfold dbl_interval_length.call.
  cbn [dbl_interval_length.space dbl_interval_length.max_length
       dbl_interval_length.L dbl_interval_length.sample].
  set (start := np.int p1) in *. set (gap := np.int p2) in *.
  set (w1 := np.int (np.mul f1 (np.float L))) in *.
  unfold np.len in HL.
  set (lo := nth 0 s 0) in *. set (hi := nth (length sample - 1) s 0) in *.
  assert (Hrange : 0 <= hi - lo).
  { subst lo hi. pose proof (@sorted_nth s Hs 0%nat (length sample - 1)%nat
                               ltac:(lia) ltac:(lia)). lra. }
  unfold np.len in *.
  destruct (Z.gtb_spec (start + gap) (Z.of_nat (length sample) - L - 1)) as [Hgt | Hle].
  - exists (hi - lo). split; [reflexivity |]. split; [exact Hrange | apply Qle_refl].
  - assert (G : forall i : Z, (0 <= i < Z.of_nat (length sample))%Z ->
                np.getitem s i = Some (nth (Z.to_nat i) s 0)).
    { intros i Hi. rewrite <- (Z2Nat.id i) at 1 by lia.
      apply getitem_nth. lia. }
    rewrite (G (start + w1)%Z), (G start), (G (start + w1 + gap + (L - w1))%Z),
      (G (start + w1 + gap)%Z) by lia.
    simpl Py.orelse. rewrite !bind_ret.
    eexists. split; [reflexivity |].
    assert (M : forall i j : Z, (0 <= i <= j)%Z -> (j < Z.of_nat (length sample))%Z ->
                nth (Z.to_nat i) s 0 <= nth (Z.to_nat j) s 0).
    { intros i j Hij Hj. apply sorted_nth; [exact Hs | lia | lia]. }
    pose proof (M start (start + w1)%Z ltac:(lia) ltac:(lia)).
    pose proof (M (start + w1 + gap)%Z (start + w1 + gap + (L - w1))%Z
                  ltac:(lia) ltac:(lia)).
    pose proof (M (start + w1)%Z (start + w1 + gap)%Z ltac:(lia) ltac:(lia)).
    pose proof (M 0%Z start ltac:(lia) ltac:(lia)).
    pose proof (M (start + w1 + gap + (L - w1))%Z (Z.of_nat (length sample) - 1)%Z
                  ltac:(lia) ltac:(lia)).
    replace (Z.to_nat (Z.of_nat (length sample) - 1)) with (length sample - 1)%nat in * by lia.
    change (Z.to_nat 0) with 0%nat in *.
    subst lo hi. split; lra.
Qed.


(** A feasible answer of the optimiser yields two intervals with sample
    points as bounds, the first one to the left of the second, which
    together hold at least [L + 1] points of the sample.  The sample has
    at most [2^53] elements, so that [L] is a double. *)
Theorem double_interval_covers sample fraction :
  valid sample fraction -> (np.len sample <= 2 ^ 53)%Z ->
  feasible de sample fraction ->
  let L := Z.to_nat (window_length sample fraction) in
  exists I1 I2,
    Py.outcome (double_interval de sample fraction)
      = inr (I1, I2, (snd I2 - fst I2) + (snd I1 - fst I1)) /\
    (In (fst I1) sample /\ In (snd I1) sample /\
     In (fst I2) sample /\ In (snd I2) sample) /\
    (fst I1 <= snd I1 /\ snd I1 <= fst I2 /\ fst I2 <= snd I2) /\
    (L + 1 <= count_in2 I1 I2 sample)%nat.
Proof.
  intros Hv Hsmall Hf L0. destruct (init_fields Hv) as (lo & hi & _ & _ & _ & _ & Ei).
  pose proof (window_length_bounds Hv) as HL.
  unfold feasible in Hf. unfold double_interval. rewrite Ei in *.
  rewrite bind_ret. cbn [Py.outcome Py.ret snd] in Hf.
  set (minfunc := dbl_interval_length.mk _ _ _ _ _ _) in *.
  destruct (de _ _) as [[f1 p1] p2].
  destruct Hf as (Hf0 & Hf1 & Hp1 & Hp2 & Hsum).
  cbn [dbl_interval_length.space minfunc] in Hsum.
  unfold dbl_interval_length.return_intervals.
  cbn [dbl_interval_length.L dbl_interval_length.sample minfunc].
  subst L0. set (L := window_length sample fraction) in *.
  assert (Hlen : length (np.sort sample) = length sample) by apply sort_length.
  pose proof (sort_sorted sample) as Hs.
  pose proof (sort_perm sample) as Hperm.
  set (s := np.sort sample) in *.
  pose proof (int_nonneg Hp1) as Hs0. pose proof (int_nonneg Hp2) as Hg0.
  pose proof (@int_mul_scale f1 L Hf0 Hf1 ltac:(lia)) as Hw.
  set (start := np.int p1) in *. set (gap := np.int p2) in *.
  set (w1 := np.int (np.mul f1 (np.float L))) in *.
  unfold np.len in *.
  assert (G : forall i : Z, (0 <= i < Z.of_nat (length sample))%Z ->
              np.getitem s i = Some (nth (Z.to_nat i) s 0)).
  { intros i Hi. rewrite <- (Z2Nat.id i) at 1 by lia. apply getitem_nth. lia. }
  rewrite (G start), (G (start + w1)%Z), (G (start + w1 + gap)%Z),
    (G (start + w1 + gap + (L - w1))%Z) by lia.
  simpl Py.orelse. rewrite !bind_ret. cbn [Py.outcome Py.ret snd fst].
  set (a := Z.to_nat start). set (b := Z.to_nat (start + w1)).
  set (c := Z.to_nat (start + w1 + gap)).
  set (e := Z.to_nat (start + w1 + gap + (L - w1))).
  exists (nth a s 0, nth b s 0), (nth c s 0, nth e s 0).
  split; [reflexivity |]. cbn [fst snd].
  assert (M : forall i j : nat, (i <= j)%nat -> (j < length sample)%nat ->
              nth i s 0 <= nth j s 0).
  { intros i j Hij Hj. apply sorted_nth; [exact Hs | lia | lia]. }
  assert (I : forall i : nat, (i < length sample)%nat -> In (nth i s 0) sample).
  { intros i Hi. apply (Permutation_in _ (Permutation_sym Hperm)).
    apply nth_In. lia. }
  assert (Hab : (a <= b)%nat) by lia. assert (Hbc : (b <= c)%nat) by lia.
  assert (Hce : (c <= e)%nat) by lia. assert (He : (e < length sample)%nat) by lia.
  assert (Hcount : (e - c + (b - a) = Z.to_nat L)%nat) by lia.
  split; [repeat split; apply I; lia |].
  split; [repeat split; apply M; lia |].
  unfold count_in2. cbn [fst snd].
  set (p := fun x => inside (nth a s 0) (nth b s 0) x || inside (nth c s 0) (nth e s 0) x).
  rewrite (count_perm p Hperm).
  rewrite <- (firstn_skipn (b + 1) s), filter_app, length_app.
  assert (H1 : (b - a + 1 <= length (filter p (firstn (b + 1) s)))%nat).
  { apply (@count_run _ p 0 (firstn (b + 1) s) a (b - a + 1)).
    - rewrite length_firstn. lia.
    - intros j Hj. rewrite nth_firstn.
      destruct (Nat.ltb_spec j (b + 1)); [| lia].
      unfold p, inside. apply orb_true_iff. left.
      apply andb_true_iff. split; apply leb_le; apply M; lia. }
  assert (H2 : (e - c <= length (filter p (skipn (b + 1) s)))%nat).
  { apply (@count_run _ p 0 (skipn (b + 1) s) (c + 1 - (b + 1)) (e - c)).
    - rewrite length_skipn. lia.
    - intros j Hj. rewrite nth_skipn.
      unfold p, inside. apply orb_true_iff. right.
      apply andb_true_iff. split; apply leb_le; apply M; lia. }
  lia.
Qed.

(** With [force_single] the run is the warning, if any, followed by the
    best window; the optimiser is not consulted. *)
Lemma sample_hdi_forced sample fraction :
  valid sample fraction ->
  let s := np.sort sample in
  let L := Z.to_nat (window_length sample fraction) in
  exists i,
    (i + L < length s)%nat /\
    sample_hdi de sample fraction true =
    (if (np.len s - window_length sample fraction <? 20)%Z
     then [msg_inaccurate] else [],
     inr (Single (nth i s 0, nth (i + L) s 0))).
Proof.
  intros Hv s L. pose proof (window_length_bounds Hv) as HL.
  assert (HLn : (L < length s)%nat).
  { subst L s. rewrite sort_length. unfold np.len in HL. lia. }
  assert (HLz : window_length sample fraction = Z.of_nat L).
  { subst L. rewrite Z2Nat.id; lia. }
  destruct (single_interval_spec s HLn) as (i & Hi & Hmin & Hsi).
  exists i. split; [exact Hi |].
  rewrite (sample_hdi_valid de true Hv). fold s. rewrite HLz, Hsi.
  destruct (_ <? _)%Z; reflexivity.
Qed.

(** [int(0.1 * n)] leaves fewer than 20 points outside the window exactly
    for samples of at most 21 points. *)
Lemma tenth_window n :
  (2 <= n)%nat ->
  (Z.of_nat n - np.int (np.mul (np.fl (1 # 10)) (np.float (Z.of_nat n))) <? 20)%Z
  = (n <=? 21)%nat.
Proof.
  intros Hn. destruct (Nat.leb_spec n 21) as [H | H].
  - do 22 (destruct n as [| n]; [try lia; vm_compute; reflexivity |]). lia.
  - destruct (Nat.eq_dec n 22) as [-> | Hne]; [vm_compute; reflexivity |].
    apply Z.ltb_ge.
    assert (Hc0 : 0 <= np.fl (1 # 10)) by (vm_compute; discriminate).
    assert (Hc1 : np.fl (1 # 10) <= 11 # 100) by (vm_compute; discriminate).
    assert (HN : 23 <= inject_Z (Z.of_nat n)).
    { change 23 with (inject_Z 23). rewrite <- Zle_Qle. lia. }
    unfold np.mul, np.float.
    assert (Hn0 : 0 <= inject_Z (Z.of_nat n)) by lra.
    pose proof (fl_upper Hn0) as HuN. pose proof (fl_nonneg Hn0) as HflN.
    assert (Hx : 0 <= np.fl (1 # 10) * np.fl (inject_Z (Z.of_nat n))) by nra.
    pose proof (fl_upper Hx) as Hu. pose proof (fl_nonneg Hx) as Hfl.
    assert (HU : 2 ^ (-53) <= 1 # 100).
    { apply Qle_trans with (2 ^ (-7)); [apply pow2_le; lia | discriminate]. }
    assert (HT : 2 ^ (-1075) <= 1 # 100).
    { apply Qle_trans with (2 ^ (-7)); [apply pow2_le; lia | discriminate]. }
    pose proof (pow2_pos (-53)) as PU. pose proof (pow2_pos (-1075)) as PT.
    assert (Hle : (np.int (np.fl (np.fl (1 # 10) * np.fl (inject_Z (Z.of_nat n)))%Q)
                   <= Z.of_nat n - 20)%Z).
    { apply int_le_of_le; [exact Hfl |].
      unfold Z.sub. rewrite inject_Z_plus, inject_Z_opp. change (inject_Z 20) with 20.
      set (c := np.fl (1 # 10)) in *. set (N := inject_Z (Z.of_nat n)) in *.
      set (N' := np.fl N) in *.
      set (y := np.fl (c * N')) in *. set (U := 2 ^ (-53)) in *.
      set (T := 2 ^ (-1075)) in *. clearbody c N N' y U T.
      assert (N * U <= N * (1 # 100)) by nra.
      assert (HN' : N' <= (102 # 100) * N) by lra.
      assert (c * N' <= (11 # 100) * N') by nra.
      assert (c * N' * U <= (11 # 100) * N' * (1 # 100)) by nra.
      lra. }
    lia.
Qed.

End ObjectiveFacts.

Section ModeBracket.
Local Open Scope Q_scope.
Local Open Scope py_scope.

Variable de : optimiser.

(** Whenever the constructor of [GaussianKDE] reaches [locate_mode], the
    sample has at least two points and the call of [sample_hdi] succeeds
    whatever the optimiser: it returns a single interval with sample points
    as bounds, and warns exactly when the sample has at most 21 points. *)
Theorem locate_mode_bounds_spec sample h self :
  GaussianKDE.init sample h = Py.ret self ->
  (2 <= length sample)%nat /\
  exists lwr upr,
    GaussianKDE.locate_mode_bounds de self =
    (if (length sample <=? 21)%nat then [msg_inaccurate] else [],
     inr (Single (lwr, upr))) /\
    In lwr sample /\ In upr sample /\ lwr <= upr.
Proof.
  intros Hinit. unfold GaussianKDE.init in Hinit.
  bind_inv Hinit as s0 Hs0. bind_inv Hinit as s1 Hs1. bind_inv Hinit as lg Hlg.
  destruct (Z.ltb_spec (lg + 1) 0) as [? | Hn]; [discriminate |].
  bind_inv Hinit as tree Htree.
  unfold Py.ret in Hinit. injection Hinit as <-.
  destruct (int_log2_spec _ Hlg Hn) as [Hpos _].
  apply orelse_ret_inv in Hs0, Hs1.
  assert (Hlen : length (np.sort sample) = length sample) by apply sort_length.
  assert (H2 : (2 <= length sample)%nat).
  { destruct (Nat.le_gt_cases 2 (length sample)) as [H | H]; [exact H |].
    exfalso. unfold np.getitem, np.len in Hs0, Hs1. rewrite Hlen in Hs0, Hs1.
    destruct (length sample) as [| [| n]] eqn:E; [| | lia].
    - simpl in Hs0. discriminate.
    - simpl in Hs0, Hs1. rewrite Hs0 in Hs1. injection Hs1 as ->.
      assert (E0 : (s1 - s1) / h == 0) by (unfold Qdiv; ring).
      rewrite E0 in Hpos. apply (Qlt_irrefl 0), Hpos. }
  split; [exact H2 |].
  unfold GaussianKDE.locate_mode_bounds. cbn [GaussianKDE.s].
  assert (Hv : valid (np.sort sample) (np.fl (1 # 10))).
  { unfold valid, np.is_float. rewrite Hlen.
    split; [vm_compute; reflexivity |].
    split; [vm_compute; reflexivity |].
    split; [vm_compute; reflexivity | exact H2]. }
  destruct (sample_hdi_forced de Hv) as (i & Hi & E).
  rewrite E. unfold window_length, np.len in *. rewrite !sort_length in *.
  rewrite (tenth_window H2).
  set (ss := np.sort (np.sort sample)) in *.
  set (L := Z.to_nat (np.int (np.mul (np.fl (1 # 10))
                                    (np.float (Z.of_nat (length sample)))))) in *.
  exists (nth i ss 0), (nth (i + L) ss 0). split; [reflexivity |].
  assert (Hp : Permutation ss sample).
  { apply Permutation_sym. eapply Permutation_trans; [apply sort_perm |].
    apply sort_perm. }
  assert (Hlss : length ss = length sample) by (unfold ss; now rewrite !sort_length).
  repeat split.
  - apply (Permutation_in _ Hp), nth_In. lia.
  - apply (Permutation_in _ Hp), nth_In. lia.
  - apply sorted_nth; [apply sort_sorted | lia | lia].
Qed.

End ModeBracket.

Lemma small_two_clusters : (np.len [3; 0; 1; 10; 11; 12]%Q <= 2 ^ 53)%Z.
Proof. vm_compute. discriminate. Qed.


Lemma double_interval_covers_witness :
  valid [3; 0; 1; 10; 11; 12]%Q (np.fl (2 # 3)) /\
  (np.len [3; 0; 1; 10; 11; 12]%Q <= 2 ^ 53)%Z /\
  feasible (answer (1 # 2, 0, 1)%Q) [3; 0; 1; 10; 11; 12]%Q (np.fl (2 # 3)) /\
  let sample := [3; 0; 1; 10; 11; 12]%Q in
  let L := Z.to_nat (window_length sample (np.fl (2 # 3))) in
  exists I1 I2,
    Py.outcome (double_interval (answer (1 # 2, 0, 1)%Q) sample (np.fl (2 # 3)))
      = inr (I1, I2, ((snd I2 - fst I2) + (snd I1 - fst I1))%Q) /\
    (In (fst I1) sample /\ In (snd I1) sample /\
     In (fst I2) sample /\ In (snd I2) sample) /\
    (fst I1 <= snd I1 /\ snd I1 <= fst I2 /\ fst I2 <= snd I2)%Q /\
    (L + 1 <= count_in2 I1 I2 sample)%nat.
Proof.
  assert (Hf : feasible (answer (1 # 2, 0, 1)%Q) [3; 0; 1; 10; 11; 12]%Q
                 (np.fl (2 # 3))).
  { vm_compute. repeat split; discriminate. }
  split; [exact valid_two_clusters |]. split; [exact small_two_clusters |].
  split; [exact Hf |].
  exact (@double_interval_covers (answer (1 # 2, 0, 1)%Q) _ _
           valid_two_clusters small_two_clusters Hf).
Defined.

(** On the constant sample [[1] * 8] the objective is 0 at every point of
    the search box, so that every point is a minimiser the optimiser may
    return; at the point [(0.5, 2.5, 2.5)] of the box, outside the sample,
    [return_intervals] raises. *)
Example sample_hdi_constant_sample :
  let sample := [1; 1; 1; 1; 1; 1; 1; 1]%Q in
  valid sample (1 # 2) /\
  (exists self,
     dbl_interval_length.init sample (1 # 2) = Py.ret self /\
     in_box (1 # 2, 5 # 2, 5 # 2)%Q (dbl_interval_length.get_bounds self) /\
     forall paras, in_box paras (dbl_interval_length.get_bounds self) ->
       exists w, dbl_interval_length.call self paras = Py.ret w /\ (w == 0)%Q) /\
  Py.outcome (sample_hdi (answer (1 # 2, 5 # 2, 5 # 2)%Q) sample (1 # 2) false)
  = inl Py.IndexError.
Proof.
  cbv zeta. split; [exact valid_constant |]. split; [| vm_compute; reflexivity].
  assert (Hsmall : (np.len [1; 1; 1; 1; 1; 1; 1; 1]%Q <= 2 ^ 53)%Z)
    by (vm_compute; discriminate).
  eexists. split; [vm_compute; reflexivity |]. split.
  - unfold in_box. repeat (apply Forall2_cons; [split; discriminate |]).
    apply Forall2_nil.
  - intros paras Hb.
    destruct (@objective_range _ _ paras valid_constant Hsmall)
      as (self & Ei & Hw).
    assert (Es : self = dbl_interval_length.mk [1; 1; 1; 1; 1; 1; 1; 1]%Q (1 # 2) 8 4 4 0%Q).
    { assert (E : dbl_interval_length.init [1; 1; 1; 1; 1; 1; 1; 1]%Q (1 # 2)
                  = Py.ret (dbl_interval_length.mk [1; 1; 1; 1; 1; 1; 1; 1]%Q (1 # 2) 8 4 4 0%Q))
        by (vm_compute; reflexivity).
      rewrite E in Ei. injection Ei as <-. reflexivity. }
    subst self. destruct (Hw Hb) as (w & Ew & H0 & H1).
    exists w. split; [exact Ew |]. cbn [dbl_interval_length.max_length] in H1.
    apply Qle_antisym; assumption.
Qed.

Lemma locate_mode_bounds_spec_witness :
  exists self,
    GaussianKDE.init [0; 41 # 10; 44 # 10; 8]%Q 1 = Py.ret self /\
    (2 <= length [0; 41 # 10; 44 # 10; 8]%Q)%nat /\
    exists lwr upr,
      GaussianKDE.locate_mode_bounds (answer (1 # 2, 0, 0)%Q) self =
      (if (length [0; 41 # 10; 44 # 10; 8]%Q <=? 21)%nat then [msg_inaccurate] else [],
       inr (Single (lwr, upr))) /\
      In lwr [0; 41 # 10; 44 # 10; 8]%Q /\ In upr [0; 41 # 10; 44 # 10; 8]%Q /\
      (lwr <= upr)%Q.
Proof.
  eexists. split; [reflexivity |].
  exact (@locate_mode_bounds_spec (answer (1 # 2, 0, 0)%Q)
           [0; 41 # 10; 44 # 10; 8]%Q 1 _ eq_refl).
Defined.

(* ================================================================== *)
(** * Part VII: the density estimate of GaussianKDE                    *)
(* ================================================================== *)

Section DensityFacts.
Import BinaryTree.
Local Open Scope Q_scope.
Local Open Scope py_scope.

Lemma searchsorted1_mono a : forall v v',
  v <= v' -> (np.searchsorted1 a v <= np.searchsorted1 a v')%nat.
Proof.
  induction a as [| x a IH]; intros v v' Hv; simpl; [lia |].
  destruct (np.ltb x v) eqn:E; [| lia].
  apply ltb_lt in E. assert (E' : np.ltb x v' = true) by (apply ltb_lt; lra).
  rewrite E'. apply le_n_S, IH, Hv.
Qed.

(** A bandwidth below twice the range of the sample gives at least one
    layer. *)
Lemma int_log2_half x l :
  GaussianKDE.int_log2 x = Py.ret l -> (1 # 2) < x -> (0 <= l)%Z.
Proof.
  unfold GaussianKDE.int_log2. intros H Hx.
  destruct (np.ltb x 0); [discriminate |].
  destruct (np.leb x 0); [discriminate |].
  destruct (np.leb 1 x) eqn:E1; unfold Py.ret in H; injection H as <-.
  - apply Z.log2_nonneg.
  - apply not_true_iff_false in E1. rewrite leb_le in E1.
    assert (Hinv : / x < 2).
    { apply Qlt_shift_inv_r; lra. }
    assert (Hf : (Qfloor (/ x) < 2)%Z).
    { rewrite Zlt_Qlt. apply Qle_lt_trans with (/ x); [apply Qfloor_le | exact Hinv]. }
    destruct (Z.eq_dec (Qfloor (/ x)) 1) as [E | E]; [rewrite E; simpl; lia |].
    rewrite Z.log2_nonpos by lia. lia.
Qed.

(** What the constructor leaves behind: the tree over [[s0, s1]], and for
    every bucket the slice stored under its midpoint. *)
Lemma init_partition sample h self :
  0 < h -> GaussianKDE.init sample h = Py.ret self ->
  exists s0 s1 layers,
    (0 <= layers)%Z /\ s0 < s1 /\
    s0 = nth 0 (np.sort sample) 0 /\
    s1 = nth (length sample - 1) (np.sort sample) 0 /\
    (2 <= length sample)%nat /\
    BinaryTree.init layers (s0, s1) = Py.ret (GaussianKDE.tree self) /\
    GaussianKDE.s self = np.sort sample /\ GaussianKDE.h self = h /\
    ((1 # 2) < (s1 - s0) / h -> (1 <= layers)%Z) /\
    let N := (2 ^ Z.to_nat layers)%nat in
    let P := np.linspace s0 s1 (N + 1) in
    forall i key, (i < N)%nat -> key == (1 # 2) * (grid P i + grid P (i + 1)) ->
      grid P (i + 1) - grid P i < h /\
      exists l u,
        GaussianKDE.dict_get (GaussianKDE.slice_map self) key = Some (l, u) /\
        (l <= u <= length sample)%nat /\
        forall j, (j < length sample)%nat ->
          ((l <= j < u)%nat <->
           key - h * 4 <= nth j (np.sort sample) 0 /\
           nth j (np.sort sample) 0 < key + h * 4).
Proof.
  intros Hh Hinit. unfold GaussianKDE.init in Hinit.
  bind_inv Hinit as s0 Hs0. bind_inv Hinit as s1 Hs1. bind_inv Hinit as lg Hlg.
  destruct (Z.ltb_spec (lg + 1) 0) as [? | Hn]; [discriminate |].
  bind_inv Hinit as tree Htree.
  unfold Py.ret in Hinit. injection Hinit as <-.
  cbn [GaussianKDE.tree GaussianKDE.s GaussianKDE.h GaussianKDE.slice_map].
  set (N := (2 ^ Z.to_nat (lg + 1))%nat) in *.
  assert (HN : (1 <= N)%nat) by (pose proof (Nat.pow_nonzero 2 (Z.to_nat (lg + 1))); lia).
  destruct (int_log2_spec _ Hlg Hn) as [Hq0 HqN]. fold N in HqN.
  pose proof (qnat_pos HN) as HNpos.
  assert (Hr : s0 < s1).
  { assert (0 < (s1 - s0) / h * h) by nra.
    assert (E : (s1 - s0) / h * h == s1 - s0) by (field; lra).
    rewrite E in H. lra. }
  apply orelse_ret_inv in Hs0, Hs1.
  assert (Hlen : length (np.sort sample) = length sample) by apply sort_length.
  assert (H2 : (2 <= length sample)%nat).
  { destruct (Nat.le_gt_cases 2 (length sample)) as [H | H]; [exact H |].
    exfalso. unfold np.getitem, np.len in Hs0, Hs1. rewrite Hlen in Hs0, Hs1.
    destruct (length sample) as [| [| n]] eqn:E; [| | lia].
    - simpl in Hs0. discriminate.
    - simpl in Hs0, Hs1. rewrite Hs0 in Hs1. injection Hs1 as ->.
      apply (Qlt_irrefl s1), Hr. }
  assert (E0 : s0 = nth 0 (np.sort sample) 0).
  { pose proof (@getitem_nth _ (np.sort sample) 0%nat ltac:(lia) 0) as G.
    change (Z.of_nat 0) with 0%Z in G. congruence. }
  assert (E1 : s1 = nth (length sample - 1) (np.sort sample) 0).
  { unfold np.getitem, np.len in Hs1. rewrite Hlen in Hs1.
    destruct (Z.ltb_spec (-1) (Z.of_nat (length sample))); [| lia].
    simpl andb in Hs1.
    destruct (Z.leb_spec (- Z.of_nat (length sample)) (-1)); [| lia].
    simpl andb in Hs1.
    replace (Z.to_nat (-1 + Z.of_nat (length sample))) with (length sample - 1)%nat
      in Hs1 by lia.
    rewrite (nth_error_nth' _ 0) in Hs1 by lia.
    change (-1 <? 0)%Z with true in Hs1. cbv iota in Hs1. congruence. }
  exists s0, s1, (lg + 1)%Z.
  split; [exact Hn |]. split; [exact Hr |]. split; [exact E0 |]. split; [exact E1 |].
  split; [exact H2 |]. split; [exact Htree |]. split; [reflexivity |].
  split; [reflexivity |].
  split; [intros Hhalf; pose proof (@int_log2_half _ _ Hlg Hhalf); lia |].
  cbv zeta. fold N. set (P := np.linspace s0 s1 (N + 1)). intros i key Hi Hkey.
  assert (HlenP : length P = (N + 1)%nat) by apply linspace_length.
  set (mids := np.scale (1 # 2) (np.add (np.slice_from P 1) (np.slice_to P (-1)))).
  assert (Hmid : forall j, (j < N)%nat ->
            nth_error mids j = Some ((1 # 2) * (grid P (j + 1) + grid P j))).
  { intros j Hj. apply midpoints_nth. lia. }
  assert (Hinc : forall a b, (a < b)%nat -> (b <= N)%nat -> grid P a < grid P b).
  { intros a b Hab Hb. apply linspace_increasing; assumption. }
  assert (Hlenm : length mids = N) by (unfold mids; rewrite midpoints_length; lia).
  assert (Hsorted : StronglySorted Qlt mids).
  { apply sorted_of_nth. intros a b Hab Hb. rewrite Hlenm in Hb.
    rewrite (nth_error_nth mids a 0 (Hmid a ltac:(lia))).
    rewrite (nth_error_nth mids b 0 (Hmid b Hb)).
    pose proof (Hinc a b Hab ltac:(lia)).
    pose proof (Hinc (a + 1)%nat (b + 1)%nat ltac:(lia) ltac:(lia)). lra. }
  set (midk := (1 # 2) * (grid P (i + 1) + grid P i)).
  assert (Emid : key == midk) by (rewrite Hkey; unfold midk; ring).
  set (l := np.searchsorted1 (np.sort sample) (midk + - (h * 4))).
  set (u := np.searchsorted1 (np.sort sample) (midk + h * 4)).
  assert (Hmid' : nth_error mids i = Some midk) by (apply Hmid; exact Hi).
  split.
  { unfold grid, P. rewrite !linspace_nth by lia. rewrite qnat_add.
    change (qnat 1) with 1.
    assert (E : (s1 - s0) / h * h == s1 - s0) by (field; lra).
    assert (Hlt : s1 - s0 < qnat N * h) by nra.
    assert (E' : (s1 - s0) / qnat N * qnat N == s1 - s0) by (field; lra).
    assert ((s1 - s0) / qnat N < h) by nra. lra. }
  exists l, u. split; [| split].
  - apply dict_get_zip with (i := i) (k := midk).
    + exact Hsorted.
    + exact Hmid'.
    + apply combine_nth_error.
      * unfold l, np.searchsorted, np.shift.
        apply (map_nth_error (np.searchsorted1 (np.sort sample))).
        apply (map_nth_error (fun x => x + - (h * 4))). exact Hmid'.
      * unfold u, np.searchsorted, np.shift.
        apply (map_nth_error (np.searchsorted1 (np.sort sample))).
        apply (map_nth_error (fun x => x + h * 4)). exact Hmid'.
    + exact Emid.
  - split; [apply searchsorted1_mono; lra |].
    rewrite <- Hlen. apply searchsorted1_le.
  - intros j Hj. rewrite <- Hlen in Hj. unfold l, u.
    pose proof (searchsorted1_spec (midk + - (h * 4)) (sort_sorted sample) Hj) as H1.
    pose proof (searchsorted1_spec (midk + h * 4) (sort_sorted sample) Hj) as H2'.
    split.
    + intros [Hl Hu]. apply H2' in Hu. split; [| lra].
      destruct (Qlt_le_dec (nth j (np.sort sample) 0) (midk + - (h * 4))) as [Hlt | Hge];
        [apply H1 in Hlt; lia | lra].
    + intros [Hl Hu]. split; [| apply H2'; lra].
      destruct (Nat.lt_ge_cases j (np.searchsorted1 (np.sort sample) (midk + - (h * 4))))
        as [Hlt | Hge]; [apply H1 in Hlt; lra | exact Hge].
Qed.

(** The region [lookup] finds for [x], the slice stored for it, and the
    distance of the samples the slice leaves out. *)
Lemma region_of sample h self x :
  0 < h -> GaussianKDE.init sample h = Py.ret self ->
  h < 2 * (nth (length sample - 1) (np.sort sample) 0 - nth 0 (np.sort sample) 0) ->
  exists lo hi mid l u,
    lookup (GaussianKDE.tree self) x = Py.ret (Lst [Num lo; Num hi; Num mid]) /\
    mid == (lo + hi) / 2 /\ lo < hi /\ hi - lo < h /\
    GaussianKDE.region_slice self x = Py.ret (l, u) /\
    (l <= u <= length sample)%nat /\
    (forall j, (j < length sample)%nat ->
       ((l <= j < u)%nat <->
        mid - h * 4 <= nth j (np.sort sample) 0 /\
        nth j (np.sort sample) 0 < mid + h * 4)) /\
    (forall j, (j < length sample)%nat -> ~ (l <= j < u)%nat ->
       (7 # 2) * h < x - nth j (np.sort sample) 0 \/
       (7 # 2) * h < nth j (np.sort sample) 0 - x).
Proof.
  intros Hh Hinit Hrange.
  destruct (@init_partition _ _ _ Hh Hinit)
    as (s0 & s1 & layers & Hl0 & Hr & E0 & E1 & H2 & Htree & Es & Eh & Hhalf & Hpart).
  rewrite <- E0, <- E1 in Hrange.
  assert (Hl : (1 <= layers)%Z).
  { apply Hhalf. apply Qlt_shift_div_l; lra. }
  cbv zeta in Hpart.
  set (N := (2 ^ Z.to_nat layers)%nat) in *.
  set (P := np.linspace s0 s1 (N + 1)) in *.
  destruct (@init_descend layers s0 s1 x Hl Hr) as (tree & c & Ei & Hc & El & Hlo & Hhi).
  fold N in Hc, Hlo, Hhi, El. fold P in El, Hlo, Hhi.
  rewrite Htree in Ei. unfold Py.ret in Ei. injection Ei as <-.
  assert (HN : (2 <= N)%nat).
  { unfold N. replace (Z.to_nat layers) with (S (Z.to_nat layers - 1)) by lia.
    pose proof (Nat.pow_nonzero 2 (Z.to_nat layers - 1)). simpl. lia. }
  set (lo := grid P c) in *. set (hi := grid P (c + 1)) in *.
  set (mid := (1 # 2) * (lo + hi)).
  destruct (Hpart c mid Hc ltac:(reflexivity)) as (Hw & l & u & Hget & Hlu & Hiff).
  fold lo hi in Hw.
  assert (Hinc : forall a b, (a < b)%nat -> (b <= N)%nat -> grid P a < grid P b).
  { intros a b Hab Hb. apply linspace_increasing; [exact Hr | lia | exact Hab | exact Hb]. }
  assert (Hlohi : lo < hi) by (apply Hinc; lia).
  assert (HP0 : grid P 0 == s0).
  { unfold grid, P. rewrite linspace_nth by lia. unfold qnat. simpl. ring. }
  assert (HPN : grid P N = s1) by (apply linspace_last; lia).
  exists lo, hi, mid, l, u.
  split; [exact El |]. split; [unfold mid; field |]. split; [exact Hlohi |].
  split; [exact Hw |]. split; [| split; [exact Hlu | split; [exact Hiff |]]].
  - unfold GaussianKDE.region_slice. rewrite El, bind_ret.
    unfold leaf. cbn [item nth_error Py.orelse number]. rewrite !bind_ret.
    fold lo hi mid. cbn [number]. rewrite bind_ret, Hget. reflexivity.
  - intros j Hj Hout.
    assert (Hs0 : s0 <= nth j (np.sort sample) 0).
    { rewrite E0. apply sorted_nth; [apply sort_sorted | lia | rewrite sort_length; lia]. }
    assert (Hs1 : nth j (np.sort sample) 0 <= s1).
    { rewrite E1. apply sorted_nth; [apply sort_sorted | lia | rewrite sort_length; lia]. }
    destruct (Qlt_le_dec (nth j (np.sort sample) 0) (mid - h * 4)) as [Hlt | Hge].
    + left. destruct (Nat.eq_dec c 0) as [-> | Hc0].
      * unfold mid in *. subst lo. lra.
      * pose proof (Hlo ltac:(lia)). unfold mid in *. lra.
    + right. destruct (Qlt_le_dec (nth j (np.sort sample) 0) (mid + h * 4)) as [Hlt' | Hge'].
      * exfalso. apply Hout, Hiff; [exact Hj | split; assumption].
      * destruct (Nat.eq_dec (c + 1) N) as [EN | HcN].
        -- unfold mid in *. subst hi. rewrite EN in *. rewrite HPN in *. lra.
        -- pose proof (Hhi ltac:(lia)). unfold mid in *. lra.
Qed.

(** For a bandwidth below twice the range of the sample, [density] finds
    for every [x] a region and the slice stored for it, so no look-up fails;
    the samples of the slice are those within [cutoff = 4 h] of the
    midpoint of the region, and every sample left out is farther than
    [3.5 h] from [x]. *)
Theorem density_samples_spec sample h self x :
  0 < h -> GaussianKDE.init sample h = Py.ret self ->
  h < 2 * (nth (length sample - 1) (np.sort sample) 0 - nth 0 (np.sort sample) 0) ->
  exists lo hi mid l u,
    lookup (GaussianKDE.tree self) x = Py.ret (Lst [Num lo; Num hi; Num mid]) /\
    GaussianKDE.region_slice self x = Py.ret (l, u) /\
    GaussianKDE.density_samples self x
    = Py.ret (firstn (u - l) (skipn l (np.sort sample))) /\
    (forall j, (j < length sample)%nat ->
       ((l <= j < u)%nat <->
        mid - h * 4 <= nth j (np.sort sample) 0 /\
        nth j (np.sort sample) 0 < mid + h * 4)) /\
    (forall j, (j < length sample)%nat -> ~ (l <= j < u)%nat ->
       (7 # 2) * h < Qabs (x - nth j (np.sort sample) 0)).
Proof.
  intros Hh Hinit Hrange.
  destruct (@region_of _ _ _ x Hh Hinit Hrange)
    as (lo & hi & mid & l & u & El & _ & _ & _ & Er & _ & Hiff & Hfar).
  destruct (@init_partition _ _ _ Hh Hinit)
    as (_ & _ & _ & _ & _ & _ & _ & _ & _ & Es & _).
  exists lo, hi, mid, l, u.
  split; [exact El |]. split; [exact Er |]. split; [| split; [exact Hiff |]].
  - unfold GaussianKDE.density_samples. rewrite Er, bind_ret, Es. reflexivity.
  - intros j Hj Hout. destruct (Hfar j Hj Hout) as [H | H].
    + apply Qlt_le_trans with (x - nth j (np.sort sample) 0); [exact H |].
      apply Qle_Qabs.
    + apply Qlt_le_trans with (nth j (np.sort sample) 0 - x); [exact H |].
      rewrite Qabs_Qminus. apply Qle_Qabs.
Qed.

(** A sample whose values are all equal has range 0: with an explicit
    non-zero bandwidth the number of layers is [int(log(0)/log(2)) + 1], and
    the constructor raises [OverflowError]. *)
Theorem init_constant_sample sample h c :
  sample <> [] -> (forall y, In y sample -> y == c) -> ~ h == 0 ->
  GaussianKDE.init sample h = Py.raise Py.OverflowError.
Proof.
  intros Hne Hall Hh.
  assert (Hlen : length (np.sort sample) = length sample) by apply sort_length.
  assert (Hpos : (0 < length sample)%nat) by (destruct sample; [congruence | simpl; lia]).
  assert (Hc : forall i d, (i < length sample)%nat -> nth i (np.sort sample) d == c).
  { intros i d Hi. apply Hall.
    apply (Permutation_in _ (Permutation_sym (sort_perm sample))).
    apply nth_In. lia. }
  unfold GaussianKDE.init.
  pose proof (@getitem_nth _ (np.sort sample) 0%nat ltac:(lia) 0) as G0.
  change (Z.of_nat 0) with 0%Z in G0. rewrite G0.
  destruct (@getitem_in_range _ (np.sort sample) (-1)) as [s1 E1];
    [unfold np.len; lia |].
  rewrite E1. simpl Py.orelse. rewrite !bind_ret.
  assert (Hs1 : s1 == c).
  { apply Hall. apply (Permutation_in _ (Permutation_sym (sort_perm sample))).
    unfold np.getitem in E1.
    destruct (_ && _); [apply nth_error_In in E1; exact E1 |].
    destruct (_ && _); [apply nth_error_In in E1; exact E1 | discriminate]. }
  assert (E : (s1 - nth 0 (np.sort sample) 0) / h == 0).
  { rewrite Hs1, (Hc 0%nat 0 Hpos). field. exact Hh. }
  unfold GaussianKDE.int_log2.
  assert (El : np.ltb ((s1 - nth 0 (np.sort sample) 0) / h) 0 = false).
  { apply ltb_ge. rewrite E. apply Qle_refl. }
  assert (Ele : np.leb ((s1 - nth 0 (np.sort sample) 0) / h) 0 = true).
  { apply leb_le. rewrite E. apply Qle_refl. }
  rewrite El, Ele. reflexivity.
Qed.

End DensityFacts.

Section TruncationFacts.
Local Open Scope R_scope.
Local Open Scope py_scope.

Lemma sum_le_const (f : Q -> R) (c : R) l :
  (forall y, In y l -> 0 <= f y <= c) ->
  0 <= npr.sum (map f l) <= INR (length l) * c.
Proof.
  induction l as [| y l IH]; intros H.
  - simpl. lra.
  - cbn [map npr.sum fold_right]. fold (npr.sum (map f l)).
    change (length (y :: l)) with (S (length l)). rewrite S_INR.
    pose proof (H y (or_introl eq_refl)).
    pose proof (IH (fun z Hz => H z (or_intror Hz))). lra.
Qed.

(** A sample farther than [3.5 h] from [x] adds less than [exp(-49/8)] to
    the kernel sum. *)
Lemma kernel_far (x y h : Q) :
  (0 < h)%Q ->
  ((7 # 2) * h < x - y \/ (7 # 2) * h < y - x)%Q ->
  0 <= exp (- ((Q2R x - Q2R y) * (1 / (sqrt 2 * Q2R h))) ^ 2) <= exp (- (49 / 8)).
Proof.
  intros Hh Hfar.
  assert (HH : 0 < Q2R h).
  { apply Qlt_Rlt in Hh. unfold Q2R in Hh at 1. simpl in Hh. lra. }
  split; [left; apply exp_pos |].
  set (a := Q2R x - Q2R y). set (H := Q2R h) in *.
  assert (Ha : 3.5 * H < a \/ 3.5 * H < - a).
  { destruct Hfar as [F | F]; apply Qlt_Rlt in F;
      rewrite Q2R_mult, Q2R_minus in F;
      replace (Q2R (7 # 2)) with 3.5 in F by (unfold Q2R; simpl; lra);
      fold H in F; unfold a; [left | right]; lra. }
  assert (Hsq : 12.25 * H ^ 2 < a ^ 2) by (destruct Ha; nra).
  assert (E : (a * (1 / (sqrt 2 * H))) ^ 2 = a ^ 2 / (2 * H ^ 2)).
  { rewrite <- sqrt2_sq at 2. field. split; [lra | apply sqrt2_neq_0]. }
  rewrite E.
  assert (Hq : 49 / 8 < a ^ 2 / (2 * H ^ 2)).
  { apply Rmult_lt_reg_r with (2 * H ^ 2); [nra |].
    replace (a ^ 2 / (2 * H ^ 2) * (2 * H ^ 2)) with (a ^ 2) by (field; lra). lra. }
  left. apply exp_increasing. lra.
Qed.

(** The truncated kernel sum that [density] returns is a lower bound of the
    full Gaussian kernel density estimate, and falls short of it by less
    than [exp(-49/8) / (sqrt(2 pi) h)], about 0.0022 times the height of one
    kernel. *)
Theorem density_truncation sample h self x :
  (0 < h)%Q -> GaussianKDE.init sample h = Py.ret self ->
  (h < 2 * (nth (length sample - 1) (np.sort sample) 0 - nth 0 (np.sort sample) 0))%Q ->
  exists d,
    Estimate.density self x = Py.ret d /\
    let full :=
      Estimate.norm self
      * npr.sum (map (fun si => exp (- ((Q2R x - Q2R si) * Estimate.q self) ^ 2))
                     (GaussianKDE.s self)) in
    d <= full <= d + exp (- (49 / 8)) / (sqrt (2 * PI) * Q2R h).
Proof.
  intros Hh Hinit Hrange.
  destruct (@region_of _ _ _ x Hh Hinit Hrange)
    as (lo & hi & mid & l & u & _ & _ & _ & _ & Er & Hlu & _ & Hfar).
  destruct (@init_partition _ _ _ Hh Hinit)
    as (_ & _ & _ & _ & _ & _ & _ & H2 & _ & Es & Eh & _).
  unfold Estimate.density, GaussianKDE.density_samples.
  rewrite Er, !bind_ret. eexists. split; [reflexivity |].
  unfold Estimate.norm, Estimate.q. rewrite Es, Eh. cbn [fst snd].
  set (s := np.sort sample) in *.
  assert (Hlen : length s = length sample) by apply sort_length.
  set (k := fun si : Q => exp (- ((Q2R x - Q2R si) * (1 / (sqrt 2 * Q2R h))) ^ 2)).
  assert (HH : 0 < Q2R h).
  { apply Qlt_Rlt in Hh. unfold Q2R in Hh at 1. simpl in Hh. lra. }
  assert (Hn : 0 < INR (length s)) by (apply lt_0_INR; lia).
  assert (Hpi : 0 < sqrt (2 * PI)).
  { apply sqrt_lt_R0. pose proof PI_RGT_0. lra. }
  assert (Hsplit : s = firstn l s ++ firstn (u - l) (skipn l s) ++ skipn u s).
  { rewrite <- (firstn_skipn l s) at 1. f_equal.
    rewrite <- (firstn_skipn (u - l) (skipn l s)) at 1. f_equal.
    rewrite skipn_skipn. f_equal. lia. }
  assert (Hout : forall y, In y (firstn l s) \/ In y (skipn u s) ->
                 0 <= k y <= exp (- (49 / 8))).
  { intros y Hy. apply kernel_far; [exact Hh |].
    destruct Hy as [Hy | Hy]; apply (In_nth _ _ 0%Q) in Hy;
      destruct Hy as (j & Hj & <-).
    - rewrite length_firstn in Hj. rewrite nth_firstn.
      destruct (Nat.ltb_spec j l); [| lia]. apply Hfar; lia.
    - rewrite length_skipn in Hj. rewrite nth_skipn. apply Hfar; lia. }
  pose proof (@sum_le_const k (exp (- (49 / 8))) (firstn l s)
                (fun y Hy => Hout y (or_introl Hy))) as HA.
  pose proof (@sum_le_const k (exp (- (49 / 8))) (skipn u s)
                (fun y Hy => Hout y (or_intror Hy))) as HB.
  rewrite length_firstn in HA. rewrite length_skipn in HB.
  set (A := npr.sum (map k (firstn l s))) in *.
  set (B := npr.sum (map k (skipn u s))) in *.
  set (S := npr.sum (map k (firstn (u - l) (skipn l s)))).
  assert (Efull : npr.sum (map k s) = A + (S + B)).
  { rewrite Hsplit at 1. rewrite !map_app, !sum_app. reflexivity. }
  rewrite Efull.
  set (nrm := 1 / (INR (length s) * sqrt (2 * PI) * Q2R h)).
  assert (Hnrm : 0 < nrm).
  { unfold nrm. apply Rdiv_lt_0_compat; [lra |].
    apply Rmult_lt_0_compat; [apply Rmult_lt_0_compat |]; assumption. }
  assert (Hcount : INR (Nat.min l (length s)) + INR (length s - u) <= INR (length s)).
  { rewrite <- plus_INR. apply le_INR. lia. }
  assert (He : 0 < exp (- (49 / 8))) by apply exp_pos.
  assert (HAB : 0 <= A + B <= INR (length s) * exp (- (49 / 8))) by nra.
  assert (Ebound : exp (- (49 / 8)) / (sqrt (2 * PI) * Q2R h)
                   = nrm * (INR (length s) * exp (- (49 / 8)))).
  { unfold nrm. field. repeat split; lra. }
  rewrite Ebound. split; nra.
Qed.

End TruncationFacts.

Lemma buckets_equal_width_witness :
  (0 <= 2)%Z /\ (1 < 2 ^ Z.to_nat 2)%nat /\
  let w := ((1 - 0) / qnat (2 ^ Z.to_nat 2))%Q in
  exists a b m,
    nth_error (buckets 2 0 1) 1
    = Some (BinaryTree.Lst [BinaryTree.Num a; BinaryTree.Num b; BinaryTree.Num m]) /\
    (a == 0 + qnat 1 * w)%Q /\ (b == 0 + qnat (1 + 1) * w)%Q /\
    (m == (a + b) / 2)%Q.
Proof.
  split; [lia |]. split; [simpl; lia |].
  apply (@buckets_equal_width 2 0 1 1); [lia | simpl; lia].
Defined.

Lemma density_samples_spec_witness :
  exists self,
    (0 < 1)%Q /\
    GaussianKDE.init [0; 41 # 10; 44 # 10; 8]%Q 1 = Py.ret self /\
    let sample := [0; 41 # 10; 44 # 10; 8]%Q in
    (1 < 2 * (nth (length sample - 1) (np.sort sample) 0 - nth 0 (np.sort sample) 0))%Q /\
    exists lo hi mid l u,
      BinaryTree.lookup (GaussianKDE.tree self) (1 # 2)
      = Py.ret (BinaryTree.Lst [BinaryTree.Num lo; BinaryTree.Num hi; BinaryTree.Num mid]) /\
      GaussianKDE.region_slice self (1 # 2) = Py.ret (l, u) /\
      GaussianKDE.density_samples self (1 # 2)
      = Py.ret (firstn (u - l) (skipn l (np.sort sample))) /\
      (forall j, (j < length sample)%nat ->
         ((l <= j < u)%nat <->
          (mid - 1 * 4 <= nth j (np.sort sample) 0 /\
           nth j (np.sort sample) 0 < mid + 1 * 4)%Q)) /\
      (forall j, (j < length sample)%nat -> ~ (l <= j < u)%nat ->
         ((7 # 2) * 1 < Qabs ((1 # 2) - nth j (np.sort sample) 0))%Q).
Proof.
  eexists. split; [reflexivity |]. split; [reflexivity |].
  cbv zeta. split; [reflexivity |].
  exact (@density_samples_spec [0; 41 # 10; 44 # 10; 8]%Q 1 _ (1 # 2)
           eq_refl eq_refl eq_refl).
Defined.

Lemma density_truncation_witness :
  exists self,
    (0 < 1)%Q /\
    GaussianKDE.init [0; 41 # 10; 44 # 10; 8]%Q 1 = Py.ret self /\
    let sample := [0; 41 # 10; 44 # 10; 8]%Q in
    (1 < 2 * (nth (length sample - 1) (np.sort sample) 0 - nth 0 (np.sort sample) 0))%Q /\
    exists d,
      Estimate.density self (1 # 2) = Py.ret d /\
      let full :=
        (Estimate.norm self
         * npr.sum (map (fun si => exp (- ((Q2R (1 # 2) - Q2R si) * Estimate.q self) ^ 2))
                        (GaussianKDE.s self)))%R in
      (d <= full <= d + exp (- (49 / 8)) / (sqrt (2 * PI) * Q2R 1))%R.
Proof.
  eexists. split; [reflexivity |]. split; [reflexivity |].
  cbv zeta. split; [reflexivity |].
  exact (@density_truncation [0; 41 # 10; 44 # 10; 8]%Q 1 _ (1 # 2)
           eq_refl eq_refl eq_refl).
Defined.

Lemma init_constant_sample_witness :
  [1; 1; 1]%Q <> [] /\ (forall y, In y [1; 1; 1]%Q -> (y == 1)%Q) /\ ~ (1 == 0)%Q /\
  GaussianKDE.init [1; 1; 1]%Q 1 = Py.raise Py.OverflowError.
Proof.
  assert (Hall : forall y, In y [1; 1; 1]%Q -> (y == 1)%Q).
  { intros y [<- | [<- | [<- | []]]]; reflexivity. }
  split; [discriminate |]. split; [exact Hall |]. split; [discriminate |].
  apply (@init_constant_sample [1; 1; 1]%Q 1 1); [discriminate | exact Hall | discriminate].
Defined.

(* ================================================================== *)
(** * Part VIII: what binary_search returns                            *)
(* ================================================================== *)

Section RootBracket.
Import DensityEstimator.
Local Open Scope R_scope.

Variable func : R -> R.
Variable value : R.
Variable uphill : bool.

(** The level [value] lies between the values of the function at the two
    ends of the bracket, on the side the direction of the search expects. *)
Definition crossing (a b : R) : Prop :=
  if uphill then func a <= value < func b else func b <= value < func a.

Lemma pass_crossing st :
  crossing (lower st) (upper st) ->
  let st' := pass func value uphill st in
  crossing (lower st') (upper st').
Proof.
  destruct st as [[a b] x]. unfold crossing, pass. cbn [lower upper].
  destruct (npr.ltb value (func x)) eqn:E.
  - apply ltb_true in E. destruct uphill; cbn [lower upper]; lra.
  - apply ltb_false in E. destruct uphill; cbn [lower upper]; lra.
Qed.

Lemma iterate_crossing k : forall st,
  crossing (lower st) (upper st) ->
  crossing (lower (iterate func value uphill k st))
           (upper (iterate func value uphill k st)).
Proof.
  induction k as [| k IH]; intros st H; [exact H |].
  cbn [iterate]. apply IH, pass_crossing, H.
Qed.

(** The polish step on a bracket with a crossing: the point where the
    chord through the two ends takes the value, inside the bracket. *)
Lemma polish_crossing a b x :
  a < b -> crossing a b ->
  exists r,
    polish func value (a, b, x) = Some r /\
    a <= r <= b /\ (r - a) * (func b - func a) = (value - func a) * (b - a).
Proof.
  intros Hab Hc. unfold polish. cbv beta iota zeta.
  set (A := func a) in *. set (B := func b) in *.
  assert (Hdf : B - A <> 0).
  { revert Hc. unfold crossing. fold A B. case uphill; lra. }
  destruct (Req_dec_T (B - A) 0) as [E | _]; [contradiction |].
  eexists. split; [reflexivity |].
  set (t := (value - A) / (B - A)).
  assert (Ht : 0 <= t <= 1).
  { unfold t. revert Hc. unfold crossing. fold A B. case uphill; intros Hc.
    - split.
      + apply Rmult_le_reg_r with (B - A); [lra |].
        unfold Rdiv. rewrite Rmult_assoc, Rinv_l by exact Hdf. lra.
      + apply Rmult_le_reg_r with (B - A); [lra |].
        unfold Rdiv. rewrite Rmult_assoc, Rinv_l by exact Hdf. lra.
    - assert (E : (value - A) / (B - A) = (A - value) / (A - B)) by (field; lra).
      rewrite E. split.
      + apply Rmult_le_reg_r with (A - B); [lra |].
        unfold Rdiv. rewrite Rmult_assoc, Rinv_l by lra. lra.
      + apply Rmult_le_reg_r with (A - B); [lra |].
        unfold Rdiv. rewrite Rmult_assoc, Rinv_l by lra. lra. }
  assert (Er : a * ((B - value) / (B - A)) + b * t = a + t * (b - a))
    by (unfold t; field; exact Hdf).
  rewrite Er. split; [split; nra |].
  unfold t. field. exact Hdf.
Qed.

(** A search started on a bracket with a crossing, clear of zero, ends
    with a narrower bracket with a crossing, and returns a point of it. *)
Lemma search_brackets x_min x_max :
  x_min < x_max -> 0 < x_min \/ x_max < 0 -> crossing x_min x_max ->
  exists passes a b r,
    (forall fuel, (passes <= fuel)%nat ->
       binary_search fuel func value (x_min, x_max) uphill = Some (Some r)) /\
    (x_min <= a /\ a < b /\ b <= x_max) /\
    b - a = (x_max - x_min) / 2 ^ passes /\
    crossing a b /\
    Rabs ((b - a) / ((a + b) * 0.5)) < 1e-3 /\
    a <= r <= b /\
    (r - a) * (func b - func a) = (value - func a) * (b - a).
Proof.
  intros Hlt Hsign Hcross.
  set (st0 := (x_min, x_max, (x_min + x_max) * 0.5)).
  assert (Hb : bracket st0) by (unfold st0; simpl; auto).
  destruct (@converged_eventually func value uphill st0 Hb Hsign) as [K HK].
  destruct (@first_converged func value uphill st0 K HK) as (k & _ & Hc & Hn).
  pose proof (@iterate_bracket func value uphill (S k) st0 Hb) as (Hb' & Hw & Hl & Hu).
  pose proof (@iterate_crossing (S k) st0 Hcross) as Hcr.
  destruct (iterate func value uphill (S k) st0) as [[a b] x] eqn:E.
  cbn [lower upper width bracket st0] in *. destruct Hb' as [Hab Hx].
  destruct (@polish_crossing a b x Hab Hcr) as (r & Ep & Hr & Hint).
  exists (S k), a, b, r.
  split; [| split; [lra | split; [exact Hw | split; [exact Hcr | split;
    [| split; [exact Hr | exact Hint]]]]]].
  - intros fuel Hf. unfold binary_search.
    rewrite (@loop_first func value uphill k st0) by (rewrite ?E; assumption).
    rewrite E, Ep. reflexivity.
  - unfold converged in Hc. destruct (Req_dec_T x 0) as [? | _]; [discriminate |].
    apply ltb_true in Hc. rewrite <- Hx. exact Hc.
Qed.

End RootBracket.

Section SearchTheorems.
Import DensityEstimator.
Local Open Scope R_scope.

(** Started on a bracket [x_min < x_max] clear of zero, at whose ends the
    function lies on either side of [value] as the direction expects,
    [binary_search] returns: the loop ends with a bracket inside the first
    one, [2^passes] times narrower, of relative width below [1e-3], at
    whose ends the function still lies on either side of [value]; the
    result is the point of that bracket where the chord through its ends
    takes the value. *)
Theorem binary_search_brackets (func : R -> R) (value : R) (uphill : bool)
  (x_min x_max : R) :
  x_min < x_max -> 0 < x_min \/ x_max < 0 ->
  (if uphill then func x_min <= value < func x_max
   else func x_max <= value < func x_min) ->
  exists passes a b r,
    (forall fuel, (passes <= fuel)%nat ->
       binary_search fuel func value (x_min, x_max) uphill = Some (Some r)) /\
    (x_min <= a /\ a < b /\ b <= x_max) /\
    b - a = (x_max - x_min) / 2 ^ passes /\
    (if uphill then func a <= value < func b else func b <= value < func a) /\
    Rabs ((b - a) / ((a + b) * 0.5)) < 1e-3 /\
    a <= r <= b /\
    (r - a) * (func b - func a) = (value - func a) * (b - a).
Proof. apply search_brackets. Qed.

(** [get_interval(z)] on an axis clear of zero, for a level [z] below the
    density at the mode and not below the density at the two limits: both
    searches return, the lower bound between [lwr_limit] and the mode and
    the upper bound between the mode and [upr_limit]. *)
Theorem get_interval_ordered (call : R -> R) (lwr_limit mode upr_limit z : R) :
  lwr_limit < mode < upr_limit ->
  0 < lwr_limit \/ upr_limit < 0 ->
  call lwr_limit <= z -> call upr_limit <= z -> z < call mode ->
  exists fuel0 lwr upr,
    (forall fuel, (fuel0 <= fuel)%nat ->
       get_interval fuel call lwr_limit mode upr_limit z
       = Some (Some lwr, Some upr)) /\
    lwr_limit <= lwr <= mode /\ mode <= upr <= upr_limit.
Proof.
  intros [H1 H2] Hsign Hl Hu Hm.
  assert (S1 : 0 < lwr_limit \/ mode < 0) by lra.
  assert (S2 : 0 < mode \/ upr_limit < 0) by lra.
  assert (C1 : crossing call z true lwr_limit mode) by (unfold crossing; lra).
  assert (C2 : crossing call z false mode upr_limit) by (unfold crossing; lra).
  destruct (@search_brackets call z true lwr_limit mode H1 S1 C1)
    as (p1 & a1 & b1 & lwr & E1 & Hin1 & _ & _ & _ & Hr1 & _).
  destruct (@search_brackets call z false mode upr_limit H2 S2 C2)
    as (p2 & a2 & b2 & upr & E2 & Hin2 & _ & _ & _ & Hr2 & _).
  exists (Nat.max p1 p2), lwr, upr. split; [| lra].
  intros fuel Hf. unfold get_interval.
  rewrite E1, E2 by lia. reflexivity.
Qed.

Lemma half_pow b k : (0 + b) * 0.5 / 2 ^ S k = b / 2 ^ S (S k).
Proof.
  replace ((0 + b) * 0.5) with (b / 2) by lra.
  simpl. field. apply pow_nonzero. lra.
Qed.

(** No bracket [[0, b]] meets the convergence test: its relative width
    is 2. *)
Lemma zero_bracket_open b :
  0 < b -> converged (0, (0 + b) * 0.5, (0 + (0 + b) * 0.5) * 0.5) = false.
Proof.
  intros Hb. unfold converged.
  destruct (Req_dec_T _ 0) as [? | Hx]; [reflexivity |].
  apply ltb_false.
  replace ((0 + (0 + b) * 0.5) * 0.5) with (b / 4) by lra.
  replace ((0 + b) * 0.5 - 0) with (b / 2) by lra.
  replace (b / 2 / (b / 4)) with 2 by (field; lra).
  rewrite Rabs_right; lra.
Qed.

(** A downhill search from a bracket [[0, b]] that has not yet found a point
    above the value keeps its lower end at 0. *)
Lemma zero_loop_some (func : R -> R) (value : R) fuel : forall b st,
  0 < b ->
  loop fuel func value false (0, b, (0 + b) * 0.5) = Some st ->
  exists k, value < func (b / 2 ^ S k).
Proof.
  induction fuel as [| fuel IH]; intros b st Hb H; [discriminate |].
  cbn [loop] in H. unfold pass in H.
  destruct (npr.ltb value (func ((0 + b) * 0.5))) eqn:E.
  - exists 0%nat. apply ltb_true in E.
    replace (b / 2 ^ 1) with ((0 + b) * 0.5) by (simpl; lra). exact E.
  - rewrite (zero_bracket_open Hb) in H. apply IH in H; [| lra].
    destruct H as [k Hk]. exists (S k). rewrite <- half_pow. exact Hk.
Qed.

(** Once a midpoint lies above the value, the lower end leaves 0 and the
    search ends. *)
Lemma zero_loop_first (func : R -> R) (value : R) b :
  0 < b -> value < func ((0 + b) * 0.5) ->
  exists fuel st, loop fuel func value false (0, b, (0 + b) * 0.5) = Some st.
Proof.
  intros Hb Hk.
  set (st0 := (0, b, (0 + b) * 0.5)).
  set (st1 := pass func value false st0).
  assert (E : npr.ltb value (func ((0 + b) * 0.5)) = true) by (apply ltb_true, Hk).
  assert (Hb1 : bracket st1 /\ 0 < lower st1).
  { unfold st1, st0, pass. rewrite E. simpl. repeat split; lra. }
  destruct Hb1 as [Hb1 Hpos].
  destruct (@converged_eventually func value false st1 Hb1 (or_introl Hpos)) as [K HK].
  assert (HK' : converged (iterate func value false (S (S K)) st0) = true) by exact HK.
  destruct (@first_converged func value false st0 (S K) HK') as (j & _ & Hc & Hn).
  exists (S j), (iterate func value false (S j) st0).
  apply loop_first; [exact Hc | exact Hn | lia].
Qed.

Lemma zero_loop_ends (func : R -> R) (value : R) k : forall b,
  0 < b -> value < func (b / 2 ^ S k) ->
  exists fuel st, loop fuel func value false (0, b, (0 + b) * 0.5) = Some st.
Proof.
  induction k as [| k IH]; intros b Hb Hk.
  - apply zero_loop_first; [exact Hb |].
    replace ((0 + b) * 0.5) with (b / 2 ^ 1) by (simpl; lra). exact Hk.
  - destruct (npr.ltb value (func ((0 + b) * 0.5))) eqn:E.
    + apply zero_loop_first; [exact Hb | apply ltb_true, E].
    + destruct (IH ((0 + b) * 0.5) ltac:(lra)) as (fuel & st & Hloop);
        [rewrite half_pow; exact Hk |].
      exists (S fuel), st. cbn [loop]. unfold pass. rewrite E.
      rewrite (zero_bracket_open Hb). exact Hloop.
Qed.

(** The search of [interval] for the density level starts on the bracket
    [[0, p_max]]: it ends, with what its polish step yields, exactly when
    [interval_prob] exceeds [frac] at one of the levels [p_max / 2],
    [p_max / 4], [p_max / 8], ...; when it does so at none of them, the
    loop runs for ever. *)
Theorem interval_level_ends_iff (interval_prob call : R -> R) (mode frac : R) :
  0 < call mode ->
  ((exists fuel p_conf,
      interval_level fuel interval_prob call mode frac = Some p_conf)
   <-> exists k, frac < interval_prob (call mode / 2 ^ S k)) /\
  ((forall k, interval_prob (call mode / 2 ^ S k) <= frac) ->
   forall fuel, interval_level fuel interval_prob call mode frac = None).
Proof.
  intros Hp.
  assert (Hdir : (exists fuel p_conf,
                    interval_level fuel interval_prob call mode frac = Some p_conf)
                 -> exists k, frac < interval_prob (call mode / 2 ^ S k)).
  { intros (fuel & r & H). unfold interval_level, binary_search in H.
    destruct (loop fuel interval_prob frac false _) as [st |] eqn:E; [| discriminate].
    exact (@zero_loop_some _ _ _ _ _ Hp E). }
  split; [split; [exact Hdir |] |].
  - intros [k Hk]. destruct (@zero_loop_ends _ _ k _ Hp Hk) as (fuel & st & E).
    exists fuel, (polish interval_prob frac st).
    unfold interval_level, binary_search. rewrite E. reflexivity.
  - intros Hall fuel.
    destruct (interval_level fuel interval_prob call mode frac) as [r |] eqn:E;
      [| reflexivity].
    destruct (Hdir (ex_intro _ fuel (ex_intro _ r E))) as [k Hk].
    specialize (Hall k). lra.
Qed.

End SearchTheorems.

Section SearchWitnesses.
Local Open Scope R_scope.

Lemma binary_search_brackets_witness :
  1 < 2 /\ (0 < 1 \/ 2 < 0) /\ (1 <= 1.5 < 2) /\
  let func := fun x : R => x in
  exists passes a b r,
    (forall fuel, (passes <= fuel)%nat ->
       DensityEstimator.binary_search fuel func 1.5 (1, 2) true = Some (Some r)) /\
    (1 <= a /\ a < b /\ b <= 2) /\
    b - a = (2 - 1) / 2 ^ passes /\
    (func a <= 1.5 < func b) /\
    Rabs ((b - a) / ((a + b) * 0.5)) < 1e-3 /\
    a <= r <= b /\
    (r - a) * (func b - func a) = (1.5 - func a) * (b - a).
Proof.
  assert (H1 : 1 < 2) by lra.
  assert (H2 : 0 < 1 \/ 2 < 0) by (left; lra).
  assert (H3 : 1 <= 1.5 < 2) by lra.
  split; [exact H1 |]. split; [exact H2 |]. split; [exact H3 |].
  exact (@binary_search_brackets (fun x : R => x) 1.5 true 1 2 H1 H2 H3).
Defined.

Lemma get_interval_ordered_witness :
  let call := fun x : R => x * (4 - x) in
  1 < 2 < 3 /\ (0 < 1 \/ 3 < 0) /\
  call 1 <= 3.5 /\ call 3 <= 3.5 /\ 3.5 < call 2 /\
  exists fuel0 lwr upr,
    (forall fuel, (fuel0 <= fuel)%nat ->
       DensityEstimator.get_interval fuel call 1 2 3 3.5
       = Some (Some lwr, Some upr)) /\
    1 <= lwr <= 2 /\ 2 <= upr <= 3.
Proof.
  intros call.
  assert (H1 : 1 < 2 < 3) by lra.
  assert (H2 : 0 < 1 \/ 3 < 0) by (left; lra).
  assert (H3 : call 1 <= 3.5) by (unfold call; lra).
  assert (H4 : call 3 <= 3.5) by (unfold call; lra).
  assert (H5 : 3.5 < call 2) by (unfold call; lra).
  split; [exact H1 |]. split; [exact H2 |]. split; [exact H3 |].
  split; [exact H4 |]. split; [exact H5 |].
  exact (@get_interval_ordered call 1 2 3 3.5 H1 H2 H3 H4 H5).
Defined.

Lemma interval_level_ends_iff_witness :
  let call := fun _ : R => 1 in
  let interval_prob := fun z : R => 1 - z in
  0 < call 0 /\
  ((exists fuel p_conf,
      DensityEstimator.interval_level fuel interval_prob call 0 0.5 = Some p_conf)
   <-> exists k, 0.5 < interval_prob (call 0 / 2 ^ S k)) /\
  ((forall k, interval_prob (call 0 / 2 ^ S k) <= 0.5) ->
   forall fuel, DensityEstimator.interval_level fuel interval_prob call 0 0.5 = None).
Proof.
  intros call interval_prob.
  assert (H : 0 < call 0) by (unfold call; lra).
  split; [exact H |].
  exact (@interval_level_ends_iff interval_prob call 0 0.5 H).
Defined.

End SearchWitnesses.

(* ================================================================== *)
(** * Part IX: the model of UnimodalPdf                                *)
(* ================================================================== *)

Section ModelFacts.
Import UnimodalPdf.
Local Open Scope R_scope.

Lemma power_nonneg b e : 0 <= npr.power b e.
Proof.
  unfold npr.power. destruct (Req_dec_T b 0) as [_ | _].
  - destruct (Rlt_dec 0 e); lra.
  - left. apply exp_pos.
Qed.

Lemma power_pos b e : b <> 0 -> 0 < npr.power b e.
Proof.
  intros Hb. unfold npr.power. destruct (Req_dec_T b 0) as [E | _]; [contradiction |].
  apply exp_pos.
Qed.

Lemma power_zero e : 0 < e -> npr.power 0 e = 0.
Proof.
  intros He. unfold npr.power. destruct (Req_dec_T 0 0) as [_ | H]; [| lra].
  destruct (Rlt_dec 0 e); [reflexivity | contradiction].
Qed.

Lemma tanh_0 : tanh 0 = 0.
Proof. unfold tanh. rewrite sinh_0. unfold Rdiv. apply Rmult_0_l. Qed.

Lemma ln_nonneg y : 1 <= y -> 0 <= ln y.
Proof.
  intros [H | <-]; [| rewrite ln_1; lra].
  left. rewrite <- ln_1. apply ln_increasing; lra.
Qed.

(** The logarithm of the model density is 0 at [x0] and negative
    elsewhere. *)
Lemma log_pdf_model_le x x0 s0 v f k q :
  log_pdf_model x (x0, s0, v, f, k, q) <= 0.
Proof.
  unfold log_pdf_model.
  set (z := (x - x0) / s0 / exp (f * tanh ((x - x0) / s0 / k))).
  pose proof (exp_pos v) as Hv.
  pose proof (power_nonneg (Rabs z) q) as HP.
  assert (H1 : 1 <= 1 + npr.power (Rabs z) q / (exp v + 1)).
  { assert (0 <= npr.power (Rabs z) q / (exp v + 1));
      [apply Rmult_le_pos; [exact HP | left; apply Rinv_0_lt_compat; lra] | lra]. }
  pose proof (ln_nonneg H1). nra.
Qed.

Lemma log_pdf_model_mode x0 s0 v f k q :
  0 < q -> log_pdf_model x0 (x0, s0, v, f, k, q) = 0.
Proof.
  intros Hq. unfold log_pdf_model.
  replace ((x0 - x0) / s0) with 0 by (unfold Rdiv; ring).
  replace (0 / k) with 0 by (unfold Rdiv; ring).
  rewrite tanh_0, Rmult_0_r, exp_0.
  replace (0 / 1) with 0 by lra.
  rewrite Rabs_R0, (power_zero Hq).
  replace (1 + 0 / (exp v + 1)) with 1 by (unfold Rdiv; ring).
  rewrite ln_1. ring.
Qed.

Lemma log_pdf_model_lt x x0 s0 v f k q :
  x <> x0 -> s0 <> 0 -> log_pdf_model x (x0, s0, v, f, k, q) < 0.
Proof.
  intros Hx Hs. unfold log_pdf_model.
  set (ds := exp (f * tanh ((x - x0) / s0 / k))).
  assert (Hds : 0 < ds) by apply exp_pos.
  assert (Hz : (x - x0) / s0 / ds <> 0).
  { unfold Rdiv. apply Rmult_integral_contrapositive_currified;
      [apply Rmult_integral_contrapositive_currified;
         [lra | apply Rinv_neq_0_compat, Hs]
      | apply Rinv_neq_0_compat; lra]. }
  pose proof (exp_pos v) as Hv.
  assert (HP : 0 < npr.power (Rabs ((x - x0) / s0 / ds)) q).
  { apply power_pos. apply Rabs_no_R0, Hz. }
  assert (H1 : 1 < 1 + npr.power (Rabs ((x - x0) / s0 / ds)) q / (exp v + 1)).
  { assert (0 < npr.power (Rabs ((x - x0) / s0 / ds)) q / (exp v + 1));
      [apply Rdiv_lt_0_compat; lra | lra]. }
  assert (Hln : 0 < ln (1 + npr.power (Rabs ((x - x0) / s0 / ds)) q / (exp v + 1))).
  { rewrite <- ln_1. apply ln_increasing; lra. }
  nra.
Qed.

(** The Chebyshev nodes lie strictly between -1 and 1. *)
Lemma node_range n k :
  (1 <= k <= n)%nat ->
  -1 < cos (0.5 * PI * ((2 * INR k - 1) / INR n)) < 1.
Proof.
  intros Hk.
  assert (Hn : 0 < INR n) by (apply lt_0_INR; lia).
  assert (Hk1 : 1 <= INR k) by (change 1 with (INR 1); apply le_INR; lia).
  assert (Hkn : INR k <= INR n) by (apply le_INR; lia).
  set (r := (2 * INR k - 1) / INR n).
  assert (Hr : 0 < r < 2).
  { unfold r. split.
    - apply Rdiv_lt_0_compat; lra.
    - apply Rmult_lt_reg_r with (INR n); [exact Hn |].
      unfold Rdiv. rewrite Rmult_assoc, Rinv_l by lra. lra. }
  pose proof PI_RGT_0 as Hpi.
  assert (Ht : 0 < 0.5 * PI * r < PI) by (split; nra).
  split.
  - rewrite <- cos_PI. apply cos_decreasing_1; lra.
  - rewrite <- cos_0. apply cos_decreasing_1; lra.
Qed.

Lemma sum_map_pos {A} (g : A -> R) l :
  l <> [] -> (forall a, In a l -> 0 < g a) -> 0 < npr.sum (map g l).
Proof.
  intros Hne Hg. apply sum_pos.
  - apply Forall_forall. intros y Hy. apply in_map_iff in Hy.
    destruct Hy as (a & <- & Ha). apply Hg, Ha.
  - destruct l; [congruence | discriminate].
Qed.

(** The quadrature sum of [norm] over the nodes built by [__init__]. *)
Lemma norm_chebyshev sample x0 s0 v f k q :
  norm (chebyshev sample) (x0, s0, v, f, k, q) =
  npr.sum (map (fun t =>
             (PI / INR 128) * (1 + t ^ 2) / (0.2 * npr.power (1 - t ^ 2) 1.5)
             * pdf_model (t / (1 - t ^ 2)) (0, 0.2, v, f, k, q))
            (nodes 128)) * s0.
Proof.
  unfold norm, chebyshev. cbn [u w sd]. rewrite map_map.
  rewrite (zip_with_map Rmult). reflexivity.
Qed.

Lemma norm_chebyshev_pos sample x0 s0 v f k q :
  0 < s0 -> 0 < norm (chebyshev sample) (x0, s0, v, f, k, q).
Proof.
  intros Hs. rewrite norm_chebyshev.
  apply Rmult_lt_0_compat; [| exact Hs].
  apply sum_map_pos; [discriminate |].
  intros t Ht. unfold nodes in Ht. apply in_map_iff in Ht.
  destruct Ht as (j & <- & Hj). apply in_seq in Hj.
  pose proof (@node_range 128 j ltac:(lia)) as Hc.
  set (t := cos _) in *.
  assert (H1 : 0 < 1 - t ^ 2) by nra.
  pose proof (@power_pos (1 - t ^ 2) 1.5 ltac:(lra)) as Hp.
  pose proof PI_RGT_0 as Hpi.
  assert (H128 : 0 < INR 128) by (apply lt_0_INR; lia).
  apply Rmult_lt_0_compat; [| apply exp_pos].
  apply Rdiv_lt_0_compat; [| nra].
  apply Rmult_lt_0_compat; [apply Rdiv_lt_0_compat; lra | nra].
Qed.

(** For fitted parameters that pass the prior checks of [posterior], the
    normaliser is positive, the model is 1 at [self.mode = MAP[0]] and
    below 1 elsewhere, so that the estimate has its maximum at the mode,
    and only there; the limits of the searches of [get_interval] lie on
    either side of it. *)
Theorem call_peak_at_mode sample x0 s0 v f k q x :
  constraints (x0, s0, v, f, k, q) ->
  let self := chebyshev sample in
  let MAP := (x0, s0, v, f, k, q) in
  0 < norm self MAP /\
  pdf_model x0 MAP = 1 /\
  0 < pdf_model x MAP <= 1 /\
  call self MAP x <= call self MAP x0 /\
  (x <> x0 -> pdf_model x MAP < 1 /\ call self MAP x < call self MAP x0) /\
  fst (limits MAP) < x0 < snd (limits MAP).
Proof.
  intros (Hs & Hk & Hq) self MAP.
  assert (Hq0 : 0 < q) by lra.
  split; [apply norm_chebyshev_pos, Hs |].
  unfold pdf_model, call, MAP.
  rewrite (log_pdf_model_mode x0 s0 v f k Hq0), exp_0.
  pose proof (log_pdf_model_le x x0 s0 v f k q) as Hle.
  split; [reflexivity |]. split; [split; [apply exp_pos |] |].
  - rewrite <- exp_0. destruct Hle as [Hlt | ->]; [left; apply exp_increasing, Hlt | right; reflexivity].
  - split; [| split].
    + destruct Hle as [Hlt | ->]; [left; apply exp_increasing; lra | right; reflexivity].
    + intros Hx.
      pose proof (@log_pdf_model_lt x x0 s0 v f k q Hx ltac:(lra)) as Hlt.
      split; [rewrite <- exp_0; apply exp_increasing, Hlt |].
      apply exp_increasing. lra.
    + unfold limits. cbn [fst snd].
      pose proof (exp_pos f). pose proof (exp_pos (- f)). split; nra.
Qed.

(** The normaliser is positive whenever [s0] is: its logarithm, which
    [posterior] and [__init__] take, is defined.  It does not depend on
    [x0] and is proportional to [s0]. *)
Theorem norm_positive sample x0 s0 v f k q :
  0 < s0 ->
  0 < norm (chebyshev sample) (x0, s0, v, f, k, q) /\
  norm (chebyshev sample) (x0, s0, v, f, k, q)
  = s0 * norm (chebyshev sample) (0, 1, v, f, k, q).
Proof.
  intros Hs. split; [apply norm_chebyshev_pos, Hs |].
  rewrite !norm_chebyshev. ring.
Qed.

(** The model depends on [x] only through [(x - x0) / s0]. *)
Lemma log_pdf_model_affine a c x x0 s0 v f k q :
  a <> 0 -> s0 <> 0 ->
  log_pdf_model (a * x + c) (a * x0 + c, a * s0, v, f, k, q)
  = log_pdf_model x (x0, s0, v, f, k, q).
Proof.
  intros Ha Hs. unfold log_pdf_model.
  replace ((a * x + c - (a * x0 + c)) / (a * s0)) with ((x - x0) / s0)
    by (field; split; assumption).
  reflexivity.
Qed.

(** Rescaling the sample and the location and scale parameters alike by
    [x -> a x + c] with [a > 0] shifts the log-posterior by [- n log a]: the
    fit follows a change of units of the data. *)
Theorem posterior_affine sample a c x0 s0 v f k q :
  0 < a -> constraints (x0, s0, v, f, k, q) ->
  posterior (chebyshev (map (fun xi => a * xi + c) sample))
            (a * x0 + c, a * s0, v, f, k, q)
  = posterior (chebyshev sample) (x0, s0, v, f, k, q)
    - INR (length sample) * ln a.
Proof.
  intros Ha (Hs & [Hk0 Hk1] & [Hq0 Hq1]).
  assert (Has : 0 < a * s0) by (apply Rmult_lt_0_compat; assumption).
  unfold posterior.
  apply ltb_true in Hs as Es. apply ltb_true in Has as Eas.
  apply ltb_true in Hk0 as Ek0. apply ltb_true in Hk1 as Ek1.
  apply ltb_true in Hq0 as Eq0. apply ltb_true in Hq1 as Eq1.
  rewrite Es, Eas, Ek0, Ek1, Eq0, Eq1. cbn [andb].
  unfold n. cbn [x chebyshev]. rewrite length_map, map_map.
  rewrite (map_ext _ (fun xi => log_pdf_model xi (x0, s0, v, f, k, q)))
    by (intros xi; apply log_pdf_model_affine; lra).
  pose proof (@norm_chebyshev_pos sample x0 s0 v f k q Hs) as Hn.
  assert (En : norm (chebyshev (map (fun xi => a * xi + c) sample))
                 (a * x0 + c, a * s0, v, f, k, q)
               = a * norm (chebyshev sample) (x0, s0, v, f, k, q)).
  { rewrite !norm_chebyshev. ring. }
  change (UnimodalPdf.mk (map (fun xi => a * xi + c) sample) 0.2 128
            (map (fun t => t / (1 - t ^ 2)) (nodes 128))
            (map (fun t => PI / INR 128 * (1 + t ^ 2) / (0.2 * npr.power (1 - t ^ 2) 1.5))
                 (nodes 128)))
    with (chebyshev (map (fun xi => a * xi + c) sample)).
  change (UnimodalPdf.mk sample 0.2 128
            (map (fun t => t / (1 - t ^ 2)) (nodes 128))
            (map (fun t => PI / INR 128 * (1 + t ^ 2) / (0.2 * npr.power (1 - t ^ 2) 1.5))
                 (nodes 128)))
    with (chebyshev sample).
  rewrite En, ln_mult by assumption. ring.
Qed.

End ModelFacts.

Section MomentFacts.
Import UnimodalPdf.
Local Open Scope R_scope.

Lemma sum_cons y l : npr.sum (y :: l) = y + npr.sum l.
Proof. reflexivity. Qed.

Lemma sum_map_scal {A} (g : A -> R) c l :
  npr.sum (map (fun a => c * g a) l) = c * npr.sum (map g l).
Proof.
  induction l as [| a l IH]; [simpl; ring |].
  cbn [map]. rewrite !sum_cons, IH. ring.
Qed.

Lemma sum_map_plus {A} (g g' : A -> R) l :
  npr.sum (map (fun a => g a + g' a) l) = npr.sum (map g l) + npr.sum (map g' l).
Proof.
  induction l as [| a l IH]; [simpl; ring |].
  cbn [map]. rewrite !sum_cons, IH. ring.
Qed.

Lemma sum_map_const {A} c (l : list A) :
  npr.sum (map (fun _ => c) l) = INR (length l) * c.
Proof.
  induction l as [| a l IH]; [simpl; ring |].
  change (length (a :: l)) with (S (length l)). rewrite S_INR.
  cbn [map]. rewrite sum_cons, IH. ring.
Qed.

Lemma sum_map_id l : npr.sum (map (fun a : R => a) l) = npr.sum l.
Proof. now rewrite map_id. Qed.

(** The sums of the squared and cubed deviations from [m]. *)
Lemma sum_dev2 m l :
  npr.sum (map (fun a => (a - m) ^ 2) l)
  = npr.sum (map (fun a => a ^ 2) l) - 2 * m * npr.sum l + INR (length l) * m ^ 2.
Proof.
  rewrite (map_ext _ (fun a => a ^ 2 + ((- (2 * m)) * a + m ^ 2))) by (intros; ring).
  rewrite sum_map_plus, sum_map_plus, sum_map_scal, sum_map_const, sum_map_id. ring.
Qed.

Lemma sum_dev3 m l :
  npr.sum (map (fun a => (a - m) ^ 3) l)
  = npr.sum (map (fun a => a ^ 2 * a) l) - 3 * m * npr.sum (map (fun a => a ^ 2) l)
    + 3 * m ^ 2 * npr.sum l - INR (length l) * m ^ 3.
Proof.
  rewrite (map_ext _ (fun a => a ^ 2 * a + ((- (3 * m)) * a ^ 2
                                            + ((3 * m ^ 2) * a + - m ^ 3))))
    by (intros; ring).
  rewrite !sum_map_plus, !sum_map_scal, sum_map_const, sum_map_id. ring.
Qed.

Lemma sum_sq_nonneg {A} (g : A -> R) l : 0 <= npr.sum (map (fun a => g a ^ 2) l).
Proof.
  induction l as [| a l IH]; [simpl; lra |].
  cbn [map]. rewrite sum_cons. pose proof (pow2_ge_0 (g a)). lra.
Qed.

(** The variance [mean(x^2) - mean(x)^2] as the mean squared deviation. *)
Lemma variance_identity l :
  l <> [] ->
  npr.mean (map (fun a => a ^ 2) l) - npr.mean l ^ 2
  = npr.mean (map (fun a => (a - npr.mean l) ^ 2) l).
Proof.
  intros Hne. unfold npr.mean at 1 3. rewrite !length_map, sum_dev2.
  assert (Hn : INR (length l) <> 0).
  { apply not_0_INR. destruct l; [congruence | discriminate]. }
  unfold npr.mean. field. exact Hn.
Qed.

(** [sample_moments] returns the mean, the standard deviation (of the
    sample as a population) and the standardised third central moment. *)
Theorem sample_moments_central self :
  x self <> [] ->
  let '(mu, sig, skew) := sample_moments self in
  mu = npr.mean (x self) /\
  sig = sqrt (npr.mean (map (fun xi => (xi - mu) ^ 2) (x self))) /\
  sig = npr.std (x self) /\
  skew = npr.mean (map (fun xi => (xi - mu) ^ 3) (x self)) / sig ^ 3.
Proof.
  intros Hne. unfold sample_moments.
  set (l := x self) in *. set (mu := npr.mean l).
  assert (Hn : INR (length l) <> 0).
  { apply not_0_INR. destruct l; [congruence | discriminate]. }
  assert (Evar : npr.mean (map (fun xi => xi ^ 2) l) - mu ^ 2
                 = npr.mean (map (fun xi => (xi - mu) ^ 2) l))
    by (apply variance_identity, Hne).
  assert (Hvar : 0 <= npr.mean (map (fun xi => (xi - mu) ^ 2) l)).
  { unfold npr.mean. rewrite length_map.
    apply Rmult_le_pos; [apply (sum_sq_nonneg (fun xi => xi - mu)) |].
    left. apply Rinv_0_lt_compat.
    assert (0 <= INR (length l)) by apply pos_INR. lra. }
  split; [reflexivity |]. split; [now rewrite Evar |]. split.
  - rewrite Evar. unfold npr.std. fold mu. f_equal. f_equal.
    apply map_ext. intros a. symmetry. apply pow2_abs.
  - f_equal.
    assert (Esq : sqrt (npr.mean (map (fun xi => xi ^ 2) l) - mu ^ 2) ^ 2
                  = npr.mean (map (fun xi => xi ^ 2) l) - mu ^ 2).
    { rewrite Evar. simpl. rewrite Rmult_1_r. apply sqrt_sqrt, Hvar. }
    rewrite Esq.
    rewrite <- (map_id l) at 2. rewrite (zip_with_map Rmult).
    unfold npr.mean at 1 2 3. rewrite !length_map, sum_dev3.
    unfold mu, npr.mean. field. exact Hn.
Qed.

Lemma sum_map_pos_in {A} (g : A -> R) l a :
  (forall b, In b l -> 0 <= g b) -> In a l -> 0 < g a -> 0 < npr.sum (map g l).
Proof.
  induction l as [| b l IH]; intros Hg Ha Hpos; [destruct Ha |].
  cbn [map]. rewrite sum_cons.
  assert (Hrest : 0 <= npr.sum (map g l)).
  { clear IH Ha. induction l as [| c l IH]; [simpl; lra |].
    cbn [map]. rewrite sum_cons.
    pose proof (Hg c (or_intror (or_introl eq_refl))).
    assert (0 <= npr.sum (map g l)); [| lra].
    apply IH. intros d Hd. apply Hg. destruct Hd as [<- | Hd]; [left | right; right];
      auto. }
  destruct Ha as [-> | Ha].
  - lra.
  - pose proof (Hg b (or_introl eq_refl)).
    assert (0 < npr.sum (map g l)); [| lra].
    apply IH; [intros d Hd; apply Hg; right; exact Hd | exact Ha | exact Hpos].
Qed.

End MomentFacts.

Section MomentsOfEstimate.
Import UnimodalPdf.
Local Open Scope R_scope.

Variable simps : list R -> list R -> R.

Lemma Rpower_three_halves y : 0 < y -> Rpower y 1.5 = y * sqrt y.
Proof.
  intros Hy. replace 1.5 with (1 + / 2) by lra.
  rewrite Rpower_plus, Rpower_1, Rpower_sqrt by exact Hy. reflexivity.
Qed.

(** The third value [moments] returns is [1.5 * m3 / var], where [m3] is
    the third central moment it integrates: the expression [/ var*1.5]
    divides by the variance and multiplies by 1.5.  For a positive variance
    and a non-zero third moment it is the standardised skewness
    [m3 / var^1.5] only if the variance is 4/9. *)
Theorem moments_skewness self MAP :
  let '(mu, var, skw, kur) := moments simps self MAP in
  exists x p m3,
    m3 = simps (npr.zip_with Rmult p (map (fun xi => (xi - mu) ^ 3) x)) x /\
    var = simps (npr.zip_with Rmult p (map (fun xi => (xi - mu) ^ 2) x)) x /\
    skw = 1.5 * (m3 / var) /\
    (0 < var -> m3 <> 0 -> (skw = m3 / Rpower var 1.5 <-> var = 4 / 9)).
Proof.
  destruct MAP as [[[[[mode s] v] f] k] q]. unfold moments.
  set (x := npr.linspace _ _ _). set (p := map _ x).
  set (mu := simps (npr.zip_with Rmult p x) x).
  set (var := simps (npr.zip_with Rmult p (map (fun xi => (xi - mu) ^ 2) x)) x).
  set (m3 := simps (npr.zip_with Rmult p (map (fun xi => (xi - mu) ^ 3) x)) x).
  exists x, p, m3. split; [reflexivity |]. split; [reflexivity |].
  split; [lra |]. intros Hv Hm.
  rewrite (Rpower_three_halves Hv).
  assert (Hs : 0 < sqrt var) by (apply sqrt_lt_R0, Hv).
  assert (Hsq : sqrt var * sqrt var = var) by (apply sqrt_sqrt; lra).
  replace 1.5 with (3 / 2) by lra.
  split.
  - intros E.
    assert (E2 : m3 * (3 / 2 * sqrt var - 1) = 0).
    { replace (m3 * (3 / 2 * sqrt var - 1))
        with ((m3 / var * (3 / 2) - m3 / (var * sqrt var)) * (var * sqrt var))
        by (field; repeat split; lra).
      rewrite E. ring. }
    apply Rmult_integral in E2. destruct E2 as [E2 | E2]; [contradiction |].
    assert (E3 : sqrt var = 2 / 3) by lra.
    rewrite <- Hsq, E3. lra.
  - intros E. assert (E3 : sqrt var = 2 / 3).
    { apply sqrt_lem_1; [lra | lra | rewrite E; lra]. }
    rewrite E3, E. field.
Qed.

End MomentsOfEstimate.

Section ReducedSample.
Import UnimodalPdf.

Lemma stride_from_length {A} k : forall (a : list A) c,
  (1 <= k)%nat -> (c < k)%nat ->
  length (stride_from k c a) = ((length a + (k - 1 - c)) / k)%nat.
Proof.
  induction a as [| y a IH]; intros c Hk Hc.
  - simpl. symmetry. apply Nat.div_small. lia.
  - destruct c as [| c]; cbn [stride_from length].
    + rewrite IH by lia.
      replace (k - 1 - (k - 1))%nat with 0%nat by lia.
      replace (S (length a) + (k - 1 - 0))%nat with (length a + 0 + 1 * k)%nat by lia.
      rewrite Nat.div_add by lia. lia.
    + rewrite IH by lia. f_equal. lia.
Qed.

(** The first fit of [__init__] uses every [skip]-th point of the sample:
    the whole sample when it has fewer than 4000 points, and between 2000
    and 3000 points otherwise. *)
Theorem reduced_sample_size (sample : list R) :
  let n := length sample in
  (1 <= skip sample)%nat /\
  length (reduced sample) = ((n + (skip sample - 1)) / skip sample)%nat /\
  ((n < 4000)%nat -> skip sample = 1%nat /\ reduced sample = sample) /\
  ((4000 <= n)%nat -> (2000 <= length (reduced sample) <= 3000)%nat).
Proof.
  intros n. unfold reduced, stride.
  assert (Hskip : (1 <= skip sample)%nat).
  { unfold skip. destruct (Nat.eqb_spec (length sample / cutoff) 0); lia. }
  split; [exact Hskip |].
  assert (Hlen : length (stride_from (skip sample) 0 sample)
                 = ((n + (skip sample - 1)) / skip sample)%nat).
  { rewrite stride_from_length by lia. f_equal. lia. }
  split; [exact Hlen |]. split.
  - intros Hn.
    assert (E : skip sample = 1%nat).
    { unfold skip, cutoff. fold n.
      destruct (Nat.eqb_spec (n / 2000) 0) as [_ | Hne]; [reflexivity |].
      assert (n / 2000 < 2)%nat by (apply Nat.Div0.div_lt_upper_bound; lia). lia. }
    split; [exact E |]. rewrite E. clear.
    induction sample as [| y a IH]; [reflexivity |].
    cbn [stride_from]. replace (1 - 1)%nat with 0%nat by lia. now rewrite IH.
  - intros Hn. rewrite Hlen. unfold skip, cutoff in *. fold n in Hskip |- *.
    set (k := (n / 2000)%nat) in *.
    assert (Hk : (2 <= k)%nat) by (apply Nat.div_le_lower_bound; lia).
    destruct (Nat.eqb_spec k 0) as [? | _]; [lia |].
    assert (Hlo : (2000 * k <= n)%nat) by (apply Nat.Div0.mul_div_le).
    assert (Hhi : (n < 2000 * (k + 1))%nat).
    { replace (k + 1)%nat with (S k) by lia. apply Nat.mul_succ_div_gt. lia. }
    split.
    + apply Nat.div_le_lower_bound; nia.
    + assert ((n + (k - 1)) / k < 3001)%nat; [| lia].
      apply Nat.Div0.div_lt_upper_bound. nia.
Qed.

End ReducedSample.

Section ModelWitnesses.
Import UnimodalPdf.
Local Open Scope R_scope.

Lemma call_peak_at_mode_witness :
  constraints (0, 1, 0, 0, 1, 2) /\
  let self := chebyshev [0; 1] in
  let MAP := (0, 1, 0, 0, 1, 2) in
  0 < norm self MAP /\
  pdf_model 0 MAP = 1 /\
  0 < pdf_model 1 MAP <= 1 /\
  call self MAP 1 <= call self MAP 0 /\
  (1 <> 0 -> pdf_model 1 MAP < 1 /\ call self MAP 1 < call self MAP 0) /\
  fst (limits MAP) < 0 < snd (limits MAP).
Proof.
  assert (H : constraints (0, 1, 0, 0, 1, 2)) by (unfold constraints; lra).
  split; [exact H |].
  exact (@call_peak_at_mode [0; 1] 0 1 0 0 1 2 1 H).
Defined.

Lemma norm_positive_witness :
  0 < 1 /\
  0 < norm (chebyshev [0; 1]) (0, 1, 0, 0, 1, 2) /\
  norm (chebyshev [0; 1]) (0, 1, 0, 0, 1, 2)
  = 1 * norm (chebyshev [0; 1]) (0, 1, 0, 0, 1, 2).
Proof.
  assert (H : 0 < 1) by lra.
  split; [exact H |].
  exact (@norm_positive [0; 1] 0 1 0 0 1 2 H).
Defined.

Lemma posterior_affine_witness :
  0 < 2 /\ constraints (0, 1, 0, 0, 1, 2) /\
  posterior (chebyshev (map (fun xi => 2 * xi + 1) [0; 1]))
            (2 * 0 + 1, 2 * 1, 0, 0, 1, 2)
  = posterior (chebyshev [0; 1]) (0, 1, 0, 0, 1, 2)
    - INR (length [0; 1]) * ln 2.
Proof.
  assert (H : 0 < 2) by lra.
  assert (C : constraints (0, 1, 0, 0, 1, 2)) by (unfold constraints; lra).
  split; [exact H |]. split; [exact C |].
  exact (@posterior_affine [0; 1] 2 1 0 1 0 0 1 2 H C).
Defined.

Lemma sample_moments_central_witness :
  x (chebyshev [0; 1]) <> [] /\
  let '(mu, sig, skew) := sample_moments (chebyshev [0; 1]) in
  mu = npr.mean (x (chebyshev [0; 1])) /\
  sig = sqrt (npr.mean (map (fun xi => (xi - mu) ^ 2) (x (chebyshev [0; 1])))) /\
  sig = npr.std (x (chebyshev [0; 1])) /\
  skew = npr.mean (map (fun xi => (xi - mu) ^ 3) (x (chebyshev [0; 1]))) / sig ^ 3.
Proof.
  assert (H : x (chebyshev [0; 1]) <> []) by discriminate.
  split; [exact H |].
  exact (@sample_moments_central (chebyshev [0; 1]) H).
Defined.

Lemma reduced_sample_size_witness :
  (1 <= skip [0; 1]%R)%nat /\ skip [0; 1] = 1%nat /\ reduced [0; 1] = [0; 1].
Proof.
  destruct (@reduced_sample_size [0; 1]) as (H1 & _ & H2 & _).
  split; [exact H1 |]. apply H2. simpl. lia.
Defined.

End ModelWitnesses.

(* ================================================================== *)
(** * Part X: KDE2D                                                    *)
(* ================================================================== *)

Section CovarianceFacts.
Local Open Scope R_scope.
Local Open Scope py_scope.

Lemma dot_cons a b l l' : dot (a :: l) (b :: l') = a * b + dot l l'.
Proof. reflexivity. Qed.

Lemma dot_self_nonneg l : 0 <= dot l l.
Proof.
  induction l as [| a l IH]; [unfold dot; simpl; lra |].
  rewrite dot_cons. nra.
Qed.

(** The Cauchy-Schwarz inequality. *)
Lemma dot_cauchy : forall a b,
  length a = length b -> dot a b ^ 2 <= dot a a * dot b b.
Proof.
  induction a as [| x a IH]; intros [| y b] Hlen; try discriminate Hlen.
  - unfold dot. simpl. lra.
  - injection Hlen as Hlen. specialize (IH b Hlen).
    rewrite !dot_cons.
    pose proof (dot_self_nonneg a) as HA. pose proof (dot_self_nonneg b) as HB.
    set (A := dot a a) in *. set (B := dot b b) in *. set (C := dot a b) in *.
    set (u := A * y ^ 2 + B * x ^ 2).
    set (w := 2 * C * x * y).
    assert (Hu : 0 <= u) by (unfold u; nra).
    assert (Hsq : w ^ 2 <= u ^ 2).
    { assert (E : u ^ 2 - w ^ 2
                  = (A * y ^ 2 - B * x ^ 2) ^ 2 + 4 * (x * y) ^ 2 * (A * B - C ^ 2))
        by (unfold u, w; ring).
      assert (0 <= (A * y ^ 2 - B * x ^ 2) ^ 2) by apply pow2_ge_0.
      assert (0 <= 4 * (x * y) ^ 2 * (A * B - C ^ 2)).
      { apply Rmult_le_pos; [| lra].
        pose proof (pow2_ge_0 (x * y)). lra. }
      lra. }
    assert (Hw : w <= u).
    { destruct (Rle_lt_dec w u) as [H | H]; [exact H |]. exfalso.
      assert (u ^ 2 < w ^ 2) by nra. lra. }
    unfold u, w in Hw. nra.
Qed.

Lemma dot_map {A} (g g' : A -> R) l :
  dot (map g l) (map g' l) = npr.sum (map (fun v => g v * g' v) l).
Proof. unfold dot. now rewrite (zip_with_map Rmult). Qed.

Lemma dev_length l : length (dev l) = length l.
Proof. apply length_map. Qed.

Lemma two_values_length {A} (l : list A) a b :
  In a l -> In b l -> a <> b -> (2 <= length l)%nat.
Proof.
  destruct l as [| c [| d l]]; simpl; intros Ha Hb Hab; [tauto | | lia].
  destruct Ha as [<- | []], Hb as [<- | []]. congruence.
Qed.

(** An array with two different values has a positive sum of squared
    deviations. *)
Lemma dev_sq_pos l a b :
  In a l -> In b l -> a <> b -> 0 < dot (dev l) (dev l).
Proof.
  intros Ha Hb Hab. unfold dev. rewrite dot_map.
  set (mu := npr.mean l).
  assert (Hpos : forall c, c <> mu -> 0 < (c - mu) * (c - mu)).
  { intros c Hc. apply (Rlt_0_sqr (c - mu)). lra. }
  destruct (Req_dec a mu) as [Ea | Na].
  - apply (@sum_map_pos_in _ (fun v => (v - mu) * (v - mu)) l b);
      [intros c _; apply (Rle_0_sqr (c - mu)) | exact Hb | apply Hpos; congruence].
  - apply (@sum_map_pos_in _ (fun v => (v - mu) * (v - mu)) l a);
      [intros c _; apply (Rle_0_sqr (c - mu)) | exact Ha | apply Hpos, Na].
Qed.

Lemma cov_value x y :
  length x = length y ->
  let fact := INR (length x) - 1 in
  KDE2D.cov x y =
  Py.ret ((dot (dev x) (dev x) / fact, dot (dev x) (dev y) / fact),
          (dot (dev y) (dev x) / fact, dot (dev y) (dev y) / fact)).
Proof.
  intros Hlen fact. unfold KDE2D.cov.
  replace (length x =? length y)%nat with true by (symmetry; apply Nat.eqb_eq, Hlen).
  reflexivity.
Qed.

(** The correlation coefficient that [estimate_bandwidth] computes has a
    square of at most 1. *)
Lemma correlation_sq S00 S01 S11 :
  0 < S00 -> 0 < S11 -> S01 ^ 2 <= S00 * S11 ->
  let p := S01 / sqrt (S00 * S11) in
  p ^ 2 = S01 ^ 2 / (S00 * S11) /\ 0 <= 1 - p ^ 2 <= 1.
Proof.
  intros H0 H1 Hcs p.
  assert (HP : 0 < S00 * S11) by nra.
  assert (Hs : 0 < sqrt (S00 * S11)) by (apply sqrt_lt_R0, HP).
  assert (Hsq : sqrt (S00 * S11) * sqrt (S00 * S11) = S00 * S11)
    by (apply sqrt_sqrt; lra).
  assert (Ep : p ^ 2 = S01 ^ 2 / (S00 * S11)).
  { unfold p. rewrite <- Hsq at 2. field. lra. }
  split; [exact Ep |]. rewrite Ep.
  assert (Hq : 0 <= S01 ^ 2 / (S00 * S11) <= 1).
  { split.
    - apply Rmult_le_pos; [apply pow2_ge_0 | left; apply Rinv_0_lt_compat, HP].
    - apply Rmult_le_reg_r with (S00 * S11); [exact HP |].
      unfold Rdiv. rewrite Rmult_assoc, Rinv_l by lra. lra. }
  lra.
Qed.

Lemma power_len_pos (l : list R) e : l <> [] -> 0 < npr.power (INR (length l)) e.
Proof.
  intros Hne. apply power_pos. apply not_0_INR. destruct l; [congruence | discriminate].
Qed.

(** For two arrays of one length, neither of them constant,
    [estimate_bandwidth] returns two widths, each between 0 and the
    rule-of-thumb width [1.06 sigma n^(-0.2)] of its coordinate: the
    square root is taken of a non-negative number. *)
Theorem estimate_bandwidth_range x y :
  length x = length y ->
  (exists a b, In a x /\ In b x /\ a <> b) ->
  (exists a b, In a y /\ In b y /\ a <> b) ->
  let fact := INR (length x) - 1 in
  let var_x := dot (dev x) (dev x) / fact in
  let var_y := dot (dev y) (dev y) / fact in
  exists s_x s_y,
    KDE2D.estimate_bandwidth x y = Py.ret (s_x, s_y) /\
    0 <= s_x <= 1.06 * sqrt var_x / npr.power (INR (length x)) 0.2 /\
    0 <= s_y <= 1.06 * sqrt var_y / npr.power (INR (length x)) 0.2.
Proof.
  intros Hlen (a & b & Ha & Hb & Hab) (c & d & Hc & Hd & Hcd) fact var_x var_y.
  pose proof (@two_values_length _ _ _ _ Ha Hb Hab) as H2.
  assert (Hf : 0 < fact).
  { unfold fact. assert (2 <= INR (length x)); [| lra].
    change 2 with (INR 2). apply le_INR, H2. }
  pose proof (@dev_sq_pos _ _ _ Ha Hb Hab) as Hxx.
  pose proof (@dev_sq_pos _ _ _ Hc Hd Hcd) as Hyy.
  assert (Hcs : dot (dev x) (dev y) ^ 2 <= dot (dev x) (dev x) * dot (dev y) (dev y)).
  { apply dot_cauchy. now rewrite !dev_length. }
  unfold KDE2D.estimate_bandwidth. rewrite (@cov_value _ _ Hlen), bind_ret.
  fold fact. fold var_x var_y.
  set (S01 := dot (dev x) (dev y) / fact).
  assert (Hvx : 0 < var_x) by (apply Rdiv_lt_0_compat; assumption).
  assert (Hvy : 0 < var_y) by (apply Rdiv_lt_0_compat; assumption).
  assert (Hcs' : S01 ^ 2 <= var_x * var_y).
  { unfold S01, var_x, var_y.
    replace ((dot (dev x) (dev y) / fact) ^ 2)
      with (dot (dev x) (dev y) ^ 2 * (/ fact * / fact)) by (field; lra).
    replace (dot (dev x) (dev x) / fact * (dot (dev y) (dev y) / fact))
      with (dot (dev x) (dev x) * dot (dev y) (dev y) * (/ fact * / fact))
      by (field; lra).
    apply Rmult_le_compat_r; [| exact Hcs].
    pose proof (Rinv_0_lt_compat _ Hf). nra. }
  destruct (@correlation_sq _ _ _ Hvx Hvy Hcs') as [_ Hp].
  set (p := S01 / sqrt (var_x * var_y)) in *.
  assert (Hpw : 0 < npr.power (INR (length x)) 0.2).
  { apply power_len_pos. intros E. rewrite E in Ha. destruct Ha. }
  set (pw := npr.power (INR (length x)) 0.2) in *.
  assert (Hwidth : forall v, 0 < v ->
            0 <= 1.06 * sqrt (v * (1 - p ^ 2)) / pw <= 1.06 * sqrt v / pw).
  { intros v Hv.
    assert (H0 : 0 <= sqrt (v * (1 - p ^ 2))) by apply sqrt_pos.
    assert (H1 : sqrt (v * (1 - p ^ 2)) <= sqrt v).
    { apply sqrt_le_1; [nra | lra | nra]. }
    pose proof (Rinv_0_lt_compat _ Hpw) as Hi. unfold Rdiv. split.
    - apply Rmult_le_pos; [lra | lra].
    - apply Rmult_le_compat_r; [lra | lra]. }
  do 2 eexists. split; [reflexivity |].
  split; apply Hwidth; assumption.
Qed.

Lemma zip_with_maps (f : R -> R -> R) (g g' : R -> R) : forall a b,
  npr.zip_with f (map g a) (map g' b) = npr.zip_with (fun u v => f (g u) (g' v)) a b.
Proof.
  induction a as [| u a IH]; intros [| v b]; simpl; try reflexivity.
  now rewrite IH.
Qed.

Lemma zip_with_ext (f g : R -> R -> R) :
  (forall u v, f u v = g u v) ->
  forall a b, npr.zip_with f a b = npr.zip_with g a b.
Proof.
  intros H. induction a as [| u a IH]; intros [| v b]; simpl; try reflexivity.
  now rewrite H, IH.
Qed.

Lemma sum_zip_scal (f : R -> R -> R) c : forall a b,
  npr.sum (npr.zip_with f a b) * c = npr.sum (npr.zip_with (fun u v => f u v * c) a b).
Proof.
  induction a as [| u a IH]; intros [| v b]; simpl; try ring.
  change (fold_right Rplus 0 (npr.zip_with f a b)) with (npr.sum (npr.zip_with f a b)).
  change (fold_right Rplus 0 (npr.zip_with (fun u0 v0 => f u0 v0 * c) a b))
    with (npr.sum (npr.zip_with (fun u0 v0 => f u0 v0 * c) a b)).
  rewrite <- IH. ring.
Qed.

(** One kernel of [density], with its share of [norm], against the product
    of the two normal densities. *)
Lemma kernel_product n s_x s_y xi yi x0 y0 :
  0 < n -> 0 < s_x -> 0 < s_y ->
  exp (- ((xi - x0) * (1 / (sqrt 2 * s_x))) ^ 2
       - ((yi - y0) * (1 / (sqrt 2 * s_y))) ^ 2)
  * (1 / (n * sqrt (2 * PI) * s_x * s_y))
  = sqrt (2 * PI) * (gauss xi s_x x0 * gauss yi s_y y0) / n.
Proof.
  intros Hn Hx Hy. unfold gauss.
  assert (Hpi : 0 < sqrt (2 * PI)).
  { apply sqrt_lt_R0. pose proof PI_RGT_0. lra. }
  assert (Hpi2 : sqrt (2 * PI) * sqrt (2 * PI) = 2 * PI).
  { apply sqrt_sqrt. pose proof PI_RGT_0. lra. }
  assert (Ex : ((xi - x0) * (1 / (sqrt 2 * s_x))) ^ 2 = (x0 - xi) ^ 2 / (2 * s_x ^ 2)).
  { rewrite <- sqrt2_sq at 2. field. split; [lra | apply sqrt2_neq_0]. }
  assert (Ey : ((yi - y0) * (1 / (sqrt 2 * s_y))) ^ 2 = (y0 - yi) ^ 2 / (2 * s_y ^ 2)).
  { rewrite <- sqrt2_sq at 2. field. split; [lra | apply sqrt2_neq_0]. }
  rewrite Ex, Ey.
  replace (- ((x0 - xi) ^ 2 / (2 * s_x ^ 2)) - (y0 - yi) ^ 2 / (2 * s_y ^ 2))
    with (- ((x0 - xi) ^ 2 / (2 * s_x ^ 2)) + - ((y0 - yi) ^ 2 / (2 * s_y ^ 2)))
    by ring.
  rewrite exp_plus.
  set (E1 := exp (- ((x0 - xi) ^ 2 / (2 * s_x ^ 2)))).
  set (E2 := exp (- ((y0 - yi) ^ 2 / (2 * s_y ^ 2)))).
  set (r := sqrt (2 * PI)) in *.
  field. repeat split; lra.
Qed.

(** The estimate of [KDE2D] is [sqrt(2 pi)] times the mean of the products
    of the normal densities of the two coordinates around the sample
    points: [norm] holds one factor [sqrt(2 pi)] for the two dimensions. *)
Theorem density_product x y s_x s_y :
  KDE2D.estimate_bandwidth x y = Py.ret (s_x, s_y) ->
  0 < s_x -> 0 < s_y -> x <> [] ->
  exists self,
    KDE2D.init x y = Py.ret self /\
    forall x0 y0,
      KDE2D.density self x0 y0
      = sqrt (2 * PI)
        * (npr.sum (npr.zip_with (fun xi yi => gauss xi s_x x0 * gauss yi s_y y0) x y)
           / INR (length x)).
Proof.
  intros Hbw Hx Hy Hne. unfold KDE2D.init. rewrite Hbw, bind_ret.
  eexists. split; [reflexivity |]. intros x0 y0.
  unfold KDE2D.density.
  cbn [KDE2D.x KDE2D.y KDE2D.q_x KDE2D.q_y KDE2D.norm].
  assert (Hn : 0 < INR (length x)).
  { apply lt_0_INR. destruct x; [congruence | simpl; lia]. }
  rewrite zip_with_maps, sum_zip_scal.
  transitivity
    (npr.sum (npr.zip_with (fun xi yi => gauss xi s_x x0 * gauss yi s_y y0) x y)
     * (sqrt (2 * PI) / INR (length x))); [| field; lra].
  rewrite sum_zip_scal. f_equal. apply zip_with_ext. intros xi yi.
  rewrite (@kernel_product (INR (length x)) s_x s_y xi yi x0 y0 Hn Hx Hy).
  unfold Rdiv. ring.
Qed.

End CovarianceFacts.

Section CovarianceWitnesses.
Local Open Scope R_scope.

Lemma estimate_bandwidth_range_witness :
  length [0; 1] = length [0; 2] /\
  (exists a b, In a [0; 1] /\ In b [0; 1] /\ a <> b) /\
  (exists a b, In a [0; 2] /\ In b [0; 2] /\ a <> b) /\
  let x := [0; 1] in
  let y := [0; 2] in
  let fact := INR (length x) - 1 in
  let var_x := dot (dev x) (dev x) / fact in
  let var_y := dot (dev y) (dev y) / fact in
  exists s_x s_y,
    KDE2D.estimate_bandwidth x y = Py.ret (s_x, s_y) /\
    0 <= s_x <= 1.06 * sqrt var_x / npr.power (INR (length x)) 0.2 /\
    0 <= s_y <= 1.06 * sqrt var_y / npr.power (INR (length x)) 0.2.
Proof.
  assert (H1 : exists a b, In a [0; 1] /\ In b [0; 1] /\ a <> b).
  { exists 0, 1. simpl. repeat split; auto; lra. }
  assert (H2 : exists a b, In a [0; 2] /\ In b [0; 2] /\ a <> b).
  { exists 0, 2. simpl. repeat split; auto; lra. }
  split; [reflexivity |]. split; [exact H1 |]. split; [exact H2 |].
  exact (@estimate_bandwidth_range [0; 1] [0; 2] eq_refl H1 H2).
Defined.

(** The widths of four points at the corners of the unit square. *)
Lemma square_widths :
  exists s,
    KDE2D.estimate_bandwidth [0; 1; 0; 1] [0; 0; 1; 1] = Py.ret (s, s) /\ 0 < s.
Proof.
  unfold KDE2D.estimate_bandwidth.
  rewrite (@cov_value [0; 1; 0; 1] [0; 0; 1; 1] eq_refl), bind_ret. cbv zeta.
  assert (Ex : npr.mean [0; 1; 0; 1] = / 2) by (unfold npr.mean; simpl; lra).
  assert (Ey : npr.mean [0; 0; 1; 1] = / 2) by (unfold npr.mean; simpl; lra).
  assert (Dxx : dot (dev [0; 1; 0; 1]) (dev [0; 1; 0; 1]) = 1)
    by (unfold dev; rewrite Ex; unfold dot; simpl; lra).
  assert (Dyy : dot (dev [0; 0; 1; 1]) (dev [0; 0; 1; 1]) = 1)
    by (unfold dev; rewrite Ey; unfold dot; simpl; lra).
  assert (Dxy : dot (dev [0; 1; 0; 1]) (dev [0; 0; 1; 1]) = 0)
    by (unfold dev; rewrite Ex, Ey; unfold dot; simpl; lra).
  rewrite Dxx, Dyy, Dxy.
  replace (0 / (INR (length [0; 1; 0; 1]) - 1)) with 0 by (unfold Rdiv; ring).
  replace (0 / sqrt (1 / (INR (length [0; 1; 0; 1]) - 1)
                     * (1 / (INR (length [0; 1; 0; 1]) - 1)))) with 0
    by (unfold Rdiv; ring).
  eexists. split; [reflexivity |].
  assert (Hp : 0 < npr.power (INR (length [0; 1; 0; 1])) 0.2)
    by (apply power_len_pos; discriminate).
  assert (Hs : 0 < sqrt (1 / (INR (length [0; 1; 0; 1]) - 1) * (1 - 0 ^ 2))).
  { apply sqrt_lt_R0. simpl. lra. }
  apply Rdiv_lt_0_compat; [lra | exact Hp].
Qed.

Lemma density_product_witness :
  exists s,
    KDE2D.estimate_bandwidth [0; 1; 0; 1] [0; 0; 1; 1] = Py.ret (s, s) /\
    0 < s /\ 0 < s /\ [0; 1; 0; 1] <> [] /\
    exists self,
      KDE2D.init [0; 1; 0; 1] [0; 0; 1; 1] = Py.ret self /\
      forall x0 y0,
        KDE2D.density self x0 y0
        = sqrt (2 * PI)
          * (npr.sum (npr.zip_with (fun xi yi => gauss xi s x0 * gauss yi s y0)
                        [0; 1; 0; 1] [0; 0; 1; 1])
             / INR (length [0; 1; 0; 1])).
Proof.
  destruct square_widths as (s & E & Hs).
  assert (Hne : [0; 1; 0; 1] <> []) by discriminate.
  exists s. split; [exact E |]. split; [exact Hs |]. split; [exact Hs |].
  split; [exact Hne |].
  exact (@density_product [0; 1; 0; 1] [0; 0; 1; 1] s s E Hs Hs Hne).
Defined.

End CovarianceWitnesses.

(* ================================================================== *)
(** * Part XI: the bandwidth of GaussianKDE                            *)
(* ================================================================== *)

Section BandwidthRules.
Import Bandwidth.
Local Open Scope R_scope.
Local Open Scope py_scope.

Lemma mean_affine a c l :
  l <> [] -> npr.mean (map (fun v => a * v + c) l) = a * npr.mean l + c.
Proof.
  intros Hne. unfold npr.mean. rewrite length_map.
  rewrite (sum_map_plus (fun v => a * v) (fun _ => c)).
  rewrite sum_map_scal, sum_map_const, sum_map_id. field.
  apply not_0_INR. destruct l; [congruence | discriminate].
Qed.

Lemma std_affine a c l :
  l <> [] -> npr.std (map (fun v => a * v + c) l) = Rabs a * npr.std l.
Proof.
  intros Hne. unfold npr.std. rewrite (mean_affine a c Hne), map_map.
  set (mu := npr.mean l).
  rewrite (map_ext _ (fun v => a ^ 2 * (Rabs (v - mu) ^ 2))).
  - unfold npr.mean. rewrite !length_map, sum_map_scal.
    replace (a ^ 2 * npr.sum (map (fun v => Rabs (v - mu) ^ 2) l) / INR (length l))
      with (a ^ 2 * (npr.sum (map (fun v => Rabs (v - mu) ^ 2) l) / INR (length l)))
      by (unfold Rdiv; ring).
    rewrite sqrt_mult_alt by apply pow2_ge_0.
    f_equal. replace (a ^ 2) with (Rsqr a) by (unfold Rsqr; ring).
    apply sqrt_Rsqr_abs.
  - intros v. rewrite !pow2_abs. ring.
Qed.

Lemma std_nonneg l : 0 <= npr.std l.
Proof. apply sqrt_pos. Qed.

(** The rule-of-thumb bandwidth follows the scale of the data: it is not
    changed by a shift of the sample and is multiplied by [|a|] when the
    sample is; it is never negative. *)
Theorem simple_bandwidth_affine a c s :
  s <> [] ->
  simple_bandwidth_estimator (map (fun v => a * v + c) s)
  = Rabs a * simple_bandwidth_estimator s /\
  0 <= simple_bandwidth_estimator s.
Proof.
  intros Hne. unfold simple_bandwidth_estimator.
  rewrite (std_affine a c Hne), length_map.
  pose proof (power_len_pos 0.2 Hne) as Hp.
  set (pw := npr.power (INR (length s)) 0.2) in *.
  split.
  - unfold Rdiv. ring.
  - pose proof (std_nonneg s). pose proof (Rinv_0_lt_compat _ Hp).
    unfold Rdiv. apply Rmult_le_pos; [| lra]. lra.
Qed.

(** The sum of the normal densities around the samples, by the kernel sum
    of the score. *)
Lemma gauss_sum samples h x :
  0 < h ->
  npr.sum (map (fun sj => gauss sj h x) samples)
  = kernel_sum samples h x / (sqrt (2 * PI) * h).
Proof.
  intros Hh. unfold kernel_sum.
  assert (Hpi : 0 < sqrt (2 * PI)).
  { apply sqrt_lt_R0. pose proof PI_RGT_0. lra. }
  rewrite <- sum_scale. f_equal. apply map_ext. intros sj.
  unfold gauss, kernel.
  assert (E : (x - sj) ^ 2 / (2 * h ^ 2) = ((x - sj) / (sqrt 2 * h)) ^ 2).
  { rewrite <- sqrt2_sq at 1. field. split; [lra | apply sqrt2_neq_0]. }
  rewrite E. field. split; lra.
Qed.

(** [log_evaluation] returns, at every point, the logarithm of the
    Gaussian kernel density estimate of bandwidth [width]: the mean of the
    normal densities around the samples.  Without samples [reduce] has
    nothing to fold and raises [TypeError]. *)
Theorem log_evaluation_kde points samples width :
  log_evaluation points [] width = Py.raise Py.TypeError /\
  (samples <> [] -> 0 < width ->
   log_evaluation points samples width =
   Py.ret (map (fun x =>
             ln (npr.sum (map (fun sj => gauss sj width x) samples)
                 / INR (length samples))) points)).
Proof.
  split; [reflexivity |]. intros Hs Hh. unfold log_evaluation.
  destruct samples as [| s0 rest]; [congruence |].
  set (s := s0 :: rest) in *.
  change (map (fun sj => map (fun x => log_kernel x sj width) points) s)
    with (map (fun x => log_kernel x s0 width) points
          :: map (fun sj => map (fun x => log_kernel x sj width) points) rest).
  cbn [npr.reduce]. rewrite bind_ret.
  rewrite (fold_zip_with npr.logaddexp (fun sj x => log_kernel x sj width) points rest
             (fun x => log_kernel x s0 width)).
  rewrite map_map. f_equal. apply map_ext. intros x.
  rewrite fold_logaddexp.
  assert (Hn : 0 < INR (length s)) by (apply lt_0_INR; simpl; lia).
  assert (Hpi : 0 < sqrt (2 * PI)).
  { apply sqrt_lt_R0. pose proof PI_RGT_0. lra. }
  assert (HK : 0 < kernel_sum s width x) by (apply kernel_sum_pos; discriminate).
  assert (E : exp (log_kernel x s0 width)
              + npr.sum (map exp (map (fun sj => log_kernel x sj width) rest))
              = kernel_sum s width x / width).
  { unfold kernel_sum. rewrite <- sum_scale. unfold s. cbn [map].
    change (npr.sum (kernel width x s0 / width
                     :: map (fun y => kernel width x y / width) rest))
      with (kernel width x s0 / width
            + npr.sum (map (fun y => kernel width x y / width) rest)).
    rewrite exp_log_kernel by exact Hh. f_equal.
    rewrite map_map. f_equal. apply map_ext. intros y.
    apply exp_log_kernel, Hh. }
  rewrite E, (gauss_sum s x Hh).
  rewrite <- ln_div by (try apply Rdiv_lt_0_compat; try apply Rmult_lt_0_compat; assumption).
  f_equal. field. repeat split; lra.
Qed.

End BandwidthRules.

Section GridSearch.
Import Bandwidth.
Local Open Scope R_scope.
Local Open Scope py_scope.

Variable samples : list R.

(** All points of a grid lie between [lo] and [hi]. *)
Definition within (lo hi : R) (l : list R) : Prop :=
  Forall (fun h => lo <= h <= hi) l.

Lemma within_weaken lo hi lo' hi' l :
  lo' <= lo -> hi <= hi' -> within lo hi l -> within lo' hi' l.
Proof.
  intros Hlo Hhi H. eapply Forall_impl; [| exact H]. intros h Hh. simpl in Hh. lra.
Qed.

Lemma In_firstn {A} n (l : list A) x : In x (firstn n l) -> In x l.
Proof.
  intros H. rewrite <- (firstn_skipn n l). apply in_or_app. left. exact H.
Qed.

Lemma In_skipn {A} n (l : list A) x : In x (skipn n l) -> In x l.
Proof.
  intros H. rewrite <- (firstn_skipn n l). apply in_or_app. right. exact H.
Qed.

Lemma within_insert lo hi i x l :
  lo <= x <= hi -> within lo hi l -> within lo hi (npr.insert i x l).
Proof.
  intros Hx H. unfold npr.insert, within. apply Forall_app. split.
  - apply Forall_forall. intros h Hh. apply In_firstn in Hh.
    exact (proj1 (Forall_forall _ _) H h Hh).
  - constructor; [exact Hx |]. apply Forall_forall. intros h Hh.
    apply In_skipn in Hh. exact (proj1 (Forall_forall _ _) H h Hh).
Qed.

Lemma getitem_In {A} (l : list A) i x : np.getitem l i = Some x -> In x l.
Proof.
  unfold np.getitem. intros H.
  destruct (_ && _); [eapply nth_error_In, H |].
  destruct (_ && _); [eapply nth_error_In, H | discriminate].
Qed.

Lemma getitem_within lo hi l i x :
  within lo hi l -> np.getitem l i = Some x -> lo <= x <= hi.
Proof.
  intros H E. exact (proj1 (Forall_forall _ _) H x (getitem_In _ _ E)).
Qed.

(** A pass of the extension loop adds at most one point, [dh] beyond an
    end of the grid. *)
Lemma extend_within passes : forall g g' lo hi,
  extend samples passes g = Py.ret g' ->
  within lo hi (fst g) ->
  within (lo - INR passes * dh) (hi + INR passes * dh) (fst g').
Proof.
  unfold dh.
  induction passes as [| passes IH]; intros [log_h log_p] g' lo hi H Hw.
  - cbn [extend] in H. unfold Py.ret in H. injection H as <-.
    simpl. eapply within_weaken; [| | exact Hw]; lra.
  - assert (Hs : INR (S passes) = INR passes + 1) by apply S_INR.
    cbn [extend] in H. cbn [fst] in *.
    bind_inv H as max_ind Hmax.
    destruct ((0 <? max_ind) && (max_ind <? length log_h - 1))%nat.
    + unfold Py.ret in H. injection H as <-. cbn [fst].
      pose proof (pos_INR passes).
      eapply within_weaken; [| | exact Hw]; rewrite Hs; lra.
    + destruct (max_ind =? 0)%nat.
      * bind_inv H as h0 Hh0. bind_inv H as new_lp Hlp.
        apply orelse_ret_inv in Hh0.
        pose proof (getitem_within _ Hw Hh0) as Hb.
        apply (IH _ _ (lo - 0.5) hi) in H.
        -- eapply within_weaken; [| | exact H]; rewrite Hs; unfold dh; lra.
        -- cbn [fst]. apply within_insert; [unfold dh; lra |].
           eapply within_weaken; [| | exact Hw]; lra.
      * bind_inv H as h1 Hh1. bind_inv H as new_lp Hlp.
        apply orelse_ret_inv in Hh1.
        pose proof (getitem_within _ Hw Hh1) as Hb.
        apply (IH _ _ lo (hi + 0.5)) in H.
        -- eapply within_weaken; [| | exact H]; rewrite Hs; unfold dh; lra.
        -- cbn [fst]. unfold within. apply Forall_app. split.
           ++ eapply within_weaken; [| | exact Hw]; lra.
           ++ constructor; [unfold dh; lra | constructor].
Qed.

(** The refinement inserts means of two points of the grid. *)
Lemma refine_within passes : forall g g' lo hi,
  refine samples passes g = Py.ret g' ->
  within lo hi (fst g) -> within lo hi (fst g').
Proof.
  induction passes as [| passes IH]; intros [log_h log_p] g' lo hi H Hw.
  - cbn [refine] in H. unfold Py.ret in H. injection H as <-. exact Hw.
  - cbn [refine] in H. cbn [fst] in *.
    bind_inv H as max_ind Hmax. bind_inv H as hl Hhl. bind_inv H as hm Hhm.
    bind_inv H as hu Hhu. bind_inv H as lwr_lp Hlwr. bind_inv H as upr_lp Hupr.
    apply orelse_ret_inv in Hhl, Hhm, Hhu.
    pose proof (getitem_within _ Hw Hhl). pose proof (getitem_within _ Hw Hhm).
    pose proof (getitem_within _ Hw Hhu).
    apply (IH _ _ lo hi) in H; [exact H |]. cbn [fst].
    apply within_insert; [lra |]. apply within_insert; [lra | exact Hw].
Qed.

(** Whatever the scores, the bandwidth the search returns lies within a
    factor [exp(3.5)] of [exp(initial_h)]: the grid starts within 1 of
    [initial_h], the extension loop moves an end by 0.5 at most five times,
    and the refinement stays inside the grid. *)
Theorem cv_estimate_range initial_h h_estimate :
  cross_validation_bandwidth_estimator samples initial_h = Py.ret h_estimate ->
  exp (initial_h - 3.5) <= h_estimate <= exp (initial_h + 3.5).
Proof.
  unfold cross_validation_bandwidth_estimator. intros H.
  bind_inv H as log_p Hs. bind_inv H as g1 He. bind_inv H as g2 Hr.
  destruct g2 as [log_h2 log_p2].
  bind_inv H as i Hi. bind_inv H as h Hh.
  unfold Py.ret in H. injection H as <-.
  assert (H0 : within (initial_h - 1) (initial_h + 1) (initial_log_h initial_h)).
  { unfold initial_log_h, within, dh. cbn [map].
    repeat (constructor; [lra |]). constructor. }
  apply extend_within with (lo := initial_h - 1) (hi := initial_h + 1) in He;
    [| exact H0].
  apply refine_within with (lo := initial_h - 1 - INR 5 * dh)
                           (hi := initial_h + 1 + INR 5 * dh) in Hr; [| exact He].
  apply orelse_ret_inv in Hh.
  pose proof (getitem_within _ Hr Hh) as Hb. cbn [fst] in Hb.
  unfold dh in Hb. simpl INR in Hb.
  assert (Hle : forall a b, a <= b -> exp a <= exp b).
  { intros a b [Hab | ->]; [left; apply exp_increasing, Hab | right; reflexivity]. }
  split; apply Hle; lra.
Qed.

(** When the greatest score sits at the upper end of the grid, the
    refinement reads [log_h[max_ind + 1]], one past the end, and raises
    [IndexError] before any score is computed. *)
Theorem refine_upper_edge passes log_h log_p :
  log_h <> [] ->
  npr.argmax log_p = Py.ret (length log_h - 1)%nat ->
  refine samples (S passes) (log_h, log_p) = Py.raise Py.IndexError.
Proof.
  intros Hne Hmax. cbn [refine]. rewrite Hmax, bind_ret.
  assert (Hlen : (1 <= length log_h)%nat) by (destruct log_h; [congruence | simpl; lia]).
  destruct (@getitem_in_range _ log_h (Z.of_nat (length log_h - 1) - 1)) as [hl El];
    [unfold np.len; lia |].
  destruct (@getitem_in_range _ log_h (Z.of_nat (length log_h - 1))) as [hm Em];
    [unfold np.len; lia |].
  rewrite El, Em. simpl Py.orelse. rewrite !bind_ret.
  assert (Eu : np.getitem log_h (Z.of_nat (length log_h - 1) + 1) = None).
  { unfold np.getitem, np.len.
    destruct (Z.ltb_spec (Z.of_nat (length log_h - 1) + 1) (Z.of_nat (length log_h)));
      [lia |].
    rewrite andb_false_r.
    destruct (Z.ltb_spec (Z.of_nat (length log_h - 1) + 1) 0); [lia |].
    rewrite andb_false_r. reflexivity. }
  rewrite Eu. reflexivity.
Qed.

End GridSearch.

Section SearchSteps.
Import Bandwidth.
Local Open Scope R_scope.
Local Open Scope py_scope.

(** [argmax] returns the first position of a greatest element. *)
Lemma argmax_from_le best bi a : forall i,
  Forall (fun x => x <= best) a -> npr.argmax_from best bi i a = bi.
Proof.
  induction a as [| x a IH]; intros i H; [reflexivity |].
  inversion H as [| ? ? Hx Ha]; subst. cbn [npr.argmax_from].
  assert (E : npr.ltb best x = false) by (apply ltb_false, Hx).
  rewrite E. apply IH, Ha.
Qed.

Lemma argmax_from_at m post pre : forall best bi i,
  best < m -> Forall (fun x => x < m) pre -> Forall (fun x => x <= m) post ->
  npr.argmax_from best bi i (pre ++ m :: post) = (i + length pre)%nat.
Proof.
  induction pre as [| x pre IH]; intros best bi i Hb Hpre Hpost.
  - cbn [app npr.argmax_from length].
    assert (E : npr.ltb best m = true) by (apply ltb_true, Hb).
    rewrite E, (argmax_from_le _ _ Hpost). lia.
  - inversion Hpre as [| ? ? Hx Hp]; subst. cbn [app npr.argmax_from length].
    destruct (npr.ltb best x); rewrite IH by assumption; lia.
Qed.

Lemma argmax_at pre m post :
  Forall (fun x => x < m) pre -> Forall (fun x => x <= m) post ->
  npr.argmax (pre ++ m :: post) = Py.ret (length pre).
Proof.
  intros Hpre Hpost. destruct pre as [| x pre].
  - cbn [app npr.argmax length]. now rewrite (argmax_from_le _ _ Hpost).
  - inversion Hpre as [| ? ? Hx Hp]; subst. cbn [app npr.argmax length].
    rewrite (argmax_from_at _ _ Hx Hp Hpost). reflexivity.
Qed.

(** The score of a single sample falls with the logarithm of the
    bandwidth. *)
Lemma score_single a h :
  score [a] h = Py.ret (ln (1 / 100 / sqrt (2 * PI)) - h).
Proof.
  unfold score.
  assert (Hw : 0 < exp h) by apply exp_pos.
  assert (Hpi : 0 < sqrt (2 * PI)).
  { apply sqrt_lt_R0. pose proof PI_RGT_0. lra. }
  rewrite (@cross_validation_logprob_value [a] (exp h) 0.99 ltac:(discriminate) Hw
             ltac:(lra)).
  unfold Py.ret. do 2 f_equal. cbn [map]. unfold npr.sum. cbn [fold_right].
  unfold kernel_sum. cbn [map]. unfold npr.sum. cbn [fold_right].
  rewrite kernel_self. simpl INR.
  replace (1 + 0 - 0.99) with (1 / 100) by lra.
  replace (1 / (1 * sqrt (2 * PI) * exp h) * (1 / 100))
    with (1 / 100 / sqrt (2 * PI) / exp h) by (field; split; lra).
  rewrite ln_div by (try apply Rdiv_lt_0_compat; lra).
  rewrite ln_exp. ring.
Qed.

(** One pass of the extension loop with the greatest score at the lower
    end, and one pass of the refinement with the greatest score inside the
    grid or at its lower end. *)
Lemma extend_step_lower samples p h0 t log_p :
  npr.argmax log_p = Py.ret 0%nat ->
  extend samples (S p) (h0 :: t, log_p) =
  (new_lp <- score samples (h0 - dh) ;;
   extend samples p ((h0 - dh) :: h0 :: t, new_lp :: log_p)).
Proof.
  intros Hmax. cbn [extend]. rewrite Hmax, bind_ret.
  change ((0 <? 0)%nat) with false. cbn [andb].
  change ((0 =? 0)%nat) with true. cbv iota.
  assert (E : np.getitem (h0 :: t) 0 = Some h0).
  { unfold np.getitem, np.len.
    destruct (Z.ltb_spec 0 (Z.of_nat (length (h0 :: t))));
      [reflexivity | simpl length in *; lia]. }
  rewrite E. simpl Py.orelse. rewrite bind_ret. reflexivity.
Qed.

Lemma refine_step samples p k log_h log_p :
  npr.argmax log_p = Py.ret k -> (1 <= k)%nat -> (k + 1 < length log_h)%nat ->
  refine samples (S p) (log_h, log_p) =
  (lwr_lp <- score samples (0.5 * (nth (k - 1) log_h 0 + nth k log_h 0)) ;;
   upr_lp <- score samples (0.5 * (nth k log_h 0 + nth (k + 1) log_h 0)) ;;
   refine samples p
     (npr.insert (k + 2) (0.5 * (nth k log_h 0 + nth (k + 1) log_h 0))
        (npr.insert k (0.5 * (nth (k - 1) log_h 0 + nth k log_h 0)) log_h),
      npr.insert (k + 2) upr_lp (npr.insert k lwr_lp log_p))).
Proof.
  intros Hmax Hk Hlen. cbn [refine]. rewrite Hmax, bind_ret.
  replace (Z.of_nat k - 1)%Z with (Z.of_nat (k - 1)) by lia.
  replace (Z.of_nat k + 1)%Z with (Z.of_nat (k + 1)) by lia.
  rewrite (@getitem_nth _ log_h (k - 1)%nat ltac:(lia) 0).
  rewrite (@getitem_nth _ log_h k ltac:(lia) 0).
  rewrite (@getitem_nth _ log_h (k + 1)%nat ltac:(lia) 0).
  simpl Py.orelse. rewrite !bind_ret. reflexivity.
Qed.

Lemma refine_step_lower samples p h0 h1 rest log_p :
  npr.argmax log_p = Py.ret 0%nat ->
  let log_h := h0 :: h1 :: rest in
  let last := nth (length rest) (h1 :: rest) 0 in
  refine samples (S p) (log_h, log_p) =
  (lwr_lp <- score samples (0.5 * (last + h0)) ;;
   upr_lp <- score samples (0.5 * (h0 + h1)) ;;
   refine samples p
     (0.5 * (last + h0) :: h0 :: 0.5 * (h0 + h1) :: h1 :: rest,
      npr.insert 2 upr_lp (npr.insert 0 lwr_lp log_p))).
Proof.
  intros Hmax log_h last. cbn [refine]. rewrite Hmax, bind_ret.
  assert (El : np.getitem log_h (Z.of_nat 0 - 1) = Some last).
  { unfold np.getitem, np.len, log_h, last.
    change (Z.of_nat 0 - 1)%Z with (-1)%Z.
    change ((0 <=? -1)%Z) with false. cbn [andb].
    destruct (Z.leb_spec (- Z.of_nat (length (h0 :: h1 :: rest))) (-1));
      [| simpl length in *; lia].
    change (-1 <? 0)%Z with true. cbn [andb].
    replace (Z.to_nat (-1 + Z.of_nat (length (h0 :: h1 :: rest))))
      with (S (length rest)) by (simpl length; lia).
    cbn [nth_error]. apply nth_error_nth'. simpl. lia. }
  rewrite El. simpl Py.orelse. rewrite !bind_ret.
  assert (Eu : np.getitem log_h 1 = Some h1).
  { unfold np.getitem, np.len, log_h.
    destruct (Z.ltb_spec 1 (Z.of_nat (length (h0 :: h1 :: rest))));
      [reflexivity | simpl length in *; lia]. }
  change (Z.of_nat 0 + 1)%Z with 1%Z. rewrite Eu. simpl Py.orelse. rewrite bind_ret.
  reflexivity.
Qed.

(** When the greatest score sits at the lower end, [log_h[max_ind - 1]] is
    [log_h[-1]]: the first point the refinement inserts is the mean of the
    first and the last point of the grid. *)
Theorem refine_lower_edge samples passes h0 h1 rest log_p :
  npr.argmax log_p = Py.ret 0%nat ->
  let log_h := h0 :: h1 :: rest in
  let last := nth (length rest) (h1 :: rest) 0 in
  refine samples (S passes) (log_h, log_p) =
  (lwr_lp <- score samples (0.5 * (last + h0)) ;;
   upr_lp <- score samples (0.5 * (h0 + h1)) ;;
   refine samples passes
     (0.5 * (last + h0) :: h0 :: 0.5 * (h0 + h1) :: h1 :: rest,
      npr.insert 2 upr_lp (npr.insert 0 lwr_lp log_p))).
Proof. apply refine_step_lower. Qed.

(** [argmax_is k]: the goal [argmax L = ret k] for a list [L] of numbers
    that linear arithmetic can compare. *)
Ltac argmax_is k :=
  lazymatch goal with
  | |- npr.argmax ?L = _ =>
      let pre := eval cbn [firstn] in (firstn k L) in
      let rest := eval cbn [skipn] in (skipn k L) in
      lazymatch rest with
      | ?m :: ?post =>
          refine (@argmax_at pre m post _ _);
          (repeat (apply Forall_cons; [unfold dh; lra |])); apply Forall_nil
      end
  end.

Ltac extend_lower :=
  lazymatch goal with
  | |- context [extend ?s (S ?p) (?h0 :: ?t, ?lp)] =>
      let H := fresh "Hmax" in
      assert (H : npr.argmax lp = Py.ret 0%nat) by argmax_is 0%nat;
      rewrite (@extend_step_lower s p h0 t lp H); clear H;
      rewrite score_single, bind_ret
  end.

Ltac refine_at k :=
  lazymatch goal with
  | |- context [refine ?s (S ?p) (?lh, ?lp)] =>
      let H := fresh "Hmax" in
      assert (H : npr.argmax lp = Py.ret k) by argmax_is k;
      rewrite (@refine_step s p k lh lp H ltac:(lia) ltac:(simpl; lia)); clear H;
      cbn [nth Nat.sub Nat.add npr.insert firstn skipn app];
      rewrite !score_single, !bind_ret;
      cbn [nth Nat.sub Nat.add npr.insert firstn skipn app]
  end.

(** The search on a single sample: the score falls with the bandwidth, the
    extension loop moves the lower end five times, and the least point of
    the grid is returned. *)
Lemma cv_single_sample :
  exists h, cross_validation_bandwidth_estimator [0] 0 = Py.ret (exp h) /\ h = -3.5.
Proof.
  unfold cross_validation_bandwidth_estimator, initial_log_h.
  cbn [map scores]. rewrite !score_single, !bind_ret.
  do 5 extend_lower.
  cbn [extend]. rewrite bind_ret.
  lazymatch goal with
  | |- context [refine ?s (S ?p) (?h0 :: ?h1 :: ?rest, ?lp)] =>
      assert (Hmax : npr.argmax lp = Py.ret 0%nat) by argmax_is 0%nat;
      rewrite (@refine_step_lower s p h0 h1 rest lp Hmax); clear Hmax
  end.
  cbn [nth length npr.insert firstn skipn app].
  rewrite !score_single, !bind_ret.
  cbn [nth length npr.insert firstn skipn app].
  refine_at 1%nat. refine_at 2%nat. refine_at 3%nat. refine_at 4%nat.
  refine_at 5%nat.
  cbn [refine]. rewrite bind_ret.
  lazymatch goal with
  | |- context [npr.argmax ?lp] =>
      assert (Hmax : npr.argmax lp = Py.ret 6%nat) by argmax_is 6%nat;
      rewrite Hmax; clear Hmax
  end.
  rewrite bind_ret.
  lazymatch goal with
  | |- context [np.getitem ?lh (Z.of_nat 6)] =>
      rewrite (@getitem_nth _ lh 6%nat ltac:(simpl; lia) 0)
  end.
  cbn [nth]. simpl Py.orelse. rewrite bind_ret.
  eexists. split; [reflexivity |]. unfold dh. lra.
Qed.

Lemma argmax_example_last : npr.argmax [0; 0; 1] = Py.ret 2%nat.
Proof. argmax_is 2%nat. Qed.

Lemma argmax_example_first : npr.argmax [1; 0; 0] = Py.ret 0%nat.
Proof. argmax_is 0%nat. Qed.

End SearchSteps.

Section BandwidthWitnesses.
Import Bandwidth.
Local Open Scope R_scope.
Local Open Scope py_scope.

Lemma simple_bandwidth_affine_witness :
  [0; 1] <> [] /\
  simple_bandwidth_estimator (map (fun v => 2 * v + 1) [0; 1])
  = Rabs 2 * simple_bandwidth_estimator [0; 1] /\
  0 <= simple_bandwidth_estimator [0; 1].
Proof.
  assert (H : [0; 1] <> []) by discriminate.
  split; [exact H |].
  exact (@simple_bandwidth_affine 2 1 [0; 1] H).
Defined.

Lemma cv_estimate_range_witness :
  exists h_estimate,
    cross_validation_bandwidth_estimator [0] 0 = Py.ret h_estimate /\
    exp (0 - 3.5) <= h_estimate <= exp (0 + 3.5).
Proof.
  destruct cv_single_sample as (h & E & _).
  exists (exp h). split; [exact E |].
  exact (@cv_estimate_range [0] 0 (exp h) E).
Defined.

Lemma cv_search_grid_witness :
  exists h_estimate,
    cross_validation_bandwidth_estimator [0] 0 = Py.ret h_estimate /\
    exists log_p g1 g2,
      scores [0] (initial_log_h 0) = Py.ret log_p /\
      extend [0] 5 (initial_log_h 0, log_p) = Py.ret g1 /\
      refine [0] 6 g1 = Py.ret g2 /\
      length (initial_log_h 0) = 5%nat /\
      (5 <= length (fst g1) <= 10)%nat /\
      length (fst g2) = (length (fst g1) + 12)%nat /\
      exists h, In h (fst g2) /\ h_estimate = exp h.
Proof.
  destruct cv_single_sample as (h & E & _).
  exists (exp h). split; [exact E |].
  exact (@cv_search_grid [0] 0 (exp h) E).
Defined.

Lemma refine_upper_edge_witness :
  [0; 1; 2] <> [] /\
  npr.argmax [0; 0; 1] = Py.ret (length [0; 1; 2] - 1)%nat /\
  refine [0] 1 ([0; 1; 2], [0; 0; 1]) = Py.raise Py.IndexError.
Proof.
  assert (H : [0; 1; 2] <> []) by discriminate.
  split; [exact H |]. split; [exact argmax_example_last |].
  exact (@refine_upper_edge [0] 0 [0; 1; 2] [0; 0; 1] H argmax_example_last).
Defined.

Lemma refine_lower_edge_witness :
  npr.argmax [1; 0; 0] = Py.ret 0%nat /\
  refine [0] 1 ([0; 1; 2], [1; 0; 0]) =
  (lwr_lp <- score [0] (0.5 * (nth (length [2]) [1; 2] 0 + 0)) ;;
   upr_lp <- score [0] (0.5 * (0 + 1)) ;;
   refine [0] 0
     ([0.5 * (nth (length [2]) [1; 2] 0 + 0); 0; 0.5 * (0 + 1); 1; 2],
      npr.insert 2 upr_lp (npr.insert 0 lwr_lp [1; 0; 0]))).
Proof.
  split; [exact argmax_example_first |].
  exact (@refine_lower_edge [0] 0 0 1 [2] [1; 0; 0] argmax_example_first).
Defined.

Lemma log_evaluation_kde_witness :
  log_evaluation [0] [] 1 = Py.raise Py.TypeError /\
  log_evaluation [0] [0; 1] 1 =
  Py.ret (map (fun x =>
            ln (npr.sum (map (fun sj => gauss sj 1 x) [0; 1])
                / INR (length [0; 1]))) [0]).
Proof.
  destruct (@log_evaluation_kde [0] [0; 1] 1) as (H1 & H2).
  split; [exact H1 |]. apply H2; [discriminate | lra].
Defined.

End BandwidthWitnesses.
